(** * ShareMyLocation: the expiring store and the broadcast handler

    A shallow embedding of [shared/schema.ts], [server/storage.ts],
    [server/routes.ts] and [client/src/lib/savedShares.ts].

    Conventions of the embedding.
    - A JavaScript [Date] and the ISO-8601 string [toISOString] renders it to
      are one integer: the milliseconds since the epoch.  [new Date(s)] on a
      string the store produced returns that integer again.
    - [new Date()] is the clock; every operation of the store and every
      handler receives one reading of it as its [now] argument.
    - [nanoid(n)] is the identifier source; every [create] receives the
      identifiers it would draw as arguments.
    - The three [Map]s of [MemStorage] are iterated by the code
      ([values()], [entries()]), so they are insertion-ordered association
      lists; the four registries of [routes.ts] are only read and written by
      key, so they are finite maps.
    - An [async] handler is run to completion: every [await] is on an
      in-memory operation of the store.  A handler that starts while another
      one waits at an [await] (two frames of one socket that arrive together)
      is outside the embedding: a statement about a handler describes one
      run of it on its own.  The [catch] branches (a frame that is not JSON,
      a 500 answer) are not part of the embedding: on the data the routes
      pass no operation of the store throws.
    - Instants are unbounded integers.  The ends of the range of [Date]
      (8.64e15 ms either side of the epoch), beyond which [toISOString]
      throws, are outside the embedding: no reading of the clock plus a
      number of minutes the schema accepts comes near them.
    - [localStorage] is the one item the client code reads and writes; it is
      passed in and handed back, and [setItem] is taken to succeed. *)

From stdpp Require Import gmap strings list fin_maps.

Local Open Scope string_scope.
Local Open Scope list_scope.

(** ** JavaScript values *)

(** A [number] is an IEEE double: a finite value [m * 2^e], an infinity or
    NaN.  The code never computes on coordinates, it only classifies,
    stores and forwards them. *)
Inductive number :=
  | Finite (m e : Z)
  | Infinity (negative : bool)
  | NaN.

(** What [JSON.parse] can produce, and [undefined] for a missing property.
    ([JSON.parse] yields [Infinity] for a literal such as [1e999].) *)
#[local] Set Warnings "-register-all".
Inductive jsval :=
  | JUndefined
  | JNull
  | JBool (b : bool)
  | JNum (n : number)
  | JStr (s : string)
  | JIso (t : Z)
  | JArr (items : list jsval)
  | JObj (fields : list (string * jsval)).

(** [obj[k]] *)
Fixpoint prop (k : string) (fields : list (string * jsval)) : jsval :=
  match fields with
  | [] => JUndefined
  | (k', v) :: rest => if bool_decide (k' = k) then v else prop k rest
  end.

(** Truthiness of a string-or-undefined: the empty string is falsy. *)
Definition truthy (o : option string) : option string :=
  match o with
  | Some s => if bool_decide (s = EmptyString) then None else Some s
  | None => None
  end.

(** ** An insertion-ordered [Map<string, V>] *)

Abbreviation omap V := (list (string * V)).

Section OMap.
Context {V : Type}.

Fixpoint omap_get (k : string) (m : omap V) : option V :=
  match m with
  | [] => None
  | (k', v) :: rest => if bool_decide (k' = k) then Some v else omap_get k rest
  end.

(** [set] keeps the position of a key that is present and appends a new
    one. *)
Fixpoint omap_set (k : string) (v : V) (m : omap V) : omap V :=
  match m with
  | [] => [(k, v)]
  | (k', v') :: rest =>
      if bool_decide (k' = k) then (k, v) :: rest
      else (k', v') :: omap_set k v rest
  end.

Definition omap_has (k : string) (m : omap V) : bool :=
  bool_decide (is_Some (omap_get k m)).

Definition omap_delete (k : string) (m : omap V) : omap V :=
  filter (λ kv, kv.1 ≠ k) m.

Definition omap_values (m : omap V) : list V := m.*2.

Definition omap_entries (m : omap V) : list (string * V) := m.

End OMap.

(** ** shared/schema.ts *)

Module Location.
Record t := mk {
  id : string;
  latitude : number;
  longitude : number;
  name : option string;
  createdAt : Z;
  expiresAt : option Z;
  isLive : option bool;
  lastUpdated : option Z;
}.
End Location.

(** [expiresInMinutes] is a whole number of minutes (the client offers the
    values of [EXPIRY_OPTIONS]); on whole numbers of this size the double
    arithmetic of [createLocation] is exact. *)
Module InsertLocation.
Record t := mk {
  latitude : number;
  longitude : number;
  name : option string;
  isLive : option bool;
  expiresInMinutes : option Z;
}.
End InsertLocation.

Module LocationUpdate.
Record t := mk {
  latitude : number;
  longitude : number;
}.
End LocationUpdate.

Module Vehicle.
Record t := mk {
  id : string;
  fleetId : string;
  name : string;
  color : string;
  shareCode : string;
  latitude : option number;
  longitude : option number;
  isLive : bool;
  lastUpdated : option Z;
}.
End Vehicle.

Module Fleet.
Record t := mk {
  id : string;
  name : string;
  createdAt : Z;
  expiresAt : Z;
  adminCode : string;
}.
End Fleet.

Module InsertFleet.
Record t := mk {
  name : string;
}.
End InsertFleet.

Module InsertVehicle.
Record t := mk {
  fleetId : string;
  name : string;
  color : option string;
}.
End InsertVehicle.

Module VehicleUpdate.
Record t := mk {
  latitude : number;
  longitude : number;
}.
End VehicleUpdate.

Module Schema.

(** [z.number()] of zod 3, the API that [import { z } from "zod"] names: the
    value has type number and is not NaN.  Only [z.number().finite()] turns
    the infinities away, and no schema of this file asks for it. *)
Definition z_number (v : jsval) : option number :=
  match v with
  | JNum (Finite m e) => Some (Finite m e)
  | JNum (Infinity negative) => Some (Infinity negative)
  | JNum NaN => None
  | _ => None
  end.

(** [z.object({...}).safeParse(v)]: [v] is an object and each listed
    property parses; unknown properties are stripped. *)
Definition locationUpdateSchema (v : jsval) : option LocationUpdate.t :=
  match v with
  | JObj fields =>
      match z_number (prop "latitude" fields), z_number (prop "longitude" fields) with
      | Some latitude, Some longitude => Some (LocationUpdate.mk latitude longitude)
      | _, _ => None
      end
  | _ => None
  end.

Definition vehicleUpdateSchema (v : jsval) : option VehicleUpdate.t :=
  match v with
  | JObj fields =>
      match z_number (prop "latitude" fields), z_number (prop "longitude" fields) with
      | Some latitude, Some longitude => Some (VehicleUpdate.mk latitude longitude)
      | _, _ => None
      end
  | _ => None
  end.

(** The gates of the insert schemas, on a body whose properties already have
    their types: [expiresInMinutes: z.number().min(1).max(1440).optional()],
    [name: z.string().min(1, ...)]. *)
Definition insertLocationSchema (body : InsertLocation.t) : bool :=
  match InsertLocation.latitude body, InsertLocation.longitude body with
  | NaN, _ | _, NaN => false
  | _, _ =>
      match InsertLocation.expiresInMinutes body with
      | Some minutes => bool_decide (1 ≤ minutes)%Z && bool_decide (minutes ≤ 1440)%Z
      | None => true
      end
  end.

Definition insertFleetSchema (body : InsertFleet.t) : bool :=
  bool_decide (1 ≤ String.length (InsertFleet.name body))%nat.

Definition insertVehicleSchema (body : InsertVehicle.t) : bool :=
  bool_decide (1 ≤ String.length (InsertVehicle.name body))%nat.

End Schema.

(** ** server/storage.ts *)

Module Storage.

Definition VEHICLE_COLORS : list string :=
  [ "#ef4444"; "#3b82f6"; "#22c55e"; "#f59e0b";
    "#8b5cf6"; "#ec4899"; "#06b6d4"; "#f97316" ].

Record MemStorage := mk {
  locations : omap Location.t;
  fleets : omap Fleet.t;
  vehicles : omap Vehicle.t;
}.

(** [new MemStorage()] *)
Definition empty : MemStorage := mk [] [] [].

Definition set_locations (m : omap Location.t) (s : MemStorage) : MemStorage :=
  mk m (fleets s) (vehicles s).
Definition set_fleets (m : omap Fleet.t) (s : MemStorage) : MemStorage :=
  mk (locations s) m (vehicles s).
Definition set_vehicles (m : omap Vehicle.t) (s : MemStorage) : MemStorage :=
  mk (locations s) (fleets s) m.

Definition getLocation (id : string) (now : Z) (s : MemStorage)
  : option Location.t * MemStorage :=
  match omap_get id (locations s) with
  | None => (None, s)
  | Some location =>
      match Location.expiresAt location with
      | Some expiresAt =>
          if bool_decide (expiresAt < now)%Z
          then (None, set_locations (omap_delete id (locations s)) s)
          else (Some location, s)
      | None => (Some location, s)
      end
  end.

(** [x || 1440] on a number: zero is falsy. *)
Definition or_default (x : option Z) (d : Z) : Z :=
  match x with
  | Some n => if bool_decide (n = 0)%Z then d else n
  | None => d
  end.

(** [createLocation] on the data its only caller passes: what
    [insertLocationSchema] has accepted for [POST /api/locations], with a
    whole number of minutes.  Other numbers are not in the embedding: [NaN],
    for which [||] takes the default too, and a number of minutes that takes
    the expiry out of the range of [Date], for which [toISOString] throws
    before anything is stored. *)
Definition createLocation (id : string) (now : Z)
    (insertLocation : InsertLocation.t) (s : MemStorage)
  : Location.t * MemStorage :=
  let expiryMinutes := or_default (InsertLocation.expiresInMinutes insertLocation) 1440 in
  let expiresAt := (now + expiryMinutes * 60 * 1000)%Z in
  let location :=
    {| Location.id := id;
       Location.latitude := InsertLocation.latitude insertLocation;
       Location.longitude := InsertLocation.longitude insertLocation;
       Location.name := InsertLocation.name insertLocation;
       Location.createdAt := now;
       Location.expiresAt := Some expiresAt;
       Location.isLive := Some (default false (InsertLocation.isLive insertLocation));
       Location.lastUpdated := Some now |} in
  (location, set_locations (omap_set id location (locations s)) s).

Definition updateLocation (id : string) (update : LocationUpdate.t) (now : Z)
    (s : MemStorage) : option Location.t * MemStorage :=
  match getLocation id now s with
  | (None, s1) => (None, s1)
  | (Some location, s1) =>
      let updatedLocation :=
        {| Location.id := Location.id location;
           Location.latitude := LocationUpdate.latitude update;
           Location.longitude := LocationUpdate.longitude update;
           Location.name := Location.name location;
           Location.createdAt := Location.createdAt location;
           Location.expiresAt := Location.expiresAt location;
           Location.isLive := Location.isLive location;
           Location.lastUpdated := Some now |} in
      (Some updatedLocation, set_locations (omap_set id updatedLocation (locations s1)) s1)
  end.

Definition deleteLocation (id : string) (s : MemStorage) : bool * MemStorage :=
  (omap_has id (locations s), set_locations (omap_delete id (locations s)) s).

(** The loop of [getFleet] over a snapshot of the entries, and its body. *)
Definition cascade_step (id : string) (acc : omap Vehicle.t)
    (entry : string * Vehicle.t) : omap Vehicle.t :=
  if bool_decide (Vehicle.fleetId entry.2 = id)
  then omap_delete entry.1 acc else acc.

Definition deleteVehiclesOf (id : string) (vs : omap Vehicle.t) : omap Vehicle.t :=
  foldl (cascade_step id) vs (omap_entries vs).

Definition getFleet (id : string) (now : Z) (s : MemStorage)
  : option Fleet.t * MemStorage :=
  match omap_get id (fleets s) with
  | None => (None, s)
  | Some fleet =>
      if bool_decide (Fleet.expiresAt fleet < now)%Z
      then (None, mk (locations s) (omap_delete id (fleets s))
                     (deleteVehiclesOf id (vehicles s)))
      else (Some fleet, s)
  end.

Definition getFleetByAdminCode (adminCode : string) (now : Z) (s : MemStorage)
  : option Fleet.t :=
  List.find (λ fleet, bool_decide (Fleet.adminCode fleet = adminCode)
                      && bool_decide (now ≤ Fleet.expiresAt fleet)%Z)
            (omap_values (fleets s)).

Definition createFleet (id adminCode : string) (now : Z)
    (insertFleet : InsertFleet.t) (s : MemStorage) : Fleet.t * MemStorage :=
  let expiresAt := (now + 24 * 60 * 60 * 1000)%Z in
  let fleet :=
    {| Fleet.id := id;
       Fleet.name := InsertFleet.name insertFleet;
       Fleet.createdAt := now;
       Fleet.expiresAt := expiresAt;
       Fleet.adminCode := adminCode |} in
  (fleet, set_fleets (omap_set id fleet (fleets s)) s).

Definition getVehicle (id : string) (s : MemStorage) : option Vehicle.t :=
  omap_get id (vehicles s).

Definition getVehicleByShareCode (shareCode : string) (s : MemStorage)
  : option Vehicle.t :=
  List.find (λ v, bool_decide (Vehicle.shareCode v = shareCode))
            (omap_values (vehicles s)).

Definition getVehiclesByFleet (fleetId : string) (now : Z) (s : MemStorage)
  : list Vehicle.t * MemStorage :=
  match getFleet fleetId now s with
  | (None, s1) => ([], s1)
  | (Some _, s1) =>
      (foldl (λ vehicles vehicle,
                if bool_decide (Vehicle.fleetId vehicle = fleetId)
                then vehicles ++ [vehicle] else vehicles)
             [] (omap_values (vehicles s1)), s1)
  end.

(** [insertVehicle.color || VEHICLE_COLORS[colorIndex]]; the index is below
    the length of the palette, so the property is never [undefined]. *)
Definition createVehicle (id shareCode : string) (now : Z)
    (insertVehicle : InsertVehicle.t) (s : MemStorage) : Vehicle.t * MemStorage :=
  let '(existingVehicles, s1) :=
    getVehiclesByFleet (InsertVehicle.fleetId insertVehicle) now s in
  let colorIndex := length existingVehicles `mod` length VEHICLE_COLORS in
  let vehicle :=
    {| Vehicle.id := id;
       Vehicle.fleetId := InsertVehicle.fleetId insertVehicle;
       Vehicle.name := InsertVehicle.name insertVehicle;
       Vehicle.color :=
         match truthy (InsertVehicle.color insertVehicle) with
         | Some color => color
         | None => default EmptyString (VEHICLE_COLORS !! colorIndex)
         end;
       Vehicle.shareCode := shareCode;
       Vehicle.latitude := None;
       Vehicle.longitude := None;
       Vehicle.isLive := false;
       Vehicle.lastUpdated := None |} in
  (vehicle, set_vehicles (omap_set id vehicle (vehicles s1)) s1).

Definition updateVehicle (id : string) (update : VehicleUpdate.t) (now : Z)
    (s : MemStorage) : option Vehicle.t * MemStorage :=
  match omap_get id (vehicles s) with
  | None => (None, s)
  | Some vehicle =>
      let updatedVehicle :=
        {| Vehicle.id := Vehicle.id vehicle;
           Vehicle.fleetId := Vehicle.fleetId vehicle;
           Vehicle.name := Vehicle.name vehicle;
           Vehicle.color := Vehicle.color vehicle;
           Vehicle.shareCode := Vehicle.shareCode vehicle;
           Vehicle.latitude := Some (VehicleUpdate.latitude update);
           Vehicle.longitude := Some (VehicleUpdate.longitude update);
           Vehicle.isLive := Vehicle.isLive vehicle;
           Vehicle.lastUpdated := Some now |} in
      (Some updatedVehicle, set_vehicles (omap_set id updatedVehicle (vehicles s)) s)
  end.

Definition updateVehicleLiveStatus (id : string) (isLive : bool) (now : Z)
    (s : MemStorage) : option Vehicle.t * MemStorage :=
  match omap_get id (vehicles s) with
  | None => (None, s)
  | Some vehicle =>
      let updatedVehicle :=
        {| Vehicle.id := Vehicle.id vehicle;
           Vehicle.fleetId := Vehicle.fleetId vehicle;
           Vehicle.name := Vehicle.name vehicle;
           Vehicle.color := Vehicle.color vehicle;
           Vehicle.shareCode := Vehicle.shareCode vehicle;
           Vehicle.latitude := Vehicle.latitude vehicle;
           Vehicle.longitude := Vehicle.longitude vehicle;
           Vehicle.isLive := isLive;
           Vehicle.lastUpdated := Some now |} in
      (Some updatedVehicle, set_vehicles (omap_set id updatedVehicle (vehicles s)) s)
  end.

Definition deleteVehicle (id : string) (s : MemStorage) : bool * MemStorage :=
  (omap_has id (vehicles s), set_vehicles (omap_delete id (vehicles s)) s).

End Storage.

(** ** server/routes.ts: the WebSocket handlers *)

Module Routes.
Import Storage.

(** A [WebSocket] object, by identity. *)
Definition conn := nat.

Inductive ReadyState := CONNECTING | OPEN | CLOSING | CLOSED.

#[global] Instance ReadyState_eq_dec : EqDecision ReadyState.
Proof. solve_decision. Defined.

(** The envelopes the server sends, before [JSON.stringify]. *)
Inductive ServerMessage :=
  | MsgLocation (data : Location.t)
  | MsgStopped
  | MsgVehicles (data : list Vehicle.t)
  | MsgVehicleUpdate (data : Vehicle.t)
  | MsgVehicleStopped (vehicleId : string).

(** What a handler does to the outside: [socket.send(...)] and [log(...)]. *)
Inductive effect :=
  | Send (to : conn) (m : ServerMessage)
  | Log (line source : string).

(** An inbound envelope after [JSON.parse]: the properties the handler
    reads. *)
Record Message := {
  type : string;
  locationId : option string;
  fleetId : option string;
  vehicleId : option string;
  data : jsval;
}.

(** The four [let] variables of one connection's closure. *)
Record Vars := {
  subscribedLocationId : option string;
  sharingLocationId : option string;
  subscribedFleetId : option string;
  sharingVehicleId : option string;
}.

Definition fresh_vars : Vars := Build_Vars None None None None.

(** The module-level registries, the store, the sockets' [readyState] and the
    effects so far (oldest first). *)
Record Server := {
  storage : MemStorage;
  locationSubscribers : gmap string (list conn);
  sharerConnections : gmap string conn;
  fleetSubscribers : gmap string (list conn);
  vehicleSharerConnections : gmap string conn;
  readyState : conn → ReadyState;
  output : list effect;
}.

Definition initial : Server :=
  {| storage := Storage.empty;
     locationSubscribers := ∅;
     sharerConnections := ∅;
     fleetSubscribers := ∅;
     vehicleSharerConnections := ∅;
     readyState := λ _, CLOSED;
     output := [] |}.

Definition with_storage (s : MemStorage) (st : Server) : Server :=
  Build_Server s (locationSubscribers st) (sharerConnections st)
    (fleetSubscribers st) (vehicleSharerConnections st) (readyState st) (output st).
Definition with_locationSubscribers (m : gmap string (list conn)) (st : Server) : Server :=
  Build_Server (storage st) m (sharerConnections st)
    (fleetSubscribers st) (vehicleSharerConnections st) (readyState st) (output st).
Definition with_sharerConnections (m : gmap string conn) (st : Server) : Server :=
  Build_Server (storage st) (locationSubscribers st) m
    (fleetSubscribers st) (vehicleSharerConnections st) (readyState st) (output st).
Definition with_fleetSubscribers (m : gmap string (list conn)) (st : Server) : Server :=
  Build_Server (storage st) (locationSubscribers st) (sharerConnections st)
    m (vehicleSharerConnections st) (readyState st) (output st).
Definition with_vehicleSharerConnections (m : gmap string conn) (st : Server) : Server :=
  Build_Server (storage st) (locationSubscribers st) (sharerConnections st)
    (fleetSubscribers st) m (readyState st) (output st).
Definition with_readyState (r : conn → ReadyState) (st : Server) : Server :=
  Build_Server (storage st) (locationSubscribers st) (sharerConnections st)
    (fleetSubscribers st) (vehicleSharerConnections st) r (output st).
Definition emit (es : list effect) (st : Server) : Server :=
  Build_Server (storage st) (locationSubscribers st) (sharerConnections st)
    (fleetSubscribers st) (vehicleSharerConnections st) (readyState st)
    (output st ++ es).

(** [Set.add] and [Set.delete] on an insertion-ordered set. *)
Definition set_add (ws : conn) (subscribers : list conn) : list conn :=
  if decide (ws ∈ subscribers) then subscribers else subscribers ++ [ws].
Definition set_delete (ws : conn) (subscribers : list conn) : list conn :=
  filter (λ c, c ≠ ws) subscribers.

(** [subscribers.forEach(s => { if (s.readyState === WebSocket.OPEN)
    s.send(m) })] *)
Fixpoint forEach_send (ready : conn → ReadyState) (subscribers : list conn)
    (m : ServerMessage) : list effect :=
  match subscribers with
  | [] => []
  | subscriber :: rest =>
      (if decide (ready subscriber = OPEN) then [Send subscriber m] else [])
      ++ forEach_send ready rest m
  end.

(** [const subscribers = registry.get(key); if (subscribers) { ...forEach }] *)
Definition notify (subscribers : option (list conn)) (m : ServerMessage)
    (st : Server) : Server :=
  match subscribers with
  | Some subscribers => emit (forEach_send (readyState st) subscribers m) st
  | None => st
  end.

(** [if (!registry.has(key)) registry.set(key, new Set());
     registry.get(key)!.add(ws)] *)
Definition subscribe_to (key : string) (ws : conn)
    (registry : gmap string (list conn)) : gmap string (list conn) :=
  <[key := set_add ws (default [] (registry !! key))]> registry.

(** [subscribers.delete(ws); if (subscribers.size === 0) registry.delete(key)] *)
Definition unsubscribe_from (key : string) (ws : conn)
    (registry : gmap string (list conn)) : gmap string (list conn) :=
  match registry !! key with
  | Some subscribers =>
      let subscribers := set_delete ws subscribers in
      if decide (length subscribers = 0) then delete key registry
      else <[key := subscribers]> registry
  | None => registry
  end.

(** [ws.on("message", ...)]: the chain of [if]/[else if] on [message.type]. *)
Definition on_message (ws : conn) (message : Message) (now : Z)
    (vars : Vars) (st : Server) : Vars * Server :=
  let type_is t := bool_decide (type message = t) in
  match type_is "subscribe", truthy (locationId message) with
  | true, Some locId =>
      let vars := Build_Vars (Some locId) (sharingLocationId vars)
                    (subscribedFleetId vars) (sharingVehicleId vars) in
      let st := with_locationSubscribers
                  (subscribe_to locId ws (locationSubscribers st)) st in
      let st := emit [Log ("Viewer subscribed to location " +:+ locId) "websocket"] st in
      let '(location, s) := getLocation locId now (storage st) in
      let st := with_storage s st in
      match location with
      | Some location => (vars, emit [Send ws (MsgLocation location)] st)
      | None => (vars, st)
      end
  | _, _ =>
  match type_is "share", truthy (locationId message) with
  | true, Some locId =>
      let vars := Build_Vars (subscribedLocationId vars) (Some locId)
                    (subscribedFleetId vars) (sharingVehicleId vars) in
      let st := with_sharerConnections (<[locId := ws]> (sharerConnections st)) st in
      (vars, emit [Log ("Sharer started broadcasting location " +:+ locId) "websocket"] st)
  | _, _ =>
  match type_is "update", truthy (sharingLocationId vars) with
  | true, Some sharing =>
      match Schema.locationUpdateSchema (data message) with
      | None => (vars, st)
      | Some parsed =>
          let '(updated, s) := updateLocation sharing parsed now (storage st) in
          let st := with_storage s st in
          match updated with
          | None => (vars, st)
          | Some updated =>
              (vars, notify (locationSubscribers st !! sharing) (MsgLocation updated) st)
          end
      end
  | _, _ =>
  match type_is "stop", truthy (sharingLocationId vars) with
  | true, Some sharing =>
      let '(location, s) := getLocation sharing now (storage st) in
      let s :=
        match location with
        | Some location =>
            (updateLocation sharing
               (LocationUpdate.mk (Location.latitude location)
                                  (Location.longitude location)) now s).2
        | None => s
        end in
      let st := with_storage s st in
      let st := notify (locationSubscribers st !! sharing) MsgStopped st in
      let st := with_sharerConnections (delete sharing (sharerConnections st)) st in
      (Build_Vars (subscribedLocationId vars) None
         (subscribedFleetId vars) (sharingVehicleId vars), st)
  | _, _ =>
  match type_is "subscribeFleet", truthy (fleetId message) with
  | true, Some fleetId =>
      let vars := Build_Vars (subscribedLocationId vars) (sharingLocationId vars)
                    (Some fleetId) (sharingVehicleId vars) in
      let st := with_fleetSubscribers
                  (subscribe_to fleetId ws (fleetSubscribers st)) st in
      let st := emit [Log ("Viewer subscribed to fleet " +:+ fleetId) "websocket"] st in
      let '(vehicles, s) := getVehiclesByFleet fleetId now (storage st) in
      (vars, emit [Send ws (MsgVehicles vehicles)] (with_storage s st))
  | _, _ =>
  match type_is "shareVehicle", truthy (vehicleId message) with
  | true, Some vehicleId =>
      let vars := Build_Vars (subscribedLocationId vars) (sharingLocationId vars)
                    (subscribedFleetId vars) (Some vehicleId) in
      let st := with_vehicleSharerConnections
                  (<[vehicleId := ws]> (vehicleSharerConnections st)) st in
      let st := with_storage
                  (updateVehicleLiveStatus vehicleId true now (storage st)).2 st in
      (vars, emit [Log ("Vehicle " +:+ vehicleId +:+ " started sharing") "websocket"] st)
  | _, _ =>
  match type_is "updateVehicle", truthy (sharingVehicleId vars) with
  | true, Some sharing =>
      match Schema.vehicleUpdateSchema (data message) with
      | None => (vars, st)
      | Some parsed =>
          let '(updated, s) := updateVehicle sharing parsed now (storage st) in
          let st := with_storage s st in
          match updated with
          | None => (vars, st)
          | Some updated =>
              (vars, notify (fleetSubscribers st !! Vehicle.fleetId updated)
                            (MsgVehicleUpdate updated) st)
          end
      end
  | _, _ =>
  match type_is "stopVehicle", truthy (sharingVehicleId vars) with
  | true, Some sharing =>
      let st :=
        match getVehicle sharing (storage st) with
        | Some vehicle =>
            let st := with_storage
                        (updateVehicleLiveStatus sharing false now (storage st)).2 st in
            notify (fleetSubscribers st !! Vehicle.fleetId vehicle)
                   (MsgVehicleStopped sharing) st
        | None => st
        end in
      let st := with_vehicleSharerConnections
                  (delete sharing (vehicleSharerConnections st)) st in
      (Build_Vars (subscribedLocationId vars) (sharingLocationId vars)
         (subscribedFleetId vars) None, st)
  | _, _ => (vars, st)
  end end end end end end end end.

(** [ws.on("close", ...)], its four blocks in order. *)
Definition close_subscriber (ws : conn) (vars : Vars) (st : Server) : Server :=
  match truthy (subscribedLocationId vars) with
  | Some subscribed =>
      with_locationSubscribers
        (unsubscribe_from subscribed ws (locationSubscribers st)) st
  | None => st
  end.

Definition close_sharer (ws : conn) (vars : Vars) (st : Server) : Server :=
  match truthy (sharingLocationId vars) with
  | Some sharing =>
      let st := with_sharerConnections (delete sharing (sharerConnections st)) st in
      let st := notify (locationSubscribers st !! sharing) MsgStopped st in
      emit [Log ("Sharer disconnected from location " +:+ sharing) "websocket"] st
  | None => st
  end.

Definition close_fleet_subscriber (ws : conn) (vars : Vars) (st : Server) : Server :=
  match truthy (subscribedFleetId vars) with
  | Some subscribed =>
      with_fleetSubscribers
        (unsubscribe_from subscribed ws (fleetSubscribers st)) st
  | None => st
  end.

Definition close_vehicle_sharer (ws : conn) (now : Z) (vars : Vars) (st : Server)
  : Server :=
  match truthy (sharingVehicleId vars) with
  | Some sharing =>
      let st :=
        match getVehicle sharing (storage st) with
        | Some vehicle =>
            let st := with_storage
                        (updateVehicleLiveStatus sharing false now (storage st)).2 st in
            notify (fleetSubscribers st !! Vehicle.fleetId vehicle)
                   (MsgVehicleStopped sharing) st
        | None => st
        end in
      let st := with_vehicleSharerConnections
                  (delete sharing (vehicleSharerConnections st)) st in
      emit [Log ("Vehicle " +:+ sharing +:+ " disconnected") "websocket"] st
  | None => st
  end.

Definition on_close (ws : conn) (now : Z) (vars : Vars) (st : Server) : Server :=
  close_vehicle_sharer ws now vars
    (close_fleet_subscriber ws vars
       (close_sharer ws vars
          (close_subscriber ws vars st))).

(** *** The request/response routes *)

Record Response := {
  status : nat;
  body : jsval;
}.

Definition optional {A} (f : A → jsval) (o : option A) : jsval :=
  match o with
  | Some a => f a
  | None => JUndefined
  end.

(** The own properties of the records, as [res.json] serialises them (a
    property that is [undefined] is left out by [JSON.stringify]). *)
Definition Location_fields (l : Location.t) : list (string * jsval) :=
  [ ("id", JStr (Location.id l));
    ("latitude", JNum (Location.latitude l));
    ("longitude", JNum (Location.longitude l));
    ("name", optional JStr (Location.name l));
    ("createdAt", JIso (Location.createdAt l));
    ("expiresAt", optional JIso (Location.expiresAt l));
    ("isLive", optional JBool (Location.isLive l));
    ("lastUpdated", optional JIso (Location.lastUpdated l)) ].

Definition Fleet_fields (f : Fleet.t) : list (string * jsval) :=
  [ ("id", JStr (Fleet.id f));
    ("name", JStr (Fleet.name f));
    ("createdAt", JIso (Fleet.createdAt f));
    ("expiresAt", JIso (Fleet.expiresAt f));
    ("adminCode", JStr (Fleet.adminCode f)) ].

Definition Vehicle_fields (v : Vehicle.t) : list (string * jsval) :=
  [ ("id", JStr (Vehicle.id v));
    ("fleetId", JStr (Vehicle.fleetId v));
    ("name", JStr (Vehicle.name v));
    ("color", JStr (Vehicle.color v));
    ("shareCode", JStr (Vehicle.shareCode v));
    ("isLive", JBool (Vehicle.isLive v));
    ("latitude", optional JNum (Vehicle.latitude v));
    ("longitude", optional JNum (Vehicle.longitude v));
    ("lastUpdated", optional JIso (Vehicle.lastUpdated v)) ].

(** [const { k, ...rest } = obj] *)
Definition rest_without (k : string) (fields : list (string * jsval))
  : list (string * jsval) :=
  filter (λ kv, kv.1 ≠ k) fields.

(** [res.status(code).json({ error })] *)
Definition error (code : nat) (text : string) : Response :=
  {| status := code; body := JObj [("error", JStr text)] |}.

(** A routed request; a [POST] carries the body with its properties typed
    and the identifiers [nanoid] draws for it. *)
Inductive Request :=
  | PostLocation (body : InsertLocation.t) (id : string)
  | GetLocation (id : string)
  | DeleteLocation (id : string)
  | PostFleet (body : InsertFleet.t) (id adminCode : string)
  | GetFleet (id : string)
  | GetFleetAdmin (adminCode : string)
  | PostVehicle (body : InsertVehicle.t) (id shareCode : string)
  | GetFleetVehicles (fleetId : string)
  | GetVehicle (id : string)
  | DeleteVehicle (id : string)
  | GetVehicleShare (shareCode : string).

(** [app.get("/api/fleets/:id", ...)] *)
Definition get_fleet (id : string) (now : Z) (s : MemStorage)
  : Response * MemStorage :=
  match getFleet id now s with
  | (None, s1) => (error 404 "Fleet not found or expired", s1)
  | (Some fleet, s1) =>
      let publicFleet := rest_without "adminCode" (Fleet_fields fleet) in
      ({| status := 200; body := JObj publicFleet |}, s1)
  end.

(** [app.post("/api/vehicles", ...)] *)
Definition post_vehicle (body : InsertVehicle.t) (id shareCode : string)
    (now : Z) (s : MemStorage) : Response * MemStorage :=
  if Schema.insertVehicleSchema body then
    match getFleet (InsertVehicle.fleetId body) now s with
    | (None, s1) => (error 404 "Fleet not found", s1)
    | (Some _, s1) =>
        let '(vehicle, s2) := createVehicle id shareCode now body s1 in
        ({| status := 201; body := JObj (Vehicle_fields vehicle) |}, s2)
    end
  else (error 400 "Invalid vehicle data", s).

Definition handle (req : Request) (now : Z) (s : MemStorage)
  : Response * MemStorage :=
  match req with
  | PostLocation body id =>
      if Schema.insertLocationSchema body then
        let '(location, s1) := createLocation id now body s in
        ({| status := 201; body := JObj (Location_fields location) |}, s1)
      else (error 400 "Invalid location data", s)
  | GetLocation id =>
      match getLocation id now s with
      | (None, s1) => (error 404 "Location not found or expired", s1)
      | (Some location, s1) =>
          ({| status := 200; body := JObj (Location_fields location) |}, s1)
      end
  | DeleteLocation id =>
      match deleteLocation id s with
      | (false, s1) => (error 404 "Location not found", s1)
      | (true, s1) =>
          ({| status := 200; body := JObj [("success", JBool true)] |}, s1)
      end
  | PostFleet body id adminCode =>
      if Schema.insertFleetSchema body then
        let '(fleet, s1) := createFleet id adminCode now body s in
        ({| status := 201; body := JObj (Fleet_fields fleet) |}, s1)
      else (error 400 "Invalid fleet data", s)
  | GetFleet id => get_fleet id now s
  | GetFleetAdmin adminCode =>
      match getFleetByAdminCode adminCode now s with
      | None => (error 404 "Fleet not found or expired", s)
      | Some fleet => ({| status := 200; body := JObj (Fleet_fields fleet) |}, s)
      end
  | PostVehicle body id shareCode => post_vehicle body id shareCode now s
  | GetFleetVehicles fleetId =>
      match getFleet fleetId now s with
      | (None, s1) => (error 404 "Fleet not found or expired", s1)
      | (Some _, s1) =>
          let '(vehicles, s2) := getVehiclesByFleet fleetId now s1 in
          ({| status := 200;
              body := JArr (map (λ v, JObj (Vehicle_fields v)) vehicles) |}, s2)
      end
  | GetVehicle id =>
      match getVehicle id s with
      | None => (error 404 "Vehicle not found", s)
      | Some vehicle =>
          ({| status := 200; body := JObj (Vehicle_fields vehicle) |}, s)
      end
  | DeleteVehicle id =>
      match deleteVehicle id s with
      | (false, s1) => (error 404 "Vehicle not found", s1)
      | (true, s1) => ({| status := 204; body := JUndefined |}, s1)
      end
  | GetVehicleShare shareCode =>
      match getVehicleByShareCode shareCode s with
      | None => (error 404 "Vehicle not found", s)
      | Some vehicle =>
          match getFleet (Vehicle.fleetId vehicle) now s with
          | (None, s1) => (error 404 "Fleet expired", s1)
          | (Some fleet, s1) =>
              ({| status := 200;
                  body := JObj [ ("vehicle", JObj (Vehicle_fields vehicle));
                                 ("fleetName", JStr (Fleet.name fleet));
                                 ("fleetId", JStr (Fleet.id fleet)) ] |}, s1)
          end
      end
  end.

(** *** The server as a transition system *)

(** The server together with the closure of every connection whose handlers
    are installed. *)
Record System := {
  server : Server;
  closures : gmap conn Vars;
}.

Definition boot : System := {| server := initial; closures := ∅ |}.

Definition mark (ws : conn) (r : ReadyState) (st : Server) : Server :=
  with_readyState (λ c, if decide (c = ws) then r else readyState st c) st.

(** The events of the event loop.  [wss.on("connection")] installs the
    handlers of a new socket; a message reaches an installed handler; the
    transport of a socket starts closing; the [close] event fires once the
    socket is closed and is the last event of that socket; a request reaches a
    route. *)
Definition connection (ws : conn) (sys : System) : System :=
  {| server := mark ws OPEN (server sys);
     closures := <[ws := fresh_vars]> (closures sys) |}.

Definition deliver (ws : conn) (vars : Vars) (message : Message) (now : Z)
    (sys : System) : System :=
  let '(vars', st') := on_message ws message now vars (server sys) in
  {| server := st'; closures := <[ws := vars']> (closures sys) |}.

Definition closing (ws : conn) (sys : System) : System :=
  {| server := mark ws CLOSING (server sys); closures := closures sys |}.

Definition close (ws : conn) (vars : Vars) (now : Z) (sys : System) : System :=
  {| server := on_close ws now vars (mark ws CLOSED (server sys));
     closures := delete ws (closures sys) |}.

Definition request (req : Request) (now : Z) (sys : System) : System :=
  {| server := with_storage (handle req now (storage (server sys))).2 (server sys);
     closures := closures sys |}.

Inductive step : System → System → Prop :=
  | step_connection sys ws :
      closures sys !! ws = None →
      step sys (connection ws sys)
  | step_message sys ws vars message now :
      closures sys !! ws = Some vars →
      step sys (deliver ws vars message now sys)
  | step_closing sys ws vars :
      closures sys !! ws = Some vars →
      step sys (closing ws sys)
  | step_close sys ws vars now :
      closures sys !! ws = Some vars →
      step sys (close ws vars now sys)
  | step_request sys req now :
      step sys (request req now sys).

Inductive reachable : System → Prop :=
  | reachable_boot : reachable boot
  | reachable_step sys sys' : reachable sys → step sys sys' → reachable sys'.

End Routes.

(** ** client/src/lib/savedShares.ts *)

Module SavedShares.

(** [expiresAt] is a string; it is [Some t] when it is the ISO rendering of
    the instant [t], and [None] when [new Date(expiresAt)] is an invalid date,
    which compares false with every date. *)
Record SavedShare := {
  id : string;
  link : string;
  name : string;
  isLive : bool;
  createdAt : Z;
  expiresAt : option Z;
}.

(** What [localStorage] holds under [STORAGE_KEY]: nothing (or the empty
    string), a text on which [JSON.parse] or the code after it throws, or the
    JSON of an array of shares. *)
Inductive Item :=
  | Absent
  | Unreadable
  | Shares (shares : list SavedShare).

(** [new Date(share.expiresAt) > now] *)
Definition unexpired (now : Z) (share : SavedShare) : Prop :=
  match expiresAt share with
  | Some t => (now < t)%Z
  | None => False
  end.

#[global] Instance unexpired_dec now share : Decision (unexpired now share).
Proof. unfold unexpired. destruct (expiresAt share); apply _. Defined.

Definition getSavedShares (now : Z) (item : Item) : list SavedShare * Item :=
  match item with
  | Absent => ([], Absent)
  | Unreadable => ([], Unreadable)
  | Shares shares =>
      let validShares := filter (unexpired now) shares in
      (validShares,
       if decide (length validShares ≠ length shares)
       then Shares validShares else Shares shares)
  end.

Definition saveShare (share : SavedShare) (now : Z) (item : Item) : Item :=
  let shares := (getSavedShares now item).1 in
  match list_find (λ s, id s = id share) shares with
  | Some (existingIndex, _) => Shares (<[existingIndex := share]> shares)
  | None => Shares (shares ++ [share])
  end.

Definition removeShare (id' : string) (now : Z) (item : Item) : Item :=
  let shares := (getSavedShares now item).1 in
  Shares (filter (λ s, id s ≠ id') shares).

(** [share.isLive = isLive] on the element [find] returned, which is the
    element of the array that is then serialised. *)
Definition updateShareLiveStatus (id' : string) (isLive' : bool) (now : Z)
    (item : Item) : Item :=
  let '(shares, item1) := getSavedShares now item in
  match list_find (λ s, id s = id') shares with
  | Some (index, share) =>
      Shares (<[index := {| id := id share; link := link share;
                            name := name share; isLive := isLive';
                            createdAt := createdAt share;
                            expiresAt := expiresAt share |}]> shares)
  | None => item1
  end.

End SavedShares.

(** * Vocabulary of the statements *)

Import Storage.
Import Routes.

(** The vehicles of a fleet, in the order the store holds them. *)
Definition vehiclesOf (fleetId : string) (s : MemStorage) : list Vehicle.t :=
  filter (λ v, Vehicle.fleetId v = fleetId) (omap_values (vehicles s)).

(** The fleet with another admin secret. *)
Definition with_adminCode (adminCode : string) (f : Fleet.t) : Fleet.t :=
  Fleet.mk (Fleet.id f) (Fleet.name f) (Fleet.createdAt f) (Fleet.expiresAt f)
    adminCode.

(** What a handler has added to the output. *)
Definition emitted (before after : Server) : list effect :=
  drop (length (output before)) (output after).

(** The keys of each map of the store are pairwise distinct and every record
    is stored under its own id. *)
Definition store_wf (s : MemStorage) : Prop :=
  NoDup (locations s).*1 ∧ NoDup (fleets s).*1 ∧ NoDup (vehicles s).*1
  ∧ (∀ k l, (k, l) ∈ locations s → Location.id l = k)
  ∧ (∀ k f, (k, f) ∈ fleets s → Fleet.id f = k)
  ∧ (∀ k v, (k, v) ∈ vehicles s → Vehicle.id v = k).

(** Every subscriber set of a registry is non-empty and has no socket
    twice. *)
Definition sets_wf (registry : gmap string (list conn)) : Prop :=
  ∀ key subscribers,
    registry !! key = Some subscribers → subscribers ≠ [] ∧ NoDup subscribers.

(** Two states of the server that differ at most in the two publisher
    registries. *)
Definition agree_but_publishers (a b : Server) : Prop :=
  storage a = storage b
  ∧ locationSubscribers a = locationSubscribers b
  ∧ fleetSubscribers a = fleetSubscribers b
  ∧ readyState a = readyState b
  ∧ output a = output b.

(** A message the handler has no use for: its type is none of the eight the
    chain knows, or the id the branch of its type needs is missing, empty or
    not yet announced. *)
Definition unusable (message : Message) (vars : Vars) : Prop :=
  (type message ≠ "subscribe" ∧ type message ≠ "share"
   ∧ type message ≠ "update" ∧ type message ≠ "stop"
   ∧ type message ≠ "subscribeFleet" ∧ type message ≠ "shareVehicle"
   ∧ type message ≠ "updateVehicle" ∧ type message ≠ "stopVehicle")
  ∨ ((type message = "subscribe" ∨ type message = "share")
     ∧ truthy (locationId message) = None)
  ∨ ((type message = "update" ∨ type message = "stop")
     ∧ truthy (sharingLocationId vars) = None)
  ∨ (type message = "subscribeFleet" ∧ truthy (fleetId message) = None)
  ∨ (type message = "shareVehicle" ∧ truthy (vehicleId message) = None)
  ∨ ((type message = "updateVehicle" ∨ type message = "stopVehicle")
     ∧ truthy (sharingVehicleId vars) = None).

(** The shares an item of [localStorage] holds: those of the array, and none
    for an item that is absent or cannot be read. *)
Definition held (item : SavedShares.Item) : list SavedShares.SavedShare :=
  match item with
  | SavedShares.Shares shares => shares
  | _ => []
  end.

(** Two saved shares that differ at most in their live flag. *)
Definition same_but_live (a b : SavedShares.SavedShare) : Prop :=
  SavedShares.id a = SavedShares.id b
  ∧ SavedShares.link a = SavedShares.link b
  ∧ SavedShares.name a = SavedShares.name b
  ∧ SavedShares.createdAt a = SavedShares.createdAt b
  ∧ SavedShares.expiresAt a = SavedShares.expiresAt b.

(** One call of [createVehicle]: the identifiers [nanoid] draws for it, its
    reading of the clock and its argument. *)
Record Creation := {
  creation_id : string;
  creation_shareCode : string;
  creation_time : Z;
  creation_insert : InsertVehicle.t;
}.

(** [createVehicle] called once for each element, in order: the vehicles the
    calls return and the store they leave. *)
Fixpoint createVehicles (calls : list Creation) (s : MemStorage)
  : list Vehicle.t * MemStorage :=
  match calls with
  | [] => ([], s)
  | call :: rest =>
      let '(vehicle, s1) :=
        createVehicle (creation_id call) (creation_shareCode call)
          (creation_time call) (creation_insert call) s in
      let '(vehicles, s2) := createVehicles rest s1 in
      (vehicle :: vehicles, s2)
  end.

(** What a call must be for the palette to follow the creation order in the
    fleet: it names the fleet, supplies no color, and is made while the fleet
    has not expired. *)
Definition colorless_for (fleetId : string) (fleet : Fleet.t) (call : Creation)
  : Prop :=
  InsertVehicle.fleetId (creation_insert call) = fleetId
  ∧ InsertVehicle.color (creation_insert call) = None
  ∧ (creation_time call ≤ Fleet.expiresAt fleet)%Z.

(** ** Sample records and states *)

Definition sample_location (expiresAt : Z) : Location.t :=
  {| Location.id := "loc";
     Location.latitude := Finite 40 0;
     Location.longitude := Finite (-73) 0;
     Location.name := Some "home";
     Location.createdAt := 0;
     Location.expiresAt := Some expiresAt;
     Location.isLive := Some true;
     Location.lastUpdated := Some 0%Z |}.

Definition sample_fleet (id : string) (expiresAt : Z) : Fleet.t :=
  {| Fleet.id := id;
     Fleet.name := "Resort Buggies";
     Fleet.createdAt := 0;
     Fleet.expiresAt := expiresAt;
     Fleet.adminCode := "s3cr3t" |}.

Definition sample_vehicle (id fleetId : string) : Vehicle.t :=
  {| Vehicle.id := id;
     Vehicle.fleetId := fleetId;
     Vehicle.name := "Buggy";
     Vehicle.color := "#ef4444";
     Vehicle.shareCode := "share-" +:+ id;
     Vehicle.latitude := None;
     Vehicle.longitude := None;
     Vehicle.isLive := true;
     Vehicle.lastUpdated := None |}.

Definition sharing_state : Server :=
  {| storage := Storage.mk [("loc", sample_location 900000)] [] [];
     locationSubscribers := {["loc" := [2]]};
     sharerConnections := {["loc" := 1]};
     fleetSubscribers := ∅;
     vehicleSharerConnections := ∅;
     readyState := λ c, if decide (c = 1 ∨ c = 2) then OPEN else CLOSED;
     output := [] |}.

Definition sharing_vars : Vars := Build_Vars None (Some "loc") None None.

Definition vehicle_state : Server :=
  {| storage := Storage.mk [] [("flt", sample_fleet "flt" 900000)]
                  [("v1", sample_vehicle "v1" "flt")];
     locationSubscribers := ∅;
     sharerConnections := ∅;
     fleetSubscribers := {["flt" := [3]]};
     vehicleSharerConnections := {["v1" := 4]};
     readyState := λ c, if decide (c = 3 ∨ c = 4) then OPEN else CLOSED;
     output := [] |}.

Definition vehicle_vars : Vars := Build_Vars None None None (Some "v1").

Definition share_message (locId : string) : Message :=
  Build_Message "share" (Some locId) None None JUndefined.

Definition subscribe_message (locId : string) : Message :=
  Build_Message "subscribe" (Some locId) None None JUndefined.

Definition update_message (latitude longitude : jsval) : Message :=
  Build_Message "update" None None None
    (JObj [("latitude", latitude); ("longitude", longitude)]).

(** A live location "loc" is created for 15 minutes; sockets 1 and 2
    connect; socket 2 subscribes to "loc" and socket 1 announces that it
    shares it. *)
Definition live_share : System :=
  deliver 1 fresh_vars (share_message "loc") 3
    (deliver 2 fresh_vars (subscribe_message "loc") 2
       (connection 2
          (connection 1
             (request
                (PostLocation
                   (InsertLocation.mk (Finite 40 0) (Finite (-73) 0)
                      (Some "home") (Some true) (Some 15%Z)) "loc")
                1 boot)))).

(** Two sockets connect and the first announces that it shares "loc". *)
Definition one_sharer : System :=
  deliver 1 fresh_vars (share_message "loc") 5 (connection 2 (connection 1 boot)).

Definition sample_share (id : string) (expiresAt : Z) : SavedShares.SavedShare :=
  {| SavedShares.id := id;
     SavedShares.link := "/view/" +:+ id;
     SavedShares.name := "home";
     SavedShares.isLive := false;
     SavedShares.createdAt := 0;
     SavedShares.expiresAt := Some expiresAt |}.

Definition sample_item : SavedShares.Item :=
  SavedShares.Shares [sample_share "a" 10; sample_share "b" 100].

(** * Properties *)

(** ** The insertion-ordered map *)

Section OMapFacts.
Context {V : Type}.
Implicit Types (m : omap V) (k : string) (v : V).

Lemma omap_set_fresh k v m : omap_get k m = None → omap_set k v m = m ++ [(k, v)].
Proof.
  induction m as [|[k' v'] m IH]; simpl; [done|].
  case_bool_decide; [done|]. intros Hm. by rewrite IH.
Qed.

Lemma omap_get_set_eq k v m : omap_get k (omap_set k v m) = Some v.
Proof.
  induction m as [|[k' v'] m IH]; simpl.
  - by rewrite bool_decide_eq_true_2.
  - destruct (bool_decide (k' = k)) eqn:E; simpl.
    + by rewrite bool_decide_eq_true_2.
    + by rewrite E.
Qed.

Lemma omap_get_set_ne k k' v m :
  k ≠ k' → omap_get k' (omap_set k v m) = omap_get k' m.
Proof.
  intros Hne. induction m as [|[k0 v0] m IH]; simpl.
  - by rewrite bool_decide_eq_false_2.
  - destruct (bool_decide (k0 = k)) eqn:E; simpl.
    + apply bool_decide_eq_true_1 in E as ->.
      by rewrite !bool_decide_eq_false_2.
    + by rewrite IH.
Qed.

Lemma omap_get_delete_eq k m : omap_get k (omap_delete k m) = None.
Proof.
  unfold omap_delete. induction m as [|[k' v'] m IH]; [done|].
  rewrite filter_cons. simpl. case_decide as Hk; simpl; [|done].
  by rewrite bool_decide_eq_false_2.
Qed.

Lemma omap_get_delete_ne k k' m :
  k ≠ k' → omap_get k' (omap_delete k m) = omap_get k' m.
Proof.
  intros Hne. unfold omap_delete. induction m as [|[k0 v0] m IH]; [done|].
  rewrite filter_cons. simpl. case_decide as Hk; simpl.
  - by rewrite IH.
  - rewrite IH. subst k0. by rewrite bool_decide_eq_false_2.
Qed.

Lemma omap_get_None_delete k m : omap_get k m = None → omap_delete k m = m.
Proof.
  unfold omap_delete. induction m as [|[k' v'] m IH]; [done|].
  rewrite filter_cons. simpl.
  destruct (bool_decide (k' = k)) eqn:E; [done|].
  apply bool_decide_eq_false_1 in E. intros Hm.
  rewrite decide_True by done. by rewrite IH.
Qed.

Lemma omap_get_Some_elem k v m : omap_get k m = Some v → (k, v) ∈ m.
Proof.
  induction m as [|[k' v'] m IH]; [done|]. simpl.
  destruct (bool_decide (k' = k)) eqn:E.
  - apply bool_decide_eq_true_1 in E as ->. intros [= ->]. left.
  - intros Hm. right. by apply IH.
Qed.
Lemma omap_get_delete_Some k k' m v :
  omap_get k (omap_delete k' m) = Some v → omap_get k m = Some v.
Proof.
  destruct (decide (k' = k)) as [->|Hne].
  - by rewrite omap_get_delete_eq.
  - by rewrite omap_get_delete_ne.
Qed.

End OMapFacts.

(** ** The store *)

Lemma getLocation_absent id now s :
  omap_get id (locations s) = None → getLocation id now s = (None, s).
Proof. intros H. unfold getLocation. by rewrite H. Qed.

Lemma getLocation_expired id now s location expiresAt :
  omap_get id (locations s) = Some location →
  Location.expiresAt location = Some expiresAt →
  (expiresAt < now)%Z →
  getLocation id now s = (None, set_locations (omap_delete id (locations s)) s).
Proof.
  intros Hget He Hlt. unfold getLocation. rewrite Hget, He.
  by rewrite bool_decide_eq_true_2.
Qed.

Lemma getLocation_live id now s location :
  omap_get id (locations s) = Some location →
  (∀ expiresAt, Location.expiresAt location = Some expiresAt → (now ≤ expiresAt)%Z) →
  getLocation id now s = (Some location, s).
Proof.
  intros Hget Hlive. unfold getLocation. rewrite Hget.
  destruct (Location.expiresAt location) as [e|] eqn:He; [|done].
  rewrite bool_decide_eq_false_2; [done|]. specialize (Hlive e eq_refl). lia.
Qed.

Lemma getFleet_absent id now s :
  omap_get id (fleets s) = None → getFleet id now s = (None, s).
Proof. intros H. unfold getFleet. by rewrite H. Qed.

Lemma getFleet_expired id now s fleet :
  omap_get id (fleets s) = Some fleet →
  (Fleet.expiresAt fleet < now)%Z →
  getFleet id now s =
    (None, Storage.mk (locations s) (omap_delete id (fleets s))
                      (deleteVehiclesOf id (vehicles s))).
Proof.
  intros Hget Hlt. unfold getFleet. rewrite Hget.
  by rewrite bool_decide_eq_true_2.
Qed.

Lemma getFleet_live id now s fleet :
  omap_get id (fleets s) = Some fleet →
  (now ≤ Fleet.expiresAt fleet)%Z →
  getFleet id now s = (Some fleet, s).
Proof.
  intros Hget Hle. unfold getFleet. rewrite Hget.
  rewrite bool_decide_eq_false_2; [done|lia].
Qed.

Lemma getFleet_Some id now s fleet s' :
  getFleet id now s = (Some fleet, s') →
  omap_get id (fleets s) = Some fleet ∧ (now ≤ Fleet.expiresAt fleet)%Z ∧ s' = s.
Proof.
  unfold getFleet. destruct (omap_get id (fleets s)) as [f|]; [|done].
  case_bool_decide; [done|]. intros [= -> ->]. split; [done|]. split; [lia|done].
Qed.

(** C2: a [get] at a time past the expiry timestamp of the record answers
    not-found and takes the record out of the store, and every later [get] of
    the same key, at any time, answers not-found and changes nothing. This
    holds for [getLocation] and for [getFleet]. *)
Theorem get_past_expiry_purges (s : MemStorage) (id : string) (t : Z) :
  (∀ location expiresAt,
     omap_get id (locations s) = Some location →
     Location.expiresAt location = Some expiresAt →
     (expiresAt < t)%Z →
     let s' := (getLocation id t s).2 in
     (getLocation id t s).1 = None
     ∧ omap_get id (locations s') = None
     ∧ ∀ t', getLocation id t' s' = (None, s'))
  ∧ (∀ fleet,
     omap_get id (fleets s) = Some fleet →
     (Fleet.expiresAt fleet < t)%Z →
     let s' := (getFleet id t s).2 in
     (getFleet id t s).1 = None
     ∧ omap_get id (fleets s') = None
     ∧ ∀ t', getFleet id t' s' = (None, s')).
Proof.
  split.
  - intros location expiresAt Hget He Hlt.
    rewrite (getLocation_expired _ _ _ _ _ Hget He Hlt). simpl.
    split; [done|]. split; [apply omap_get_delete_eq|].
    intros t'. apply getLocation_absent. simpl. apply omap_get_delete_eq.
  - intros fleet Hget Hlt.
    rewrite (getFleet_expired _ _ _ _ Hget Hlt). simpl.
    split; [done|]. split; [apply omap_get_delete_eq|].
    intros t'. apply getFleet_absent. simpl. apply omap_get_delete_eq.
Qed.

Lemma get_past_expiry_purges_witness :
  let s := Storage.mk [("loc", sample_location 900000)]
                      [("loc", sample_fleet "loc" 900000)] [] in
  ((getLocation "loc" 900001 s).1 = None
   ∧ omap_get "loc" (locations (getLocation "loc" 900001 s).2) = None
   ∧ ∀ t', getLocation "loc" t' (getLocation "loc" 900001 s).2
           = (None, (getLocation "loc" 900001 s).2))
  ∧ ((getFleet "loc" 900001 s).1 = None
   ∧ omap_get "loc" (fleets (getFleet "loc" 900001 s).2) = None
   ∧ ∀ t', getFleet "loc" t' (getFleet "loc" 900001 s).2
           = (None, (getFleet "loc" 900001 s).2)).
Proof.
  intros s. destruct (get_past_expiry_purges s "loc" 900001) as [Hl Hf]. split.
  - apply (Hl (sample_location 900000) 900000%Z); [reflexivity|reflexivity|lia].
  - apply (Hf (sample_fleet "loc" 900000)); [reflexivity|simpl; lia].
Defined.

(** C7: [updateLocation] answers not-found when the record is absent (the
    store is then untouched) or past its expiry (the store then only loses
    that record); otherwise the stored record has the latitude and longitude
    of the update and the current time as last-update timestamp, its id, name,
    creation timestamp, expiry timestamp and live flag are the old ones, and
    no other record of the store changes. *)
Theorem updateLocation_frame (s : MemStorage) (id : string)
    (update : LocationUpdate.t) (now : Z) :
  (omap_get id (locations s) = None →
     updateLocation id update now s = (None, s))
  ∧ (∀ location expiresAt,
       omap_get id (locations s) = Some location →
       Location.expiresAt location = Some expiresAt →
       (expiresAt < now)%Z →
       updateLocation id update now s
       = (None, set_locations (omap_delete id (locations s)) s))
  ∧ (∀ location,
       omap_get id (locations s) = Some location →
       (∀ expiresAt, Location.expiresAt location = Some expiresAt →
                     (now ≤ expiresAt)%Z) →
       ∃ updated s',
         updateLocation id update now s = (Some updated, s')
         ∧ Location.latitude updated = LocationUpdate.latitude update
         ∧ Location.longitude updated = LocationUpdate.longitude update
         ∧ Location.lastUpdated updated = Some now
         ∧ Location.id updated = Location.id location
         ∧ Location.name updated = Location.name location
         ∧ Location.createdAt updated = Location.createdAt location
         ∧ Location.expiresAt updated = Location.expiresAt location
         ∧ Location.isLive updated = Location.isLive location
         ∧ omap_get id (locations s') = Some updated
         ∧ (∀ id', id ≠ id' →
              omap_get id' (locations s') = omap_get id' (locations s))
         ∧ fleets s' = fleets s
         ∧ vehicles s' = vehicles s).
Proof.
  repeat split.
  - intros Hget. unfold updateLocation. by rewrite getLocation_absent.
  - intros location expiresAt Hget He Hlt. unfold updateLocation.
    by rewrite (getLocation_expired _ _ _ _ _ Hget He Hlt).
  - intros location Hget Hlive. unfold updateLocation.
    rewrite (getLocation_live _ _ _ _ Hget Hlive).
    eexists _, _. split; [reflexivity|]. simpl.
    repeat split; try done.
    + apply omap_get_set_eq.
    + intros id' Hne. by apply omap_get_set_ne.
Qed.

Lemma updateLocation_frame_witness :
  let s := Storage.mk [("loc", sample_location 900000)] [] [] in
  let update := LocationUpdate.mk (Finite 41 0) (Finite (-74) 0) in
  updateLocation "gone" update 5 s = (None, s)
  ∧ updateLocation "loc" update 900001 s = (None, Storage.mk [] [] [])
  ∧ ∃ updated s',
      updateLocation "loc" update 5 s = (Some updated, s')
      ∧ Location.latitude updated = Finite 41 0
      ∧ Location.lastUpdated updated = Some 5%Z
      ∧ Location.isLive updated = Some true.
Proof.
  intros s update.
  destruct (updateLocation_frame s "gone" update 5) as (Habsent & _ & _).
  destruct (updateLocation_frame s "loc" update 900001) as (_ & Hexpired & _).
  destruct (updateLocation_frame s "loc" update 5) as (_ & _ & Hlive).
  split; [apply Habsent; reflexivity|].
  split; [apply (Hexpired (sample_location 900000) 900000%Z);
            [reflexivity|reflexivity|lia]|].
  destruct (Hlive (sample_location 900000)) as (updated & s' & Hrun & Hlat & _ & Hupd & _ & _ & _ & _ & Hflag & _).
  - reflexivity.
  - intros expiresAt [= <-]. lia.
  - exists updated, s'. repeat split; assumption.
Defined.

Lemma insertLocationSchema_minutes insert :
  Schema.insertLocationSchema insert = true →
  or_default (InsertLocation.expiresInMinutes insert) 1440
  = default 1440%Z (InsertLocation.expiresInMinutes insert)
  ∧ (1 ≤ default 1440 (InsertLocation.expiresInMinutes insert) ≤ 1440)%Z.
Proof.
  unfold Schema.insertLocationSchema, or_default.
  destruct (InsertLocation.expiresInMinutes insert) as [m|]; simpl.
  - intros Hok.
    assert (Hm : (1 ≤ m ≤ 1440)%Z).
    { repeat case_match; try done;
        apply andb_prop in Hok as [?%bool_decide_eq_true ?%bool_decide_eq_true];
        lia. }
    rewrite bool_decide_eq_false_2 by lia. done.
  - intros _. split; [done|lia].
Qed.

(** C10: [createLocation] is called by [POST /api/locations] only, with the
    data [insertLocationSchema] has accepted; a body the schema rejects is
    answered 400 and creates nothing.  On accepted data the record it returns
    and stores always has an expiry timestamp: creation time plus
    [expiresInMinutes] minutes when that is supplied (then between 1 and
    1440), creation time plus 1440 minutes when it is omitted; the live flag
    is the supplied one and [false] when omitted; the last-update timestamp
    and the creation timestamp are the current time; and the record is the
    body of the 201 answer. *)
Theorem createLocation_expiry (s : MemStorage) (id : string) (now : Z)
    (insertLocation : InsertLocation.t) :
  (Schema.insertLocationSchema insertLocation = true →
   let location := (createLocation id now insertLocation s).1 in
   let s' := (createLocation id now insertLocation s).2 in
   (∀ minutes,
      InsertLocation.expiresInMinutes insertLocation = Some minutes →
      (1 ≤ minutes ≤ 1440)%Z
      ∧ Location.expiresAt location = Some (now + minutes * 60 * 1000)%Z)
   ∧ (InsertLocation.expiresInMinutes insertLocation = None →
      Location.expiresAt location = Some (now + 1440 * 60 * 1000)%Z)
   ∧ is_Some (Location.expiresAt location)
   ∧ (InsertLocation.isLive insertLocation = None →
      Location.isLive location = Some false)
   ∧ (∀ live, InsertLocation.isLive insertLocation = Some live →
      Location.isLive location = Some live)
   ∧ Location.createdAt location = now
   ∧ Location.lastUpdated location = Some (Location.createdAt location)
   ∧ omap_get id (locations s') = Some location
   ∧ handle (PostLocation insertLocation id) now s
     = ({| status := 201; body := JObj (Location_fields location) |}, s'))
  ∧ (Schema.insertLocationSchema insertLocation = false →
     handle (PostLocation insertLocation id) now s
     = (error 400 "Invalid location data", s)).
Proof.
  split.
  - intros Hok location s'. subst location s'.
    destruct (insertLocationSchema_minutes insertLocation Hok) as [Hmin Hrange].
    unfold handle. rewrite Hok. unfold createLocation. rewrite Hmin.
    cbn [fst snd Location.expiresAt Location.isLive Location.createdAt
         Location.lastUpdated locations set_locations].
    split_and!.
    + intros minutes Hm. rewrite Hm in Hrange |- *. done.
    + by intros ->.
    + by eexists.
    + by intros ->.
    + by intros live ->.
    + done.
    + done.
    + apply omap_get_set_eq.
    + done.
  - intros Hno. unfold handle. by rewrite Hno.
Qed.

Lemma createLocation_expiry_witness :
  let insertLocation :=
    InsertLocation.mk (Finite 40 0) (Finite (-73) 0) None None (Some 15%Z) in
  let omitted :=
    InsertLocation.mk (Finite 40 0) (Finite (-73) 0) None None None in
  Location.expiresAt (createLocation "loc" 1000 insertLocation Storage.empty).1
  = Some (1000 + 15 * 60 * 1000)%Z
  ∧ Location.expiresAt (createLocation "loc" 1000 omitted Storage.empty).1
    = Some (1000 + 1440 * 60 * 1000)%Z
  ∧ Location.isLive (createLocation "loc" 1000 omitted Storage.empty).1
    = Some false
  ∧ status (handle (PostLocation insertLocation "loc") 1000 Storage.empty).1 = 201.
Proof.
  intros insertLocation omitted.
  destruct (createLocation_expiry Storage.empty "loc" 1000 insertLocation)
    as [Hsupplied _].
  destruct (createLocation_expiry Storage.empty "loc" 1000 omitted)
    as [Homitted _].
  destruct (Hsupplied eq_refl) as (Hminutes & _ & _ & _ & _ & _ & _ & _ & Hpost).
  destruct (Homitted eq_refl) as (_ & Hdefault & _ & Hlive & _).
  split; [by apply (Hminutes 15%Z)|].
  split; [by apply Hdefault|].
  split; [by apply Hlive|].
  by rewrite Hpost.
Defined.

(** ** Fleets and their vehicles *)

Lemma push_loop_filter (fleetId : string) (l acc : list Vehicle.t) :
  foldl (λ vehicles vehicle,
           if bool_decide (Vehicle.fleetId vehicle = fleetId)
           then vehicles ++ [vehicle] else vehicles) acc l
  = acc ++ filter (λ v, Vehicle.fleetId v = fleetId) l.
Proof.
  revert acc. induction l as [|v l IH]; intros acc; simpl.
  - by rewrite app_nil_r.
  - rewrite IH, filter_cons. case_bool_decide; case_decide; try done.
    by rewrite <- app_assoc.
Qed.

Lemma getVehiclesByFleet_live fleetId now s fleet :
  omap_get fleetId (fleets s) = Some fleet →
  (now ≤ Fleet.expiresAt fleet)%Z →
  getVehiclesByFleet fleetId now s = (vehiclesOf fleetId s, s).
Proof.
  intros Hget Hle. unfold getVehiclesByFleet.
  rewrite (getFleet_live _ _ _ _ Hget Hle).
  by rewrite push_loop_filter.
Qed.

Section Cascade.
Variable id : string.

Lemma cascade_only_deletes entries acc k v :
  omap_get k (foldl (cascade_step id) acc entries) = Some v →
  omap_get k acc = Some v.
Proof.
  revert acc. induction entries as [|[k' v'] entries IH]; intros acc; [done|].
  simpl. intros H. apply IH in H. unfold cascade_step in H. simpl in H.
  case_bool_decide; [|done]. by eapply omap_get_delete_Some.
Qed.

Lemma cascade_deletes_member entries acc k v :
  (k, v) ∈ entries → Vehicle.fleetId v = id →
  omap_get k (foldl (cascade_step id) acc entries) = None.
Proof.
  revert acc. induction entries as [|[k' v'] entries IH]; intros acc Hin Hf.
  - by apply elem_of_nil in Hin.
  - apply elem_of_cons in Hin as [[= <- <-]|Hin]; [|by apply IH].
    simpl. unfold cascade_step at 2. simpl. rewrite bool_decide_eq_true_2 by done.
    destruct (omap_get k (foldl (cascade_step id) (omap_delete k acc) entries))
      as [w|] eqn:E; [|done].
    apply cascade_only_deletes in E. by rewrite omap_get_delete_eq in E.
Qed.

Lemma cascade_keeps_others entries acc k :
  (∀ v, (k, v) ∈ entries → Vehicle.fleetId v ≠ id) →
  omap_get k (foldl (cascade_step id) acc entries) = omap_get k acc.
Proof.
  revert acc. induction entries as [|[k' v'] entries IH]; intros acc Hall; [done|].
  simpl. rewrite IH.
  - unfold cascade_step. simpl. case_bool_decide as Hf; [|done].
    apply omap_get_delete_ne. intros ->. by apply (Hall v'); [left|].
  - intros v Hin. apply Hall. by right.
Qed.

Lemma cascade_survivors entries acc k v :
  (k, v) ∈ foldl (cascade_step id) acc entries →
  (k, v) ∈ acc ∧ ∀ v', (k, v') ∈ entries → Vehicle.fleetId v' ≠ id.
Proof.
  revert acc. induction entries as [|[k' v'] entries IH]; intros acc Hin.
  - split; [done|]. by intros v' ?%elem_of_nil.
  - simpl in Hin. apply IH in Hin as [Hin Hrest].
    unfold cascade_step in Hin. simpl in Hin. case_bool_decide as Hf.
    + apply list_elem_of_filter in Hin as [Hne Hin]. simpl in Hne.
      split; [done|]. intros v0 [[= ? ?]|?]%elem_of_cons; [done|by apply Hrest].
    + split; [done|].
      intros v0 [[= ? ->]|?]%elem_of_cons; [done|by apply Hrest].
Qed.

Lemma deleteVehiclesOf_member vs k v :
  omap_get k vs = Some v → Vehicle.fleetId v = id →
  omap_get k (deleteVehiclesOf id vs) = None.
Proof.
  intros Hget Hf. unfold deleteVehiclesOf.
  eapply (cascade_deletes_member _ _ k v); [|done].
  by apply omap_get_Some_elem.
Qed.

Lemma deleteVehiclesOf_none_left vs k v :
  omap_get k (deleteVehiclesOf id vs) = Some v → Vehicle.fleetId v ≠ id.
Proof.
  intros Hget Hf. pose proof Hget as Hget'.
  apply cascade_only_deletes in Hget'.
  by rewrite (deleteVehiclesOf_member vs k v) in Hget.
Qed.

Lemma deleteVehiclesOf_others vs k :
  (∀ v, (k, v) ∈ vs → Vehicle.fleetId v ≠ id) →
  omap_get k (deleteVehiclesOf id vs) = omap_get k vs.
Proof. intros H. by apply cascade_keeps_others. Qed.

End Cascade.

Lemma palette_lookup (n : nat) :
  VEHICLE_COLORS !! (n `mod` length VEHICLE_COLORS)
  = Some (default EmptyString (VEHICLE_COLORS !! (n `mod` length VEHICLE_COLORS))).
Proof.
  assert (Hlt : n `mod` length VEHICLE_COLORS < length VEHICLE_COLORS)
    by (apply Nat.mod_upper_bound; done).
  apply lookup_lt_is_Some_2 in Hlt as [c Hc]. by rewrite Hc.
Qed.

Lemma vehiclesOf_purged id s :
  vehiclesOf id (Storage.mk (locations s) (omap_delete id (fleets s))
                            (deleteVehiclesOf id (vehicles s))) = [].
Proof.
  unfold vehiclesOf. simpl.
  destruct (filter _ _) as [|v l] eqn:E; [done|].
  assert (Hv : v ∈ filter (λ v, Vehicle.fleetId v = id)
                     (omap_values (deleteVehiclesOf id (vehicles s))))
    by (rewrite E; left).
  apply list_elem_of_filter in Hv as [Hf Hv].
  apply list_elem_of_fmap in Hv as ([k v'] & -> & Hin).
  apply cascade_survivors in Hin as [Hin Hall].
  by destruct (Hall v' Hin).
Qed.

Lemma vehiclesOf_set_fresh fleetId s id vehicle :
  omap_get id (vehicles s) = None →
  vehiclesOf fleetId (set_vehicles (omap_set id vehicle (vehicles s)) s)
  = vehiclesOf fleetId s
    ++ (if decide (Vehicle.fleetId vehicle = fleetId) then [vehicle] else []).
Proof.
  intros Hfresh. unfold vehiclesOf, omap_values. simpl.
  rewrite (omap_set_fresh _ _ _ Hfresh), fmap_app, filter_app. f_equal.
Qed.

Lemma createVehicle_present s id shareCode now insertVehicle fleet :
  omap_get (InsertVehicle.fleetId insertVehicle) (fleets s) = Some fleet →
  InsertVehicle.color insertVehicle = None →
  let checked := (getFleet (InsertVehicle.fleetId insertVehicle) now s).2 in
  ∃ vehicle,
    createVehicle id shareCode now insertVehicle s
    = (vehicle, set_vehicles (omap_set id vehicle (vehicles checked)) checked)
    ∧ VEHICLE_COLORS
      !! (length (vehiclesOf (InsertVehicle.fleetId insertVehicle) checked) `mod` 8)
      = Some (Vehicle.color vehicle).
Proof.
  intros Hget Hcolor checked. subst checked. unfold createVehicle.
  destruct (decide (Fleet.expiresAt fleet < now)%Z) as [Hlt|Hle].
  - unfold getVehiclesByFleet. rewrite (getFleet_expired _ _ _ _ Hget Hlt), Hcolor.
    eexists. split; [reflexivity|].
    cbn -[Nat.modulo VEHICLE_COLORS lookup length vehiclesOf].
    rewrite vehiclesOf_purged. apply (palette_lookup 0).
  - assert (Hle' : (now ≤ Fleet.expiresAt fleet)%Z) by lia.
    rewrite (getVehiclesByFleet_live _ _ _ _ Hget Hle'), Hcolor.
    rewrite (getFleet_live _ _ _ _ Hget Hle').
    eexists. split; [reflexivity|].
    cbn -[Nat.modulo VEHICLE_COLORS lookup length]. apply palette_lookup.
Qed.

Lemma createVehicle_live s id shareCode now insertVehicle fleet :
  omap_get (InsertVehicle.fleetId insertVehicle) (fleets s) = Some fleet →
  InsertVehicle.color insertVehicle = None →
  (now ≤ Fleet.expiresAt fleet)%Z →
  ∃ vehicle,
    createVehicle id shareCode now insertVehicle s
    = (vehicle, set_vehicles (omap_set id vehicle (vehicles s)) s)
    ∧ Vehicle.id vehicle = id
    ∧ Vehicle.fleetId vehicle = InsertVehicle.fleetId insertVehicle
    ∧ VEHICLE_COLORS
      !! (length (vehiclesOf (InsertVehicle.fleetId insertVehicle) s) `mod` 8)
      = Some (Vehicle.color vehicle).
Proof.
  intros Hget Hcolor Hle.
  destruct (createVehicle_present s id shareCode now insertVehicle fleet Hget Hcolor)
    as (vehicle & Hrun & Hpal).
  rewrite (getFleet_live _ _ _ _ Hget Hle) in Hrun, Hpal. cbn [snd] in Hrun, Hpal.
  exists vehicle. split; [done|]. split_and!; [| |done].
  - unfold createVehicle in Hrun.
    rewrite (getVehiclesByFleet_live _ _ _ _ Hget Hle) in Hrun.
    by injection Hrun as <- _.
  - unfold createVehicle in Hrun.
    rewrite (getVehiclesByFleet_live _ _ _ _ Hget Hle) in Hrun.
    by injection Hrun as <- _.
Qed.

Lemma createVehicles_in_order fleetId fleet calls s :
  omap_get fleetId (fleets s) = Some fleet →
  Forall (colorless_for fleetId fleet) calls →
  NoDup (creation_id <$> calls) →
  (∀ call, call ∈ calls → omap_get (creation_id call) (vehicles s) = None) →
  let created := (createVehicles calls s).1 in
  let s' := (createVehicles calls s).2 in
  length created = length calls
  ∧ fleets s' = fleets s
  ∧ vehiclesOf fleetId s' = vehiclesOf fleetId s ++ created
  ∧ (∀ k vehicle,
       created !! k = Some vehicle →
       VEHICLE_COLORS !! ((length (vehiclesOf fleetId s) + k) `mod` 8)
       = Some (Vehicle.color vehicle)
       ∧ getVehicle (Vehicle.id vehicle) s' = Some vehicle)
  ∧ (∀ id vehicle, getVehicle id s = Some vehicle → getVehicle id s' = Some vehicle).
Proof.
  intros Hget Hcalls. revert s Hget.
  induction Hcalls as [|call rest (Hf & Hc & Hle) Hrest IH];
    intros s Hget Hnd Hfresh.
  - simpl. split_and!; rewrite ?app_nil_r; try done.
  - apply NoDup_cons in Hnd as [Hnot Hnd].
    rewrite <- Hf in Hget.
    destruct (createVehicle_live s (creation_id call) (creation_shareCode call)
                (creation_time call) (creation_insert call) fleet Hget Hc Hle)
      as (vehicle & Hrun & Hid & Hfleet & Hpal).
    rewrite Hf in Hget, Hfleet, Hpal.
    assert (Hnew : omap_get (creation_id call) (vehicles s) = None)
      by (apply Hfresh; left).
    cbn [createVehicles]. rewrite Hrun.
    set (s1 := set_vehicles _ s) in *.
    assert (Hget1 : omap_get fleetId (fleets s1) = Some fleet) by done.
    assert (Hfresh1 : ∀ c, c ∈ rest → omap_get (creation_id c) (vehicles s1) = None).
    { intros c Hin. subst s1. cbn [vehicles set_vehicles].
      rewrite omap_get_set_ne; [apply Hfresh; by right|].
      intros Heq. apply Hnot. rewrite Heq. apply list_elem_of_fmap. by exists c. }
    destruct (IH s1 Hget1 Hnd Hfresh1) as (Hlen & Hfleets & Hlist & Hcolors & Hkept).
    assert (Hmembers : vehiclesOf fleetId s1 = vehiclesOf fleetId s ++ [vehicle]).
    { subst s1. rewrite (vehiclesOf_set_fresh _ _ _ _ Hnew).
      by rewrite decide_True. }
    destruct (createVehicles rest s1) as [created s2]. cbn [fst snd] in *.
    split_and!.
    + simpl. by rewrite Hlen.
    + by rewrite Hfleets.
    + by rewrite Hlist, Hmembers, <- app_assoc.
    + intros [|k] v Hk.
      * injection Hk as <-. rewrite Nat.add_0_r. split; [done|].
        apply Hkept. rewrite Hid. subst s1. unfold getVehicle.
        cbn [vehicles set_vehicles]. apply omap_get_set_eq.
      * destruct (Hcolors k v Hk) as [Hcolor Hstored]. split; [|done].
        rewrite Hmembers, length_app in Hcolor. simpl in Hcolor.
        by replace (length (vehiclesOf fleetId s) + S k)
          with (length (vehiclesOf fleetId s) + 1 + k) by lia.
    + intros id v Hv. apply Hkept. subst s1. unfold getVehicle in *.
      cbn [vehicles set_vehicles]. rewrite omap_get_set_ne; [done|].
      intros <-. by rewrite Hnew in Hv.
Qed.

(** C5: for every fleet of the store, a [createVehicle] without a color gives
    the new vehicle the palette entry at index (number of vehicles of that
    fleet in the store when the vehicle is created) mod 8, the palette having
    8 entries, and stores the vehicle under its id.  The store at creation is
    the one the expiry check at the start of [createVehicle] leaves: the
    store of the call for an unexpired fleet, and one without vehicles of the
    fleet for an expired fleet.  Calls made one after the other while the
    fleet has not expired, under ids that are new, therefore walk the
    palette in creation order: with [members] vehicles in the fleet
    beforehand the call of rank [k] gets entry ([members] + [k]) mod 8, every
    created vehicle is in the store afterwards and the fleet lists them after
    the earlier ones; so in a fleet without vehicles the first vehicle gets
    entry 0 and the second entry 1. *)
Theorem createVehicle_palette_color (s : MemStorage) (fleetId : string)
    (fleet : Fleet.t) :
  omap_get fleetId (fleets s) = Some fleet →
  length VEHICLE_COLORS = 8
  ∧ (∀ id shareCode now insertVehicle,
       InsertVehicle.fleetId insertVehicle = fleetId →
       InsertVehicle.color insertVehicle = None →
       let created := createVehicle id shareCode now insertVehicle s in
       let checked := (getFleet fleetId now s).2 in
       let members := length (vehiclesOf fleetId checked) in
       VEHICLE_COLORS !! (members `mod` 8) = Some (Vehicle.color created.1)
       ∧ getVehicle id created.2 = Some created.1
       ∧ ((now ≤ Fleet.expiresAt fleet)%Z → checked = s)
       ∧ ((Fleet.expiresAt fleet < now)%Z → members = 0))
  ∧ (∀ calls,
       Forall (colorless_for fleetId fleet) calls →
       NoDup (creation_id <$> calls) →
       (∀ call, call ∈ calls → omap_get (creation_id call) (vehicles s) = None) →
       let created := (createVehicles calls s).1 in
       let s' := (createVehicles calls s).2 in
       let members := length (vehiclesOf fleetId s) in
       length created = length calls
       ∧ (∀ k vehicle,
            created !! k = Some vehicle →
            VEHICLE_COLORS !! ((members + k) `mod` 8) = Some (Vehicle.color vehicle)
            ∧ getVehicle (Vehicle.id vehicle) s' = Some vehicle)
       ∧ vehiclesOf fleetId s' = vehiclesOf fleetId s ++ created
       ∧ (members = 0 →
          ∀ first second rest,
            created = first :: second :: rest →
            VEHICLE_COLORS !! 0 = Some (Vehicle.color first)
            ∧ VEHICLE_COLORS !! 1 = Some (Vehicle.color second))).
Proof.
  intros Hget. split; [done|]. split.
  - intros id shareCode now insertVehicle Hf Hcolor created checked members.
    subst created checked members. rewrite <- Hf in *.
    destruct (createVehicle_present s id shareCode now insertVehicle fleet Hget Hcolor)
      as (vehicle & Hrun & Hpal).
    rewrite Hrun. cbn [fst snd]. split_and!.
    + done.
    + unfold getVehicle. cbn [vehicles set_vehicles]. apply omap_get_set_eq.
    + intros Hle. by rewrite (getFleet_live _ _ _ _ Hget Hle).
    + intros Hlt. rewrite (getFleet_expired _ _ _ _ Hget Hlt). cbn [snd].
      by rewrite vehiclesOf_purged.
  - intros calls Hcalls Hnd Hfresh created s' members. subst created s' members.
    destruct (createVehicles_in_order fleetId fleet calls s Hget Hcalls Hnd Hfresh)
      as (Hlen & _ & Hlist & Hcolors & _).
    split_and!; try done.
    intros Hnone first second rest Hcreated.
    destruct (Hcolors 0 first) as [Hfirst _]; [by rewrite Hcreated|].
    destruct (Hcolors 1 second) as [Hsecond _]; [by rewrite Hcreated|].
    rewrite Hnone in Hfirst, Hsecond. done.
Qed.

Lemma createVehicle_palette_color_witness :
  let s := (createFleet "flt" "adm" 0 (InsertFleet.mk "Resort Buggies")
              Storage.empty).2 in
  let calls := [ Build_Creation "v1" "c1" 1 (InsertVehicle.mk "flt" "Buggy 1" None);
                 Build_Creation "v2" "c2" 2 (InsertVehicle.mk "flt" "Buggy 2" None) ] in
  ∃ first second,
    (createVehicles calls s).1 = [first; second]
    ∧ VEHICLE_COLORS !! 0 = Some (Vehicle.color first)
    ∧ VEHICLE_COLORS !! 1 = Some (Vehicle.color second)
    ∧ Vehicle.name <$> vehiclesOf "flt" (createVehicles calls s).2
      = ["Buggy 1"; "Buggy 2"].
Proof.
  intros s calls.
  destruct (createVehicle_palette_color s "flt"
              (Fleet.mk "flt" "Resort Buggies" 0 86400000 "adm") eq_refl)
    as (_ & _ & Hseq).
  destruct (Hseq calls) as (Hlen & Hcolors & Hlist & Hfirst).
  - repeat constructor; simpl; lia.
  - apply NoDup_cons. split; [by intros ?%list_elem_of_singleton|].
    apply NoDup_singleton.
  - intros call Hin.
    apply elem_of_cons in Hin as [->|Hin]; [done|].
    by apply list_elem_of_singleton in Hin as ->.
  - eexists _, _. split; [reflexivity|].
    destruct (Hfirst eq_refl _ _ [] eq_refl) as [H0 H1].
    split; [exact H0|]. split; [exact H1|]. by rewrite Hlist.
Defined.

(** The scenario of the specification, from an empty store. *)
Example resort_buggies_colors :
  let '(fleet, s1) := createFleet "flt" "adm" 0 (InsertFleet.mk "Resort Buggies") Storage.empty in
  let '(buggy1, s2) := createVehicle "v1" "c1" 1 (InsertVehicle.mk "flt" "Buggy 1" None) s1 in
  let '(buggy2, s3) := createVehicle "v2" "c2" 2 (InsertVehicle.mk "flt" "Buggy 2" None) s2 in
  Vehicle.color buggy1 = "#ef4444" ∧ Vehicle.color buggy2 = "#3b82f6"
  ∧ (getVehiclesByFleet "flt" 3 s3).1 = [buggy1; buggy2].
Proof. vm_compute. done. Qed.

(** Through [POST /api/vehicles] the fleet is checked first, so every vehicle
    the route creates without a color has the palette entry of its rank. *)
Lemma post_vehicle_palette_color (s : MemStorage) (body : InsertVehicle.t)
    (id shareCode : string) (now : Z) :
  InsertVehicle.color body = None →
  status (post_vehicle body id shareCode now s).1 = 201 →
  ∃ vehicle,
    getVehicle id (post_vehicle body id shareCode now s).2 = Some vehicle
    ∧ VEHICLE_COLORS !! (length (vehiclesOf (InsertVehicle.fleetId body) s) `mod` 8)
      = Some (Vehicle.color vehicle).
Proof.
  intros Hcolor. unfold post_vehicle.
  destruct (Schema.insertVehicleSchema body); [|done].
  destruct (getFleet _ now s) as [[fleet|] s1] eqn:Hfleet; [|done].
  apply getFleet_Some in Hfleet as (Hget & Hle & ->).
  destruct (createVehicle_present s id shareCode now body fleet Hget Hcolor)
    as (vehicle & Hrun & Hpal).
  rewrite (getFleet_live _ _ _ _ Hget Hle) in Hrun, Hpal. simpl in Hrun, Hpal.
  rewrite Hrun. intros _. exists vehicle. split; [|done].
  unfold getVehicle. simpl. apply omap_get_set_eq.
Qed.

(** C3, as stated, fails: a fleet is created at time 0 and a vehicle is added
    to it; at time 86400001 the expiry of the fleet has passed, and
    [getVehicle] still answers with the vehicle, because no read of the fleet
    has purged it. *)
Lemma getVehicle_ignores_fleet_expiry :
  let '(fleet, s1) :=
    createFleet "flt" "adm" 0 (InsertFleet.mk "Resort Buggies") Storage.empty in
  let '(buggy, s2) :=
    createVehicle "v1" "c1" 1 (InsertVehicle.mk "flt" "Buggy 1" None) s1 in
  omap_get "flt" (fleets s2) = Some fleet
  ∧ (Fleet.expiresAt fleet < 86400001)%Z
  ∧ Vehicle.fleetId buggy = "flt"
  ∧ getVehicle "v1" s2 = Some buggy
  ∧ getVehicle "v1" s2 ≠ None.
Proof. repeat split; (reflexivity || discriminate). Qed.

(** C3 (amended): once the expiry timestamp of a fleet has passed, or the
    fleet is no longer in the store, [getVehiclesByFleet] on its id answers
    the empty list; and once a read of the expired fleet ([getFleet], which
    [getVehiclesByFleet] runs first) has purged it, the fleet stays
    not-found, [getVehicle] answers not-found for every vehicle that belonged
    to it, and no vehicle of the store names that fleet. *)
Theorem expired_fleet_vehicles_unreachable (s : MemStorage) (fleetId : string)
    (now : Z) :
  (omap_get fleetId (fleets s) = None →
     (getVehiclesByFleet fleetId now s).1 = [])
  ∧ (∀ fleet,
       omap_get fleetId (fleets s) = Some fleet →
       (Fleet.expiresAt fleet < now)%Z →
       let s' := (getFleet fleetId now s).2 in
       (getVehiclesByFleet fleetId now s) = ([], s')
       ∧ (∀ t, getFleet fleetId t s' = (None, s'))
       ∧ (∀ t, getVehiclesByFleet fleetId t s' = ([], s'))
       ∧ (∀ id vehicle,
            getVehicle id s = Some vehicle →
            Vehicle.fleetId vehicle = fleetId →
            getVehicle id s' = None)
       ∧ (∀ id vehicle,
            getVehicle id s' = Some vehicle →
            Vehicle.fleetId vehicle ≠ fleetId)).
Proof.
  split.
  - intros Hget. unfold getVehiclesByFleet. by rewrite getFleet_absent.
  - intros fleet Hget Hlt. unfold getVehiclesByFleet.
    rewrite (getFleet_expired _ _ _ _ Hget Hlt). simpl.
    assert (Hgone : ∀ t s0, omap_get fleetId (fleets s0) = None →
                            getFleet fleetId t s0 = (None, s0))
      by (intros; by apply getFleet_absent).
    repeat split.
    + intros t. apply Hgone. simpl. apply omap_get_delete_eq.
    + intros t. rewrite Hgone; [done|]. simpl. apply omap_get_delete_eq.
    + intros id vehicle Hv Hf. unfold getVehicle in *. simpl.
      by eapply deleteVehiclesOf_member.
    + intros id vehicle Hv. unfold getVehicle in Hv. simpl in Hv.
      by eapply deleteVehiclesOf_none_left.
Qed.

Lemma expired_fleet_vehicles_unreachable_witness :
  let s := Storage.mk [] [("flt", sample_fleet "flt" 900000)]
             [("v1", sample_vehicle "v1" "flt");
              ("v2", sample_vehicle "v2" "other")] in
  (getVehiclesByFleet "gone" 5 s).1 = []
  ∧ (getVehiclesByFleet "flt" 900001 s).1 = []
  ∧ getVehicle "v1" (getFleet "flt" 900001 s).2 = None.
Proof.
  intros s.
  destruct (expired_fleet_vehicles_unreachable s "gone" 5) as (Habsent & _).
  destruct (expired_fleet_vehicles_unreachable s "flt" 900001) as (_ & Hexpired).
  destruct (Hexpired (sample_fleet "flt" 900000)) as (Hlist & _ & _ & Hmember & _).
  - reflexivity.
  - simpl. lia.
  - split; [apply Habsent; reflexivity|].
    split; [by rewrite Hlist|].
    apply (Hmember "v1" (sample_vehicle "v1" "flt")); reflexivity.
Defined.

(** ** The message handler *)


(** C8: on a connection whose closure has announced no [share]
    ([sharingLocationId] is null) an [update] message changes nothing, and on
    one that has announced no [shareVehicle] ([sharingVehicleId] is null) an
    [updateVehicle] message changes nothing: the closure variables, the store,
    the registries, the sockets' states and the output are the same, so
    nothing is stored, nothing is sent, and the connection stays as it was. *)
Theorem update_before_share_is_dropped (ws : conn) (message : Message)
    (now : Z) (vars : Vars) (st : Server) :
  (type message = "update" → sharingLocationId vars = None →
     on_message ws message now vars st = (vars, st))
  ∧ (type message = "updateVehicle" → sharingVehicleId vars = None →
     on_message ws message now vars st = (vars, st)).
Proof.
  split; intros Htype Hvar; unfold on_message; rewrite Htype, Hvar;
    by destruct (truthy (sharingLocationId vars)),
               (truthy (sharingVehicleId vars)).
Qed.

Lemma update_before_share_is_dropped_witness :
  let update := Build_Message "update" None None None
                  (JObj [("latitude", JNum (Finite 40 0));
                         ("longitude", JNum (Finite (-73) 0))]) in
  let updateVehicle := Build_Message "updateVehicle" None None None
                  (JObj [("latitude", JNum (Finite 40 0));
                         ("longitude", JNum (Finite (-73) 0))]) in
  on_message 1 update 5 fresh_vars initial = (fresh_vars, initial)
  ∧ on_message 1 updateVehicle 5 fresh_vars initial = (fresh_vars, initial).
Proof.
  intros update updateVehicle.
  destruct (update_before_share_is_dropped 1 update 5 fresh_vars initial)
    as [Hsolo _].
  destruct (update_before_share_is_dropped 1 updateVehicle 5 fresh_vars initial)
    as [_ Hfleet].
  split; [apply Hsolo|apply Hfleet]; reflexivity.
Defined.

(** C4, as stated, fails: in the reachable state [live_share] the sharer
    sends an [update] whose latitude is the literal [1e999], which parses to
    an infinite number; the payload passes [locationUpdateSchema], the
    infinite value is written to the store and the record is sent to the
    subscriber. *)
Lemma infinite_latitude_is_accepted :
  let vars := Build_Vars None (Some "loc") None None in
  let message := update_message (JNum (Infinity false)) (JNum (Finite (-73) 0)) in
  let st := server live_share in
  let st' := (on_message 1 message 4 vars st).2 in
  closures live_share !! 1 = Some vars
  ∧ Schema.locationUpdateSchema (data message)
    = Some (LocationUpdate.mk (Infinity false) (Finite (-73) 0))
  ∧ Location.latitude <$> omap_get "loc" (locations (storage st'))
    = Some (Infinity false)
  ∧ storage st' ≠ storage st
  ∧ ∃ sent, emitted st st' = [Send 2 (MsgLocation sent)]
            ∧ Location.latitude sent = Infinity false.
Proof.
  repeat (split; [reflexivity|]). split; [discriminate|].
  eexists. split; reflexivity.
Qed.

Lemma z_number_None (v : jsval) :
  Schema.z_number v = None ↔ (∀ n, v ≠ JNum n) ∨ v = JNum NaN.
Proof.
  split.
  - destruct v as [| | |[]| | | |]; simpl; intros H;
      try discriminate; (by right) || (by left).
  - intros [H| ->]; [|done].
    destruct v as [| | |n| | | |]; try done. by destruct (H n).
Qed.

(** C4 (amended): the payload of an [update] or [updateVehicle] message is
    validated to be an object whose latitude and longitude are numbers other
    than NaN; a payload that fails this is dropped: the closure variables,
    the store, the registries, the sockets' states and the output stay as
    they were.  A latitude or longitude that is not a number, or is NaN,
    fails the validation; an infinite one passes it. *)
Theorem invalid_update_is_dropped (ws : conn) (message : Message) (now : Z)
    (vars : Vars) (st : Server) :
  (type message = "update" →
     Schema.locationUpdateSchema (data message) = None →
     on_message ws message now vars st = (vars, st))
  ∧ (type message = "updateVehicle" →
     Schema.vehicleUpdateSchema (data message) = None →
     on_message ws message now vars st = (vars, st))
  ∧ ((∀ fields, data message ≠ JObj fields) →
     Schema.locationUpdateSchema (data message) = None
     ∧ Schema.vehicleUpdateSchema (data message) = None)
  ∧ (∀ fields coordinate,
       data message = JObj fields →
       coordinate = prop "latitude" fields ∨ coordinate = prop "longitude" fields →
       (∀ n, coordinate ≠ JNum n) ∨ coordinate = JNum NaN →
       Schema.locationUpdateSchema (data message) = None
       ∧ Schema.vehicleUpdateSchema (data message) = None)
  ∧ (∀ fields latitude longitude,
       data message = JObj fields →
       prop "latitude" fields = JNum latitude → latitude ≠ NaN →
       prop "longitude" fields = JNum longitude → longitude ≠ NaN →
       Schema.locationUpdateSchema (data message)
       = Some (LocationUpdate.mk latitude longitude)
       ∧ Schema.vehicleUpdateSchema (data message)
         = Some (VehicleUpdate.mk latitude longitude)).
Proof.
  split; [|split; [|split; [|split]]].
  - intros Htype Hbad. unfold on_message. rewrite Htype, Hbad.
    by destruct (truthy (sharingLocationId vars)).
  - intros Htype Hbad. unfold on_message. rewrite Htype, Hbad.
    by destruct (truthy (sharingLocationId vars)),
               (truthy (sharingVehicleId vars)).
  - intros Hobj. destruct (data message) as [| | | | | | |fields]; try done.
    by destruct (Hobj fields).
  - intros fields coordinate -> Hwhich Hbad. apply z_number_None in Hbad.
    unfold Schema.locationUpdateSchema, Schema.vehicleUpdateSchema.
    destruct Hwhich as [-> | ->]; rewrite Hbad; [done|].
    by destruct (Schema.z_number (prop "latitude" fields)).
  - intros fields latitude longitude -> Hlat Hlat' Hlng Hlng'.
    unfold Schema.locationUpdateSchema, Schema.vehicleUpdateSchema.
    rewrite Hlat, Hlng. by destruct latitude, longitude.
Qed.

Lemma invalid_update_is_dropped_witness :
  let message := Build_Message "update" None None None
                   (JObj [("latitude", JStr "40.0");
                          ("longitude", JNum (Finite (-73) 0))]) in
  Schema.locationUpdateSchema (data message) = None
  ∧ on_message 1 message 5 sharing_vars sharing_state
    = (sharing_vars, sharing_state).
Proof.
  intros message.
  destruct (invalid_update_is_dropped 1 message 5 sharing_vars sharing_state)
    as (Hdrop & _ & _ & Hbad & _).
  assert (Hnone : Schema.locationUpdateSchema (data message) = None).
  { apply (Hbad [("latitude", JStr "40.0"); ("longitude", JNum (Finite (-73) 0))]
                (JStr "40.0")).
    - reflexivity.
    - left. reflexivity.
    - left. intros n. discriminate. }
  split; [exact Hnone|]. apply Hdrop; [reflexivity|exact Hnone].
Defined.

(** ** The public view of a fleet *)

Lemma prop_rest_without_eq k fields : prop k (rest_without k fields) = JUndefined.
Proof.
  unfold rest_without. induction fields as [|[k' v] fields IH]; [done|].
  rewrite filter_cons. simpl. case_decide; simpl; [|done].
  by rewrite bool_decide_eq_false_2.
Qed.

Lemma prop_rest_without_ne k k' fields :
  k ≠ k' → prop k' (rest_without k fields) = prop k' fields.
Proof.
  intros Hne. unfold rest_without.
  induction fields as [|[k0 v] fields IH]; [done|].
  rewrite filter_cons. simpl. case_decide as Hk; simpl.
  - by rewrite IH.
  - subst k0. by rewrite bool_decide_eq_false_2.
Qed.

Lemma rest_without_keys k fields : k ∉ ((rest_without k fields).*1).
Proof.
  unfold rest_without. intros Hin. apply list_elem_of_fmap in Hin as ([k' v] & -> & Hin).
  by apply list_elem_of_filter in Hin as [Hne _].
Qed.


(** C9: the answer of [GET /api/fleets/:id] is 404 when the fleet is absent
    or expired; otherwise it is the object of the stored fleet record without
    the property [adminCode]: that property is missing, every other property
    has the value it has in the record, and the answer is the same whatever
    the admin secret of the record is. *)
Theorem public_fleet_view_hides_adminCode (s : MemStorage) (id : string)
    (now : Z) :
  match getFleet id now s with
  | (Some fleet, _) =>
      omap_get id (fleets s) = Some fleet
      ∧ ∃ publicFleet,
          (get_fleet id now s).1 = {| status := 200; body := JObj publicFleet |}
          ∧ ("adminCode" ∉ publicFleet.*1)
          ∧ prop "adminCode" publicFleet = JUndefined
          ∧ (∀ k, k ≠ "adminCode" →
               prop k publicFleet = prop k (Fleet_fields fleet))
          ∧ publicFleet = [ ("id", JStr (Fleet.id fleet));
                            ("name", JStr (Fleet.name fleet));
                            ("createdAt", JIso (Fleet.createdAt fleet));
                            ("expiresAt", JIso (Fleet.expiresAt fleet)) ]
          ∧ (∀ adminCode,
               publicFleet
               = rest_without "adminCode" (Fleet_fields (with_adminCode adminCode fleet)))
  | (None, _) =>
      (get_fleet id now s).1 = error 404 "Fleet not found or expired"
  end.
Proof.
  unfold get_fleet.
  destruct (getFleet id now s) as [[fleet|] s'] eqn:Hget; [|done].
  apply getFleet_Some in Hget as (Hstored & _ & ->). split; [done|].
  eexists. split; [reflexivity|].
  split; [apply rest_without_keys|].
  split; [apply prop_rest_without_eq|].
  split; [intros k Hk; by apply prop_rest_without_ne|].
  split; [reflexivity|]. intros adminCode. reflexivity.
Qed.

Lemma public_fleet_view_hides_adminCode_witness :
  let s := Storage.mk [] [("flt", sample_fleet "flt" 900000)] [] in
  (get_fleet "flt" 5 s).1
  = {| status := 200;
       body := JObj [ ("id", JStr "flt"); ("name", JStr "Resort Buggies");
                      ("createdAt", JIso 0); ("expiresAt", JIso 900000) ] |}
  ∧ (get_fleet "gone" 5 s).1 = error 404 "Fleet not found or expired".
Proof.
  intros s.
  pose proof (public_fleet_view_hides_adminCode s "flt" 5) as Hfound.
  pose proof (public_fleet_view_hides_adminCode s "gone" 5) as Hgone.
  change (getFleet "flt" 5 s) with (Some (sample_fleet "flt" 900000), s) in Hfound.
  change (getFleet "gone" 5 s) with (@None Fleet.t, s) in Hgone.
  simpl in Hfound, Hgone.
  destruct Hfound as (_ & publicFleet & Hanswer & _ & _ & _ & Hfields & _).
  split; [|exact Hgone]. rewrite Hfields in Hanswer. exact Hanswer.
Defined.

(** ** The publisher registries *)

(** C6: in every reachable state each of the two publisher registries holds
    at most one connection per key; a [share] (or [shareVehicle]) message for
    a key leads to a reachable state in which that key is held by the sender
    and by no other connection, the other keys are held as before, and, when
    the key was already held, the registry has as many entries as before. *)
Theorem registry_one_publisher_per_key (sys : System) :
  reachable sys →
  (∀ key ws1 ws2,
     sharerConnections (server sys) !! key = Some ws1 →
     sharerConnections (server sys) !! key = Some ws2 → ws1 = ws2)
  ∧ (∀ key ws1 ws2,
     vehicleSharerConnections (server sys) !! key = Some ws1 →
     vehicleSharerConnections (server sys) !! key = Some ws2 → ws1 = ws2)
  ∧ (∀ ws vars message now key,
       closures sys !! ws = Some vars →
       type message = "share" → truthy (locationId message) = Some key →
       let before := sharerConnections (server sys) in
       let sys' := deliver ws vars message now sys in
       let after := sharerConnections (server sys') in
       reachable sys'
       ∧ after !! key = Some ws
       ∧ (∀ other, other ≠ ws → after !! key ≠ Some other)
       ∧ (∀ key', key ≠ key' → after !! key' = before !! key')
       ∧ (is_Some (before !! key) → size after = size before))
  ∧ (∀ ws vars message now key,
       closures sys !! ws = Some vars →
       type message = "shareVehicle" → truthy (vehicleId message) = Some key →
       let before := vehicleSharerConnections (server sys) in
       let sys' := deliver ws vars message now sys in
       let after := vehicleSharerConnections (server sys') in
       reachable sys'
       ∧ after !! key = Some ws
       ∧ (∀ other, other ≠ ws → after !! key ≠ Some other)
       ∧ (∀ key', key ≠ key' → after !! key' = before !! key')
       ∧ (is_Some (before !! key) → size after = size before)).
Proof.
  intros Hreach. split; [congruence|]. split; [congruence|].
  split.
  - intros ws vars message now key Hvars Htype Hkey before sys' after.
    split; [eapply reachable_step; [done|by econstructor]|].
    assert (Hafter : after = <[key := ws]> before).
    { subst after sys' before. unfold deliver, on_message.
      by rewrite Htype, Hkey. }
    rewrite Hafter. split; [apply lookup_insert_eq|].
    split; [intros other Hne; rewrite lookup_insert_eq; congruence|].
    split; [intros key' Hne; by apply lookup_insert_ne|].
    intros [held Hheld]. by eapply map_size_insert_Some.
  - intros ws vars message now key Hvars Htype Hkey before sys' after.
    split; [eapply reachable_step; [done|by econstructor]|].
    assert (Hafter : after = <[key := ws]> before).
    { subst after sys' before. unfold deliver, on_message.
      rewrite Htype, Hkey.
      by destruct (truthy (locationId message)),
                  (truthy (sharingLocationId vars)),
                  (truthy (fleetId message)). }
    rewrite Hafter. split; [apply lookup_insert_eq|].
    split; [intros other Hne; rewrite lookup_insert_eq; congruence|].
    split; [intros key' Hne; by apply lookup_insert_ne|].
    intros [held Hheld]. by eapply map_size_insert_Some.
Qed.

Lemma registry_one_publisher_per_key_witness :
  let sys' := deliver 2 fresh_vars (share_message "loc") 6 one_sharer in
  sharerConnections (server one_sharer) !! "loc" = Some 1
  ∧ sharerConnections (server sys') !! "loc" = Some 2
  ∧ sharerConnections (server sys') !! "loc" ≠ Some 1
  ∧ size (sharerConnections (server sys')) = size (sharerConnections (server one_sharer)).
Proof.
  intros sys'.
  assert (Hreach : reachable one_sharer).
  { unfold one_sharer.
    apply (reachable_step (connection 2 (connection 1 boot))).
    - apply (reachable_step (connection 1 boot)).
      + apply (reachable_step boot); [apply reachable_boot|].
        apply step_connection. reflexivity.
      + apply step_connection. reflexivity.
    - apply (step_message _ 1 fresh_vars). reflexivity. }
  destruct (registry_one_publisher_per_key one_sharer Hreach)
    as (_ & _ & Hshare & _).
  destruct (Hshare 2 fresh_vars (share_message "loc") 6%Z "loc")
    as (_ & Hnew & Hold & _ & Hsize); [reflexivity..|].
  split; [reflexivity|]. split; [exact Hnew|].
  split; [apply Hold; lia|].
  apply Hsize. eexists. reflexivity.
Defined.

(** ** The close handler *)

Lemma forEach_send_elem ready subscribers m c :
  Send c m ∈ forEach_send ready subscribers m ↔ c ∈ subscribers ∧ ready c = OPEN.
Proof.
  induction subscribers as [|s subscribers IH]; simpl.
  - split; [by intros ?%elem_of_nil|by intros [?%elem_of_nil _]].
  - rewrite elem_of_app, IH, elem_of_cons. case_decide as Hs.
    + rewrite list_elem_of_singleton. split.
      * intros [Heq|[Hin Hr]].
        -- injection Heq as ->. split; [by left|done].
        -- split; [by right|done].
      * intros [[->|Hin] Hr]; [by left|right; by split].
    + rewrite elem_of_nil. split.
      * intros [[]|[Hin Hr]]. split; [by right|done].
      * intros [[->|Hin] Hr]; [done|right; by split].
Qed.

Lemma set_delete_elem ws subscribers c :
  c ∈ set_delete ws subscribers ↔ c ∈ subscribers ∧ c ≠ ws.
Proof. unfold set_delete. rewrite list_elem_of_filter. tauto. Qed.

Lemma unsubscribe_from_keeps key ws registry key' subscribers c :
  registry !! key' = Some subscribers → c ∈ subscribers → c ≠ ws →
  ∃ subscribers', unsubscribe_from key ws registry !! key' = Some subscribers'
                  ∧ c ∈ subscribers'.
Proof.
  intros Hreg Hin Hne. unfold unsubscribe_from.
  destruct (registry !! key) as [subs|] eqn:Hkey; [|eauto].
  destruct (decide (key = key')) as [->|Hk].
  - rewrite Hreg in Hkey. injection Hkey as <-.
    assert (Hc : c ∈ set_delete ws subscribers) by by apply set_delete_elem.
    case_decide as Hlen.
    + apply nil_length_inv in Hlen. rewrite Hlen in Hc.
      by apply elem_of_nil in Hc.
    + rewrite lookup_insert_eq. eauto.
  - case_decide.
    + rewrite lookup_delete_ne by done. eauto.
    + rewrite lookup_insert_ne by done. eauto.
Qed.

Lemma close_subscriber_frame ws vars st :
  storage (close_subscriber ws vars st) = storage st
  ∧ readyState (close_subscriber ws vars st) = readyState st
  ∧ output (close_subscriber ws vars st) = output st
  ∧ fleetSubscribers (close_subscriber ws vars st) = fleetSubscribers st.
Proof. unfold close_subscriber. by destruct (truthy _). Qed.

Lemma close_sharer_frame ws vars st :
  storage (close_sharer ws vars st) = storage st
  ∧ readyState (close_sharer ws vars st) = readyState st
  ∧ fleetSubscribers (close_sharer ws vars st) = fleetSubscribers st
  ∧ ∃ es, output (close_sharer ws vars st) = output st ++ es.
Proof.
  unfold close_sharer. destruct (truthy _) as [sharing|].
  - unfold notify. simpl.
    destruct (locationSubscribers st !! sharing); simpl;
      repeat split; try done; eexists; by rewrite <- ?app_assoc.
  - repeat split; try done. exists []. by rewrite app_nil_r.
Qed.

Lemma close_sharer_output ws vars st sharing subscribers :
  truthy (sharingLocationId vars) = Some sharing →
  locationSubscribers st !! sharing = Some subscribers →
  output (close_sharer ws vars st)
  = output st ++ forEach_send (readyState st) subscribers MsgStopped
    ++ [Log ("Sharer disconnected from location " +:+ sharing) "websocket"].
Proof.
  intros Hvar Hsubs. unfold close_sharer, notify. rewrite Hvar. simpl.
  rewrite Hsubs. simpl. by rewrite <- app_assoc.
Qed.

Lemma close_fleet_subscriber_frame ws vars st :
  storage (close_fleet_subscriber ws vars st) = storage st
  ∧ readyState (close_fleet_subscriber ws vars st) = readyState st
  ∧ output (close_fleet_subscriber ws vars st) = output st.
Proof. unfold close_fleet_subscriber. by destruct (truthy _). Qed.

Lemma close_fleet_subscriber_keeps ws vars st key subscribers c :
  fleetSubscribers st !! key = Some subscribers → c ∈ subscribers → c ≠ ws →
  ∃ subscribers',
    fleetSubscribers (close_fleet_subscriber ws vars st) !! key = Some subscribers'
    ∧ c ∈ subscribers'.
Proof.
  intros Hreg Hin Hne. unfold close_fleet_subscriber.
  destruct (truthy _) as [subscribed|]; simpl; [|eauto].
  by eapply unsubscribe_from_keeps.
Qed.

Lemma close_subscriber_keeps ws vars st key subscribers c :
  locationSubscribers st !! key = Some subscribers → c ∈ subscribers → c ≠ ws →
  ∃ subscribers',
    locationSubscribers (close_subscriber ws vars st) !! key = Some subscribers'
    ∧ c ∈ subscribers'.
Proof.
  intros Hreg Hin Hne. unfold close_subscriber.
  destruct (truthy _) as [subscribed|]; simpl; [|eauto].
  by eapply unsubscribe_from_keeps.
Qed.

Lemma updateVehicleLiveStatus_locations id isLive now s :
  locations (updateVehicleLiveStatus id isLive now s).2 = locations s.
Proof. unfold updateVehicleLiveStatus. by destruct (omap_get id (vehicles s)). Qed.

Lemma close_vehicle_sharer_frame ws now vars st :
  locations (storage (close_vehicle_sharer ws now vars st)) = locations (storage st)
  ∧ ∃ es, output (close_vehicle_sharer ws now vars st) = output st ++ es.
Proof.
  unfold close_vehicle_sharer. destruct (truthy _) as [sharing|].
  - destruct (getVehicle sharing (storage st)) as [vehicle|]; simpl.
    + unfold notify. simpl.
      destruct (fleetSubscribers st !! Vehicle.fleetId vehicle); simpl;
        (split; [apply updateVehicleLiveStatus_locations|]);
        eexists; by rewrite <- ?app_assoc.
    + split; [done|]. by eexists.
  - split; [done|]. exists []. by rewrite app_nil_r.
Qed.

Lemma close_vehicle_sharer_storage ws now vars st sharing vehicle :
  truthy (sharingVehicleId vars) = Some sharing →
  getVehicle sharing (storage st) = Some vehicle →
  storage (close_vehicle_sharer ws now vars st)
  = (updateVehicleLiveStatus sharing false now (storage st)).2.
Proof.
  intros Hvar Hget. unfold close_vehicle_sharer, notify. rewrite Hvar, Hget.
  simpl. by destruct (fleetSubscribers st !! Vehicle.fleetId vehicle).
Qed.

Lemma close_vehicle_sharer_output ws now vars st sharing vehicle subscribers :
  truthy (sharingVehicleId vars) = Some sharing →
  getVehicle sharing (storage st) = Some vehicle →
  fleetSubscribers st !! Vehicle.fleetId vehicle = Some subscribers →
  output (close_vehicle_sharer ws now vars st)
  = output st
    ++ forEach_send (readyState st) subscribers (MsgVehicleStopped sharing)
    ++ [Log ("Vehicle " +:+ sharing +:+ " disconnected") "websocket"].
Proof.
  intros Hvar Hget Hsubs. unfold close_vehicle_sharer, notify.
  rewrite Hvar, Hget. simpl. rewrite Hsubs. simpl. by rewrite <- app_assoc.
Qed.

Lemma mark_open ws r st c :
  readyState (mark ws r st) c = OPEN → r ≠ OPEN →
  c ≠ ws ∧ readyState st c = OPEN.
Proof.
  unfold mark. simpl. case_decide as Hc; [by intros ->|]. by intros HO _.
Qed.

Lemma live_share_reachable : reachable live_share.
Proof.
  unfold live_share.
  repeat (eapply reachable_step;
          [|first [ by apply step_request
                  | by apply step_connection
                  | by apply (step_message _ _ fresh_vars) ]]).
  apply reachable_boot.
Qed.

(** C1, as stated, fails for a solo sharer: in the reachable state
    [live_share] socket 1 is the registered publisher of the live location
    "loc"; its transport closes; subscriber 2 is told [stopped], and the live
    flag of the record is still [true]. *)
Lemma close_of_solo_sharer_keeps_live_flag :
  let vars := Build_Vars None (Some "loc") None None in
  let closed := close 1 vars 5 live_share in
  reachable live_share
  ∧ closures live_share !! 1 = Some vars
  ∧ sharerConnections (server live_share) !! "loc" = Some 1
  ∧ Location.isLive <$> omap_get "loc" (locations (storage (server live_share)))
    = Some (Some true)
  ∧ emitted (server live_share) (server closed)
    = [Send 2 MsgStopped;
       Log "Sharer disconnected from location loc" "websocket"]
  ∧ Location.isLive <$> omap_get "loc" (locations (storage (server closed)))
    = Some (Some true)
  ∧ Location.isLive <$> (getLocation "loc" 5 (storage (server closed))).1
    ≠ Some (Some false).
Proof.
  split; [apply live_share_reachable|].
  repeat (split; [reflexivity|]). discriminate.
Qed.

(** C1 (amended): when the transport of a connection closes, the close
    handler (a) for a connection whose closure shares a location sends
    [stopped] to every subscriber of that location whose socket is open, and
    leaves the location records, live flag included, as they were; (b) for a
    connection whose closure shares a vehicle that is in the store sets the
    live flag of the vehicle to [false] and sends [vehicleStopped] with the
    vehicle id to every subscriber of the vehicle's fleet whose socket is
    open. *)
Theorem close_notifies_open_subscribers (st : Server) (ws : conn) (now : Z)
    (vars : Vars) :
  let closed := mark ws CLOSED st in
  let st' := on_close ws now vars closed in
  (∀ sharing,
     truthy (sharingLocationId vars) = Some sharing →
     locations (storage st') = locations (storage st)
     ∧ ∀ subscribers subscriber,
         locationSubscribers st !! sharing = Some subscribers →
         subscriber ∈ subscribers →
         readyState closed subscriber = OPEN →
         Send subscriber MsgStopped ∈ emitted st st')
  ∧ (∀ sharing vehicle,
     truthy (sharingVehicleId vars) = Some sharing →
     getVehicle sharing (storage st) = Some vehicle →
     (∃ stopped,
        getVehicle sharing (storage st') = Some stopped
        ∧ Vehicle.isLive stopped = false
        ∧ Vehicle.id stopped = Vehicle.id vehicle
        ∧ Vehicle.fleetId stopped = Vehicle.fleetId vehicle)
     ∧ ∀ subscribers subscriber,
         fleetSubscribers st !! Vehicle.fleetId vehicle = Some subscribers →
         subscriber ∈ subscribers →
         readyState closed subscriber = OPEN →
         Send subscriber (MsgVehicleStopped sharing) ∈ emitted st st').
Proof.
  intros closed st'. subst st'. unfold on_close.
  set (st1 := close_subscriber ws vars closed).
  set (st2 := close_sharer ws vars st1).
  set (st3 := close_fleet_subscriber ws vars st2).
  destruct (close_subscriber_frame ws vars closed) as (Hs1 & Hr1 & Ho1 & Hf1).
  destruct (close_sharer_frame ws vars st1) as (Hs2 & Hr2 & Hf2 & es2 & Ho2).
  destruct (close_fleet_subscriber_frame ws vars st2) as (Hs3 & Hr3 & Ho3).
  fold st1 in Hs1, Hr1, Ho1, Hf1. fold st2 in Hs2, Hr2, Hf2, Ho2.
  fold st3 in Hs3, Hr3, Ho3.
  assert (Hstore : storage st3 = storage st) by (by rewrite Hs3, Hs2, Hs1).
  assert (Hready : readyState st3 = readyState closed) by (by rewrite Hr3, Hr2, Hr1).
  split.
  - intros sharing Hvar.
    destruct (close_vehicle_sharer_frame ws now vars st3) as (Hloc & es4 & Ho4).
    split; [by rewrite Hloc, Hstore|].
    intros subscribers subscriber Hsubs Hin Hopen.
    destruct (mark_open _ _ _ _ Hopen) as [Hne _]; [done|].
    destruct (close_subscriber_keeps ws vars closed sharing subscribers subscriber)
      as (subscribers1 & Hsubs1 & Hin1); [done..|]. fold st1 in Hsubs1.
    pose proof (close_sharer_output ws vars st1 sharing subscribers1 Hvar Hsubs1)
      as Hsent. fold st2 in Hsent.
    unfold emitted. rewrite Ho4, Ho3, Hsent, Ho1. change (output closed) with (output st).
    rewrite <- !app_assoc, drop_app_length.
    apply elem_of_app. left. apply forEach_send_elem. by rewrite Hr1.
  - intros sharing vehicle Hvar Hget. rewrite <- Hstore in Hget.
    split.
    + rewrite (close_vehicle_sharer_storage _ _ _ _ _ _ Hvar Hget).
      unfold getVehicle, updateVehicleLiveStatus in *. rewrite Hget. simpl.
      rewrite omap_get_set_eq. by eexists.
    + intros subscribers subscriber Hsubs Hin Hopen.
      destruct (mark_open _ _ _ _ Hopen) as [Hne _]; [done|].
      destruct (close_fleet_subscriber_keeps ws vars st2
                  (Vehicle.fleetId vehicle) subscribers subscriber)
        as (subscribers3 & Hsubs3 & Hin3); [by rewrite Hf2, Hf1|done..|].
      fold st3 in Hsubs3. unfold emitted.
      rewrite (close_vehicle_sharer_output _ _ _ _ _ _ _ Hvar Hget Hsubs3).
      rewrite Ho3, Ho2, Ho1. change (output closed) with (output st).
      rewrite <- !app_assoc, drop_app_length.
      apply elem_of_app. right. apply elem_of_app. left.
      apply forEach_send_elem. by rewrite Hready.
Qed.

Lemma close_notifies_open_subscribers_witness :
  let solo := on_close 1 5 sharing_vars (mark 1 CLOSED sharing_state) in
  let fleet := on_close 4 5 vehicle_vars (mark 4 CLOSED vehicle_state) in
  Send 2 MsgStopped ∈ emitted sharing_state solo
  ∧ (∃ stopped, getVehicle "v1" (storage fleet) = Some stopped
                ∧ Vehicle.isLive stopped = false)
  ∧ Send 3 (MsgVehicleStopped "v1") ∈ emitted vehicle_state fleet.
Proof.
  intros solo fleet.
  destruct (close_notifies_open_subscribers sharing_state 1 5 sharing_vars)
    as [Hsolo _].
  destruct (close_notifies_open_subscribers vehicle_state 4 5 vehicle_vars)
    as [_ Hfleet].
  destruct (Hsolo "loc") as [_ Hsend]; [reflexivity|].
  destruct (Hfleet "v1" (sample_vehicle "v1" "flt"))
    as [(stopped & Hget & Hlive & _) Hsend']; [reflexivity..|].
  split; [apply (Hsend [2]); [reflexivity|by left|reflexivity]|].
  split; [by exists stopped|].
  apply (Hsend' [3]); [reflexivity|by left|reflexivity].
Defined.

(** * Further properties of the store *)

Section OMapOrder.
Context {V : Type}.
Implicit Types (m : omap V) (k : string) (v : V).

Lemma omap_get_None_keys k m : omap_get k m = None ↔ k ∉ m.*1.
Proof.
  induction m as [|[k' v'] m IH]; simpl.
  - split; [intros _ ?%elem_of_nil; done|done].
  - rewrite not_elem_of_cons. case_bool_decide as Hk.
    + split; [done|]. by intros [? _].
    + rewrite IH. split; [by intros ?|by intros [_ ?]].
Qed.

Lemma omap_set_keys k v m :
  (omap_set k v m).*1
  = match omap_get k m with Some _ => m.*1 | None => m.*1 ++ [k] end.
Proof.
  induction m as [|[k' v'] m IH]; csimpl; [done|].
  case_bool_decide as Hk; csimpl.
  - by subst.
  - rewrite IH. by destruct (omap_get k m).
Qed.

Lemma omap_set_NoDup k v m : NoDup m.*1 → NoDup (omap_set k v m).*1.
Proof.
  intros Hnd. rewrite omap_set_keys.
  destruct (omap_get k m) eqn:E; [done|].
  apply NoDup_app. split; [done|]. split; [|apply NoDup_singleton].
  intros x Hx ->%list_elem_of_singleton. by apply omap_get_None_keys in E.
Qed.

Lemma omap_set_elem k v m k' v' :
  (k', v') ∈ omap_set k v m → (k', v') = (k, v) ∨ (k', v') ∈ m.
Proof.
  induction m as [|[k0 v0] m IH]; simpl.
  - intros ?%list_elem_of_singleton. by left.
  - case_bool_decide.
    + intros [->|?]%elem_of_cons; [by left|right; by right].
    + intros [->|?]%elem_of_cons; [right; by left|].
      destruct IH as [?|?]; [done|by left|right; by right].
Qed.

Lemma omap_delete_elem k m k' v' :
  (k', v') ∈ omap_delete k m ↔ (k', v') ∈ m ∧ k' ≠ k.
Proof. unfold omap_delete. rewrite list_elem_of_filter. simpl. tauto. Qed.

Lemma omap_delete_keys k m : (omap_delete k m).*1 = filter (λ k', k' ≠ k) m.*1.
Proof.
  unfold omap_delete. induction m as [|[k' v'] m IH]; [done|].
  rewrite fmap_cons, !filter_cons. simpl. case_decide; csimpl; by rewrite IH.
Qed.

Lemma omap_delete_NoDup k m : NoDup m.*1 → NoDup (omap_delete k m).*1.
Proof. intros Hnd. rewrite omap_delete_keys. by apply NoDup_filter. Qed.

Lemma omap_elem_get k v m : NoDup m.*1 → (k, v) ∈ m → omap_get k m = Some v.
Proof.
  induction m as [|[k' v'] m IH]; simpl.
  - by intros _ ?%elem_of_nil.
  - intros [Hnotin Hnd]%NoDup_cons [[= -> ->]|Hin]%elem_of_cons.
    + by rewrite bool_decide_eq_true_2.
    + rewrite bool_decide_eq_false_2; [by apply IH|].
      intros ->. apply Hnotin. apply list_elem_of_fmap. by exists (k, v).
Qed.

Lemma omap_has_true k m : omap_has k m = true ↔ k ∈ m.*1.
Proof.
  unfold omap_has. rewrite bool_decide_eq_true.
  destruct (omap_get k m) eqn:E.
  - split; [intros _|by eauto].
    destruct (decide (k ∈ m.*1)) as [|Hn]; [done|].
    apply omap_get_None_keys in Hn. congruence.
  - split; [by intros [? ?]|]. intros Hin. by apply omap_get_None_keys in E.
Qed.
End OMapOrder.

(** ** The store keeps its records under their ids *)

Lemma store_wf_locations s m :
  store_wf s → NoDup m.*1 → (∀ k l, (k, l) ∈ m → Location.id l = k) →
  store_wf (set_locations m s).
Proof. intros (? & ? & ? & ? & ? & ?) ? ?. by repeat split. Qed.

Lemma store_wf_fleets s m :
  store_wf s → NoDup m.*1 → (∀ k f, (k, f) ∈ m → Fleet.id f = k) →
  store_wf (set_fleets m s).
Proof. intros (? & ? & ? & ? & ? & ?) ? ?. by repeat split. Qed.

Lemma store_wf_vehicles s m :
  store_wf s → NoDup m.*1 → (∀ k v, (k, v) ∈ m → Vehicle.id v = k) →
  store_wf (set_vehicles m s).
Proof. intros (? & ? & ? & ? & ? & ?) ? ?. by repeat split. Qed.

Lemma store_wf_empty : store_wf Storage.empty.
Proof.
  repeat split; try apply NoDup_nil_2; by intros ? ? ?%elem_of_nil.
Qed.

Lemma cascade_NoDup id entries (acc : omap Vehicle.t) :
  NoDup acc.*1 → NoDup (foldl (cascade_step id) acc entries).*1.
Proof.
  revert acc. induction entries as [|[k v] entries IH]; intros acc Hnd; [done|].
  simpl. apply IH. unfold cascade_step. simpl.
  case_bool_decide; [by apply omap_delete_NoDup|done].
Qed.

Lemma getLocation_wf id now s : store_wf s → store_wf (getLocation id now s).2.
Proof.
  intros Hwf. unfold getLocation.
  destruct (omap_get id (locations s)) as [l|]; [|done].
  destruct (Location.expiresAt l); [|done]. case_bool_decide; [|done].
  destruct Hwf as (Hl & ? & ? & Hil & ? & ?).
  apply store_wf_locations; [by repeat split|by apply omap_delete_NoDup|].
  intros k l' [Hin _]%omap_delete_elem. by apply Hil.
Qed.

Lemma getLocation_Some id now s location s' :
  getLocation id now s = (Some location, s') →
  omap_get id (locations s) = Some location ∧ s' = s
  ∧ ∀ expiresAt, Location.expiresAt location = Some expiresAt → (now ≤ expiresAt)%Z.
Proof.
  unfold getLocation. destruct (omap_get id (locations s)) as [l|]; [|done].
  destruct (Location.expiresAt l) as [e|] eqn:He.
  - case_bool_decide; [done|]. intros [= -> ->]. repeat split; [done..|].
    intros e' He'. rewrite He in He'. injection He' as <-. lia.
  - intros [= -> ->]. repeat split; [done..|]. intros e' He'. congruence.
Qed.

Lemma createLocation_wf id now insertLocation s :
  store_wf s → store_wf (createLocation id now insertLocation s).2.
Proof.
  intros Hwf. unfold createLocation. simpl.
  pose proof Hwf as (Hl & ? & ? & Hil & ? & ?).
  apply store_wf_locations; [done|by apply omap_set_NoDup|].
  intros k l [[= -> ->]|Hin]%omap_set_elem; [done|by apply Hil].
Qed.

Lemma updateLocation_wf id update now s :
  store_wf s → store_wf (updateLocation id update now s).2.
Proof.
  intros Hwf. unfold updateLocation.
  destruct (getLocation id now s) as [[location|] s1] eqn:Hget.
  - apply getLocation_Some in Hget as (Hget & -> & _). simpl.
    pose proof Hwf as (Hl & ? & ? & Hil & ? & ?).
    apply store_wf_locations; [done|by apply omap_set_NoDup|].
    intros k l [[= -> ->]|Hin]%omap_set_elem; [|by apply Hil].
    simpl. apply Hil. by apply omap_get_Some_elem.
  - simpl. pose proof (getLocation_wf id now s Hwf) as Hwf1. by rewrite Hget in Hwf1.
Qed.

Lemma deleteLocation_wf id s : store_wf s → store_wf (deleteLocation id s).2.
Proof.
  intros Hwf. unfold deleteLocation. simpl.
  pose proof Hwf as (Hl & ? & ? & Hil & ? & ?).
  apply store_wf_locations; [done|by apply omap_delete_NoDup|].
  intros k l [Hin _]%omap_delete_elem. by apply Hil.
Qed.

Lemma getFleet_wf id now s : store_wf s → store_wf (getFleet id now s).2.
Proof.
  intros Hwf. unfold getFleet.
  destruct (omap_get id (fleets s)) as [f|]; [|done].
  case_bool_decide; [|done]. simpl.
  destruct Hwf as (Hl & Hf & Hv & Hil & Hif & Hiv).
  repeat split; simpl; try done.
  - by apply omap_delete_NoDup.
  - by apply cascade_NoDup.
  - intros k f' [Hin _]%omap_delete_elem. by apply Hif.
  - intros k v [Hin _]%cascade_survivors. by apply Hiv.
Qed.

Lemma createFleet_wf id adminCode now insertFleet s :
  store_wf s → store_wf (createFleet id adminCode now insertFleet s).2.
Proof.
  intros Hwf. unfold createFleet. simpl.
  pose proof Hwf as (? & Hf & ? & ? & Hif & ?).
  apply store_wf_fleets; [done|by apply omap_set_NoDup|].
  intros k f [[= -> ->]|Hin]%omap_set_elem; [done|by apply Hif].
Qed.

Lemma getVehiclesByFleet_store fleetId now s :
  (getVehiclesByFleet fleetId now s).2 = (getFleet fleetId now s).2.
Proof. unfold getVehiclesByFleet. by destruct (getFleet fleetId now s) as [[?|] ?]. Qed.

Lemma createVehicle_wf id shareCode now insertVehicle s :
  store_wf s → store_wf (createVehicle id shareCode now insertVehicle s).2.
Proof.
  intros Hwf. unfold createVehicle.
  pose proof (getVehiclesByFleet_store (InsertVehicle.fleetId insertVehicle) now s) as Hs.
  destruct (getVehiclesByFleet _ now s) as [existing s1]. simpl in Hs. subst s1.
  simpl. apply (getFleet_wf (InsertVehicle.fleetId insertVehicle) now) in Hwf.
  pose proof Hwf as (? & ? & Hv & ? & ? & Hiv).
  apply store_wf_vehicles; [done|by apply omap_set_NoDup|].
  intros k v [[= -> ->]|Hin]%omap_set_elem; [done|by apply Hiv].
Qed.

Lemma updateVehicle_wf id update now s :
  store_wf s → store_wf (updateVehicle id update now s).2.
Proof.
  intros Hwf. unfold updateVehicle.
  destruct (omap_get id (vehicles s)) as [vehicle|] eqn:Hget; [|done]. simpl.
  pose proof Hwf as (? & ? & Hv & ? & ? & Hiv).
  apply store_wf_vehicles; [done|by apply omap_set_NoDup|].
  intros k v [[= -> ->]|Hin]%omap_set_elem; [|by apply Hiv].
  simpl. apply Hiv. by apply omap_get_Some_elem.
Qed.

Lemma updateVehicleLiveStatus_wf id isLive now s :
  store_wf s → store_wf (updateVehicleLiveStatus id isLive now s).2.
Proof.
  intros Hwf. unfold updateVehicleLiveStatus.
  destruct (omap_get id (vehicles s)) as [vehicle|] eqn:Hget; [|done]. simpl.
  pose proof Hwf as (? & ? & Hv & ? & ? & Hiv).
  apply store_wf_vehicles; [done|by apply omap_set_NoDup|].
  intros k v [[= -> ->]|Hin]%omap_set_elem; [|by apply Hiv].
  simpl. apply Hiv. by apply omap_get_Some_elem.
Qed.

Lemma deleteVehicle_wf id s : store_wf s → store_wf (deleteVehicle id s).2.
Proof.
  intros Hwf. unfold deleteVehicle. simpl.
  pose proof Hwf as (? & ? & Hv & ? & ? & Hiv).
  apply store_wf_vehicles; [done|by apply omap_delete_NoDup|].
  intros k v [Hin _]%omap_delete_elem. by apply Hiv.
Qed.

Lemma handle_wf req now s : store_wf s → store_wf (handle req now s).2.
Proof.
  intros Hwf.
  destruct req as [b id|id|id|b id adminCode|id|adminCode|b id shareCode
                  |fleetId|id|id|shareCode]; unfold handle.
  - destruct (Schema.insertLocationSchema b); [|done].
    pose proof (createLocation_wf id now b s Hwf).
    by destruct (createLocation id now b s).
  - pose proof (getLocation_wf id now s Hwf).
    by destruct (getLocation id now s) as [[?|] ?].
  - pose proof (deleteLocation_wf id s Hwf).
    by destruct (deleteLocation id s) as [[|] ?].
  - destruct (Schema.insertFleetSchema b); [|done].
    pose proof (createFleet_wf id adminCode now b s Hwf).
    by destruct (createFleet id adminCode now b s).
  - unfold get_fleet. pose proof (getFleet_wf id now s Hwf).
    by destruct (getFleet id now s) as [[?|] ?].
  - by destruct (getFleetByAdminCode adminCode now s).
  - unfold post_vehicle. destruct (Schema.insertVehicleSchema b); [|done].
    pose proof (getFleet_wf (InsertVehicle.fleetId b) now s Hwf) as Hwf1.
    destruct (getFleet _ now s) as [[?|] s1]; [|done]. simpl in Hwf1.
    pose proof (createVehicle_wf id shareCode now b s1 Hwf1).
    by destruct (createVehicle id shareCode now b s1).
  - pose proof (getFleet_wf fleetId now s Hwf) as Hwf1.
    destruct (getFleet fleetId now s) as [[?|] s1]; [|done]. simpl in Hwf1.
    pose proof (getFleet_wf fleetId now s1 Hwf1) as Hwf2.
    rewrite <- getVehiclesByFleet_store in Hwf2.
    by destruct (getVehiclesByFleet fleetId now s1).
  - by destruct (getVehicle id s).
  - pose proof (deleteVehicle_wf id s Hwf).
    by destruct (deleteVehicle id s) as [[|] ?].
  - destruct (getVehicleByShareCode shareCode s) as [v|]; [|done].
    pose proof (getFleet_wf (Vehicle.fleetId v) now s Hwf).
    by destruct (getFleet _ now s) as [[?|] ?].
Qed.

(** ** Locations: from creation to expiry or removal *)

(** X1: A location created through [POST /api/locations] with a body the schema
    accepts is answered by [GET /api/locations/:id] with the created record
    up to and including the instant [expiresInMinutes] (1440 when omitted)
    minutes after creation, and with 404 after it, the record being purged. *)
Theorem location_is_readable_until_expiry (s : MemStorage) (id : string)
    (now : Z) (insert : InsertLocation.t) :
  Schema.insertLocationSchema insert = true →
  let minutes := default 1440%Z (InsertLocation.expiresInMinutes insert) in
  let created := handle (PostLocation insert id) now s in
  status created.1 = 201
  ∧ ∀ t,
      ((t ≤ now + minutes * 60 * 1000)%Z →
         handle (GetLocation id) t created.2
         = ({| status := 200; body := body created.1 |}, created.2))
      ∧ ((now + minutes * 60 * 1000 < t)%Z →
         (handle (GetLocation id) t created.2).1
         = error 404 "Location not found or expired"
         ∧ omap_get id (locations (handle (GetLocation id) t created.2).2) = None).
Proof.
  intros Hok minutes created. subst created minutes.
  destruct (insertLocationSchema_minutes insert Hok) as [Hmin _].
  unfold handle. rewrite Hok.
  destruct (createLocation id now insert s) as [location s1] eqn:Hrun.
  unfold createLocation in Hrun. rewrite Hmin in Hrun. injection Hrun as <- <-.
  split; [done|]. intros t. cbn [fst snd].
  set (location := Location.mk _ _ _ _ _ _ _ _).
  set (s1 := set_locations _ s).
  assert (Hget : omap_get id (locations s1) = Some location)
    by apply omap_get_set_eq.
  split.
  - intros Hle. rewrite (getLocation_live _ _ _ _ Hget); [done|].
    simpl. intros e [= <-]. lia.
  - intros Hlt. rewrite (getLocation_expired _ _ _ _ _ Hget eq_refl Hlt).
    split; [done|]. simpl. apply omap_get_delete_eq.
Qed.

Lemma location_is_readable_until_expiry_witness :
  let insert := InsertLocation.mk (Finite 40 0) (Finite (-73) 0) None None
                  (Some 15%Z) in
  let created := handle (PostLocation insert "loc") 1000 Storage.empty in
  status (handle (GetLocation "loc") 901000 created.2).1 = 200
  ∧ status (handle (GetLocation "loc") 901001 created.2).1 = 404.
Proof.
  intros insert created.
  destruct (location_is_readable_until_expiry Storage.empty "loc" 1000 insert)
    as [_ Hget]; [reflexivity|].
  destruct (Hget 901000%Z) as [Hlive _]. destruct (Hget 901001%Z) as [_ Hgone].
  split.
  - fold created in Hlive. rewrite Hlive; [reflexivity|simpl; lia].
  - fold created in Hgone. destruct Hgone as [-> _]; [simpl; lia|reflexivity].
Defined.

(** X2: [DELETE /api/locations/:id] answers 200 exactly when the store holds a
    record under the id, expired or not, and 404 otherwise; afterwards the
    id is not-found for every read and every further delete, and the other
    locations are as before. *)
Theorem delete_location_forgets (s : MemStorage) (id : string) (now : Z) :
  let deleted := handle (DeleteLocation id) now s in
  (status deleted.1 = 200 ↔ id ∈ (locations s).*1)
  ∧ (status deleted.1 = 404 ↔ id ∉ (locations s).*1)
  ∧ (∀ t, handle (GetLocation id) t deleted.2
          = (error 404 "Location not found or expired", deleted.2))
  ∧ (∀ t, handle (DeleteLocation id) t deleted.2
          = (error 404 "Location not found", deleted.2))
  ∧ (∀ id', id' ≠ id →
       omap_get id' (locations deleted.2) = omap_get id' (locations s))
  ∧ fleets deleted.2 = fleets s ∧ vehicles deleted.2 = vehicles s.
Proof.
  intros deleted. subst deleted. unfold handle, deleteLocation.
  pose proof (omap_has_true id (locations s)) as Hhas.
  split; [|split; [|split; [|split; [|split]]]].
  - destruct (omap_has id (locations s)); simpl.
    + split; [intros _; by apply Hhas|done].
    + split; [done|]. intros Hin. apply Hhas in Hin. done.
  - destruct (omap_has id (locations s)); simpl.
    + split; [done|]. intros Hn. destruct Hn. by apply Hhas.
    + split; [intros _ Hin; by apply Hhas in Hin|done].
  - intros t.
    destruct (omap_has id (locations s)); simpl;
      by rewrite getLocation_absent by apply omap_get_delete_eq.
  - intros t.
    assert (Hno : omap_has id (omap_delete id (locations s)) = false).
    { apply not_true_is_false. intros E. apply omap_has_true in E.
      by apply (proj1 (omap_get_None_keys id _)
                      (omap_get_delete_eq id (locations s))) in E. }
    destruct (omap_has id (locations s)); simpl; rewrite Hno; simpl;
      by rewrite (omap_get_None_delete id (omap_delete id (locations s)))
        by apply omap_get_delete_eq.
  - intros id' Hne. destruct (omap_has id (locations s)); simpl;
      by apply omap_get_delete_ne.
  - by destruct (omap_has id (locations s)).
Qed.

Lemma delete_location_forgets_witness :
  let s := Storage.mk [("loc", sample_location 900000);
                       ("two", sample_location 5)] [] [] in
  status (handle (DeleteLocation "two") 900001 s).1 = 200
  ∧ omap_get "loc" (locations (handle (DeleteLocation "two") 900001 s).2)
    = Some (sample_location 900000).
Proof.
  intros s.
  destruct (delete_location_forgets s "two" 900001)
    as (Hok & _ & _ & _ & Hother & _).
  split.
  - apply Hok. right. left.
  - rewrite Hother; [reflexivity|done].
Defined.

(** ** Fleets: the public and the admin read *)

Lemma find_None_iff {A} (f : A → bool) (l : list A) :
  List.find f l = None ↔ ∀ x, x ∈ l → f x = false.
Proof.
  split.
  - intros H x Hx. apply (find_none f l H). by apply list_elem_of_In.
  - induction l as [|a l IH]; [done|]. intros Hall. simpl.
    rewrite (Hall a) by left. apply IH. intros x Hx. apply Hall. by right.
Qed.

Lemma find_Some_elem {A} (f : A → bool) (l : list A) x :
  List.find f l = Some x → x ∈ l ∧ f x = true.
Proof. intros [? ?]%find_some. split; [by apply list_elem_of_In|done]. Qed.

Lemma omap_value_get {V} (m : omap V) v :
  v ∈ omap_values m → ∃ k, (k, v) ∈ m.
Proof.
  unfold omap_values. intros ([k v'] & -> & Hin)%list_elem_of_fmap. by exists k.
Qed.

Lemma getFleetByAdminCode_Some s adminCode now fleet :
  getFleetByAdminCode adminCode now s = Some fleet →
  fleet ∈ omap_values (fleets s)
  ∧ Fleet.adminCode fleet = adminCode
  ∧ (now ≤ Fleet.expiresAt fleet)%Z.
Proof.
  unfold getFleetByAdminCode. intros [Hin Hf]%find_Some_elem.
  by apply andb_prop in Hf as [Hcode%bool_decide_eq_true Hle%bool_decide_eq_true].
Qed.

Lemma getFleetByAdminCode_None s adminCode now :
  getFleetByAdminCode adminCode now s = None
  ↔ ∀ fleet, fleet ∈ omap_values (fleets s) →
             Fleet.adminCode fleet = adminCode →
             (Fleet.expiresAt fleet < now)%Z.
Proof.
  unfold getFleetByAdminCode. rewrite find_None_iff. split.
  - intros Hall fleet Hin Hcode. specialize (Hall fleet Hin).
    apply andb_false_iff in Hall as [Hc|Hc]; apply bool_decide_eq_false in Hc;
      [done|lia].
  - intros Hall fleet Hin. apply andb_false_iff.
    destruct (decide (Fleet.adminCode fleet = adminCode)) as [Hc|Hc].
    + right. apply bool_decide_eq_false. specialize (Hall fleet Hin Hc). lia.
    + left. by apply bool_decide_eq_false.
Qed.

(** X3: [getFleetByAdminCode] answers with a fleet of the store that has the
    given admin secret and has not expired, and with nothing exactly when
    every fleet with that secret has expired; in a store that holds its
    records under their ids the fleet it answers is the one [getFleet] answers
    for the fleet's id, and that read changes nothing. *)
Theorem getFleetByAdminCode_finds_unexpired (s : MemStorage)
    (adminCode : string) (now : Z) :
  (∀ fleet,
     getFleetByAdminCode adminCode now s = Some fleet →
     fleet ∈ omap_values (fleets s)
     ∧ Fleet.adminCode fleet = adminCode
     ∧ (now ≤ Fleet.expiresAt fleet)%Z
     ∧ (store_wf s → getFleet (Fleet.id fleet) now s = (Some fleet, s)))
  ∧ (getFleetByAdminCode adminCode now s = None
     ↔ ∀ fleet, fleet ∈ omap_values (fleets s) →
                Fleet.adminCode fleet = adminCode →
                (Fleet.expiresAt fleet < now)%Z).
Proof.
  split.
  - intros fleet Hfind.
    destruct (getFleetByAdminCode_Some _ _ _ _ Hfind) as (Hin & Hcode & Hle).
    repeat split; try done.
    intros (_ & Hnd & _ & _ & Hid & _).
    apply omap_value_get in Hin as [k Hin].
    rewrite (Hid k fleet Hin).
    apply getFleet_live; [by apply omap_elem_get|done].
  - apply getFleetByAdminCode_None.
Qed.

Lemma getFleetByAdminCode_finds_unexpired_witness :
  let s1 := (createFleet "one" "adm1" 0 (InsertFleet.mk "Carts") Storage.empty).2 in
  let created := createFleet "two" "adm2" 1000 (InsertFleet.mk "Buggies") s1 in
  getFleetByAdminCode "adm2" 50 created.2 = Some created.1
  ∧ getFleet "two" 50 created.2 = (Some created.1, created.2)
  ∧ getFleetByAdminCode "adm2" 86401001 created.2 = None.
Proof.
  intros s1 created.
  destruct (getFleetByAdminCode_finds_unexpired created.2 "adm2" 50)
    as [Hfound _].
  destruct (getFleetByAdminCode_finds_unexpired created.2 "adm2" 86401001)
    as [_ Hnone].
  destruct (Hfound created.1) as (_ & _ & _ & Hget); [reflexivity|].
  split; [reflexivity|]. split.
  - apply Hget. apply createFleet_wf, createFleet_wf, store_wf_empty.
  - apply Hnone. intros fleet Hin Hcode.
    apply elem_of_cons in Hin as [->|Hin]; [done|].
    apply list_elem_of_singleton in Hin as ->. simpl. lia.
Defined.

Lemma omap_set_values_elem {V} k (v : V) m x :
  x ∈ omap_values (omap_set k v m) → x = v ∨ x ∈ omap_values m.
Proof.
  unfold omap_values. intros ([k' v'] & -> & Hin)%list_elem_of_fmap.
  apply omap_set_elem in Hin as [[= -> ->]|Hin]; [by left|].
  right. apply list_elem_of_fmap. by exists (k', v').
Qed.

Lemma omap_set_values_new {V} k (v : V) m : v ∈ omap_values (omap_set k v m).
Proof.
  unfold omap_values. apply list_elem_of_fmap. exists (k, v). split; [done|].
  apply omap_get_Some_elem, omap_get_set_eq.
Qed.

(** X4: A fleet created through [POST /api/fleets] under an admin secret that no
    fleet of the store has lives 24 hours: up to and including that instant
    the public read answers 200 and the admin read answers the created record,
    admin secret included; after it both answer 404. *)
Theorem fleet_lives_24_hours (s : MemStorage) (id adminCode : string)
    (now : Z) (insert : InsertFleet.t) :
  Schema.insertFleetSchema insert = true →
  (∀ fleet, fleet ∈ omap_values (fleets s) → Fleet.adminCode fleet ≠ adminCode) →
  let created := handle (PostFleet insert id adminCode) now s in
  let expiry := (now + 24 * 60 * 60 * 1000)%Z in
  status created.1 = 201
  ∧ (∃ fields, body created.1 = JObj fields
               ∧ prop "adminCode" fields = JStr adminCode
               ∧ prop "expiresAt" fields = JIso expiry)
  ∧ ∀ t,
      ((t ≤ expiry)%Z →
         status (handle (GetFleet id) t created.2).1 = 200
         ∧ handle (GetFleetAdmin adminCode) t created.2
           = ({| status := 200; body := body created.1 |}, created.2))
      ∧ ((expiry < t)%Z →
         status (handle (GetFleet id) t created.2).1 = 404
         ∧ status (handle (GetFleetAdmin adminCode) t created.2).1 = 404).
Proof.
  intros Hok Hfresh created expiry. subst created.
  pose (fleet := Fleet.mk id (InsertFleet.name insert) now expiry adminCode).
  pose (s1 := set_fleets (omap_set id fleet (fleets s)) s).
  assert (Hrun : handle (PostFleet insert id adminCode) now s
                 = ({| status := 201; body := JObj (Fleet_fields fleet) |}, s1))
    by (unfold handle; by rewrite Hok).
  rewrite Hrun. cbn [fst snd status body].
  assert (Hget : omap_get id (fleets s1) = Some fleet) by apply omap_get_set_eq.
  assert (Honly : ∀ f, f ∈ omap_values (fleets s1) →
                       Fleet.adminCode f = adminCode → f = fleet).
  { intros f [->|Hin]%omap_set_values_elem Hcode; [done|].
    by destruct (Hfresh f Hin). }
  assert (Hnew : fleet ∈ omap_values (fleets s1)) by apply omap_set_values_new.
  split; [done|]. split; [by eexists|].
  assert (Hexp : Fleet.expiresAt fleet = expiry) by done.
  assert (Hcode : Fleet.adminCode fleet = adminCode) by done.
  clearbody s1. clear Hrun.
  intros t. split.
  - intros Hle. unfold handle, get_fleet.
    rewrite (getFleet_live _ _ _ _ Hget) by (rewrite Hexp; done).
    split; [done|].
    destruct (getFleetByAdminCode adminCode t s1) as [f|] eqn:Hfind.
    + destruct (getFleetByAdminCode_Some _ _ _ _ Hfind) as (Hin & Hc & _).
      by rewrite (Honly f Hin Hc).
    + pose proof (proj1 (getFleetByAdminCode_None _ _ _) Hfind fleet Hnew Hcode)
        as Hold. rewrite Hexp in Hold. lia.
  - intros Hlt. unfold handle, get_fleet.
    rewrite (getFleet_expired _ _ _ _ Hget) by (rewrite Hexp; done).
    split; [done|].
    rewrite (proj2 (getFleetByAdminCode_None s1 adminCode t)); [done|].
    intros f Hin Hc. by rewrite (Honly f Hin Hc), Hexp.
Qed.

Lemma fleet_lives_24_hours_witness :
  let created := handle (PostFleet (InsertFleet.mk "Resort Buggies") "flt" "adm")
                   1000 Storage.empty in
  status (handle (GetFleet "flt") 86401000 created.2).1 = 200
  ∧ (handle (GetFleetAdmin "adm") 86401000 created.2).1
    = {| status := 200; body := body created.1 |}
  ∧ status (handle (GetFleet "flt") 86401001 created.2).1 = 404
  ∧ status (handle (GetFleetAdmin "adm") 86401001 created.2).1 = 404.
Proof.
  intros created.
  destruct (fleet_lives_24_hours Storage.empty "flt" "adm" 1000
              (InsertFleet.mk "Resort Buggies")) as (_ & _ & Hlife).
  - reflexivity.
  - by intros fleet ?%elem_of_nil.
  - fold created in Hlife.
    destruct (Hlife 86401000%Z) as [Hlive _].
    destruct (Hlife 86401001%Z) as [_ Hgone].
    destruct Hlive as [H1 H2]; [lia|]. destruct Hgone as [H3 H4]; [lia|].
    split; [exact H1|]. split; [by rewrite H2|]. split; [exact H3|exact H4].
Defined.

(** ** Vehicles *)

(** X5: [updateVehicle] answers not-found for an id the store does not hold and
    leaves the store untouched; otherwise, whatever the state of the owning
    fleet, the stored vehicle gets the latitude and longitude of the update
    and the current time as last-update timestamp, keeps its id, fleet, name,
    color, share secret and live flag, and nothing else in the store
    changes. *)
Theorem updateVehicle_frame (s : MemStorage) (id : string)
    (update : VehicleUpdate.t) (now : Z) :
  (omap_get id (vehicles s) = None → updateVehicle id update now s = (None, s))
  ∧ (∀ vehicle,
       omap_get id (vehicles s) = Some vehicle →
       ∃ updated s',
         updateVehicle id update now s = (Some updated, s')
         ∧ Vehicle.latitude updated = Some (VehicleUpdate.latitude update)
         ∧ Vehicle.longitude updated = Some (VehicleUpdate.longitude update)
         ∧ Vehicle.lastUpdated updated = Some now
         ∧ Vehicle.id updated = Vehicle.id vehicle
         ∧ Vehicle.fleetId updated = Vehicle.fleetId vehicle
         ∧ Vehicle.name updated = Vehicle.name vehicle
         ∧ Vehicle.color updated = Vehicle.color vehicle
         ∧ Vehicle.shareCode updated = Vehicle.shareCode vehicle
         ∧ Vehicle.isLive updated = Vehicle.isLive vehicle
         ∧ omap_get id (vehicles s') = Some updated
         ∧ (∀ id', id ≠ id' →
              omap_get id' (vehicles s') = omap_get id' (vehicles s))
         ∧ (vehicles s').*1 = (vehicles s).*1
         ∧ locations s' = locations s
         ∧ fleets s' = fleets s).
Proof.
  split.
  - intros Hget. unfold updateVehicle. by rewrite Hget.
  - intros vehicle Hget. unfold updateVehicle. rewrite Hget.
    eexists _, _. split; [reflexivity|]. simpl.
    repeat split; try done.
    + apply omap_get_set_eq.
    + intros id' Hne. by apply omap_get_set_ne.
    + rewrite omap_set_keys. by rewrite Hget.
Qed.

Lemma updateVehicle_frame_witness :
  let s := Storage.mk [] [("flt", sample_fleet "flt" 10)]
             [("v1", sample_vehicle "v1" "flt")] in
  let update := VehicleUpdate.mk (Finite 41 0) (Finite (-74) 0) in
  updateVehicle "gone" update 50 s = (None, s)
  ∧ ∃ updated s',
      updateVehicle "v1" update 50 s = (Some updated, s')
      ∧ Vehicle.latitude updated = Some (Finite 41 0)
      ∧ Vehicle.isLive updated = true.
Proof.
  intros s update.
  destruct (updateVehicle_frame s "gone" update 50) as [Habsent _].
  destruct (updateVehicle_frame s "v1" update 50) as [_ Hpresent].
  split; [apply Habsent; reflexivity|].
  destruct (Hpresent (sample_vehicle "v1" "flt"))
    as (updated & s' & Hrun & Hlat & _ & _ & _ & _ & _ & _ & _ & Hlive & _);
    [reflexivity|].
  exists updated, s'. split; [exact Hrun|]. split; [exact Hlat|exact Hlive].
Defined.

(** [updateVehicleLiveStatus] answers not-found for an id the store does not
    hold and leaves the store untouched; otherwise the stored vehicle gets
    the given live flag and the current time as last-update timestamp, keeps
    its position and every other field, and nothing else in the store
    changes. *)
Theorem updateVehicleLiveStatus_frame (s : MemStorage) (id : string)
    (isLive : bool) (now : Z) :
  (omap_get id (vehicles s) = None →
     updateVehicleLiveStatus id isLive now s = (None, s))
  ∧ (∀ vehicle,
       omap_get id (vehicles s) = Some vehicle →
       ∃ updated s',
         updateVehicleLiveStatus id isLive now s = (Some updated, s')
         ∧ Vehicle.isLive updated = isLive
         ∧ Vehicle.lastUpdated updated = Some now
         ∧ Vehicle.latitude updated = Vehicle.latitude vehicle
         ∧ Vehicle.longitude updated = Vehicle.longitude vehicle
         ∧ Vehicle.id updated = Vehicle.id vehicle
         ∧ Vehicle.fleetId updated = Vehicle.fleetId vehicle
         ∧ Vehicle.name updated = Vehicle.name vehicle
         ∧ Vehicle.color updated = Vehicle.color vehicle
         ∧ Vehicle.shareCode updated = Vehicle.shareCode vehicle
         ∧ omap_get id (vehicles s') = Some updated
         ∧ (∀ id', id ≠ id' →
              omap_get id' (vehicles s') = omap_get id' (vehicles s))
         ∧ (vehicles s').*1 = (vehicles s).*1
         ∧ locations s' = locations s
         ∧ fleets s' = fleets s).
Proof.
  split.
  - intros Hget. unfold updateVehicleLiveStatus. by rewrite Hget.
  - intros vehicle Hget. unfold updateVehicleLiveStatus. rewrite Hget.
    eexists _, _. split; [reflexivity|]. simpl.
    repeat split; try done.
    + apply omap_get_set_eq.
    + intros id' Hne. by apply omap_get_set_ne.
    + rewrite omap_set_keys. by rewrite Hget.
Qed.

Lemma updateVehicleLiveStatus_frame_witness :
  let s := Storage.mk [] [] [("v1", sample_vehicle "v1" "flt")] in
  updateVehicleLiveStatus "gone" false 50 s = (None, s)
  ∧ ∃ updated s',
      updateVehicleLiveStatus "v1" false 50 s = (Some updated, s')
      ∧ Vehicle.isLive updated = false
      ∧ Vehicle.color updated = "#ef4444".
Proof.
  intros s.
  destruct (updateVehicleLiveStatus_frame s "gone" false 50) as [Habsent _].
  destruct (updateVehicleLiveStatus_frame s "v1" false 50) as [_ Hpresent].
  split; [apply Habsent; reflexivity|].
  destruct (Hpresent (sample_vehicle "v1" "flt"))
    as (updated & s' & Hrun & Hlive & _ & _ & _ & _ & _ & _ & Hcolor & _);
    [reflexivity|].
  exists updated, s'. split; [exact Hrun|]. split; [exact Hlive|exact Hcolor].
Defined.

Lemma store_wf_vehicle_get s k v :
  store_wf s → (k, v) ∈ vehicles s → omap_get k (vehicles s) = Some v ∧ Vehicle.id v = k.
Proof.
  intros (_ & _ & Hnd & _ & _ & Hid) Hin. split; [by apply omap_elem_get|by apply Hid].
Qed.

Lemma store_wf_values_NoDup s : store_wf s → NoDup (omap_values (vehicles s)).
Proof.
  intros (_ & _ & Hnd & _ & _ & Hid). unfold omap_values.
  apply (NoDup_fmap_1 Vehicle.id). rewrite <- list_fmap_compose.
  erewrite list_fmap_ext; [exact Hnd|]. intros i [k v] Hi. simpl.
  apply Hid. by eapply list_elem_of_lookup_2.
Qed.

(** X6: [getVehicleByShareCode] answers with a vehicle of the store that has the
    given share secret, and with nothing exactly when no vehicle has it; in a
    store that holds its records under their ids the answer is what
    [getVehicle] answers for the vehicle's id. *)
Theorem getVehicleByShareCode_finds (s : MemStorage) (shareCode : string) :
  (∀ vehicle,
     getVehicleByShareCode shareCode s = Some vehicle →
     vehicle ∈ omap_values (vehicles s)
     ∧ Vehicle.shareCode vehicle = shareCode
     ∧ (store_wf s → getVehicle (Vehicle.id vehicle) s = Some vehicle))
  ∧ (getVehicleByShareCode shareCode s = None
     ↔ ∀ vehicle, vehicle ∈ omap_values (vehicles s) →
                  Vehicle.shareCode vehicle ≠ shareCode).
Proof.
  unfold getVehicleByShareCode. split.
  - intros vehicle [Hin Hcode%bool_decide_eq_true]%find_Some_elem.
    repeat split; try done. intros Hwf.
    apply omap_value_get in Hin as [k Hin].
    destruct (store_wf_vehicle_get s k vehicle Hwf Hin) as [Hget ->]. done.
  - rewrite find_None_iff. split.
    + intros Hall vehicle Hin. by apply (bool_decide_eq_false_1 _), Hall.
    + intros Hall vehicle Hin. by apply bool_decide_eq_false_2, Hall.
Qed.

Lemma getVehicleByShareCode_finds_witness :
  let s1 := (createFleet "flt" "adm" 0 (InsertFleet.mk "Buggies") Storage.empty).2 in
  let created := createVehicle "v1" "c1" 1 (InsertVehicle.mk "flt" "Buggy 1" None) s1 in
  getVehicleByShareCode "c1" created.2 = Some created.1
  ∧ getVehicle "v1" created.2 = Some created.1
  ∧ getVehicleByShareCode "c2" created.2 = None.
Proof.
  intros s1 created.
  destruct (getVehicleByShareCode_finds created.2 "c1") as [Hfound _].
  destruct (getVehicleByShareCode_finds created.2 "c2") as [_ Hnone].
  destruct (Hfound created.1) as (_ & _ & Hget); [reflexivity|].
  split; [reflexivity|]. split.
  - apply Hget. apply createVehicle_wf, createFleet_wf, store_wf_empty.
  - apply Hnone. by intros vehicle ->%list_elem_of_singleton.
Defined.

(** X7: For a fleet of the store that has not expired [getVehiclesByFleet]
    changes nothing and answers the vehicles of the store that name the
    fleet, in the order the store holds them; in a store that holds its
    records under their ids no vehicle is listed twice and a vehicle is listed
    exactly when [getVehicle] answers it for its id and it names the fleet. *)
Theorem getVehiclesByFleet_lists_the_fleet (s : MemStorage) (fleetId : string)
    (now : Z) (fleet : Fleet.t) :
  omap_get fleetId (fleets s) = Some fleet →
  (now ≤ Fleet.expiresAt fleet)%Z →
  let listed := (getVehiclesByFleet fleetId now s).1 in
  (getVehiclesByFleet fleetId now s).2 = s
  ∧ listed `sublist_of` omap_values (vehicles s)
  ∧ (∀ vehicle,
       vehicle ∈ listed
       ↔ vehicle ∈ omap_values (vehicles s) ∧ Vehicle.fleetId vehicle = fleetId)
  ∧ (store_wf s →
     NoDup listed
     ∧ ∀ vehicle,
         vehicle ∈ listed
         ↔ getVehicle (Vehicle.id vehicle) s = Some vehicle
           ∧ Vehicle.fleetId vehicle = fleetId).
Proof.
  intros Hget Hle listed. subst listed.
  rewrite (getVehiclesByFleet_live _ _ _ _ Hget Hle). simpl. unfold vehiclesOf.
  split; [done|]. split; [apply sublist_filter|].
  split; [intros vehicle; rewrite list_elem_of_filter; tauto|].
  intros Hwf. split; [by apply NoDup_filter, store_wf_values_NoDup|].
  intros vehicle. rewrite list_elem_of_filter. split.
  - intros [Hf Hin]. split; [|done].
    apply omap_value_get in Hin as [k Hin].
    by destruct (store_wf_vehicle_get s k vehicle Hwf Hin) as [? ->].
  - intros [Hv Hf]. split; [done|]. unfold getVehicle in Hv.
    apply omap_get_Some_elem in Hv. unfold omap_values.
    apply list_elem_of_fmap. by eexists (_, _).
Qed.

Lemma getVehiclesByFleet_lists_the_fleet_witness :
  let s := Storage.mk [] [("flt", sample_fleet "flt" 900000)]
             [("v1", sample_vehicle "v1" "flt");
              ("v2", sample_vehicle "v2" "other");
              ("v3", sample_vehicle "v3" "flt")] in
  (getVehiclesByFleet "flt" 5 s).2 = s
  ∧ (sample_vehicle "v3" "flt" ∈ (getVehiclesByFleet "flt" 5 s).1)
  ∧ (sample_vehicle "v2" "other" ∉ (getVehiclesByFleet "flt" 5 s).1).
Proof.
  intros s.
  destruct (getVehiclesByFleet_lists_the_fleet s "flt" 5 (sample_fleet "flt" 900000))
    as (Hsame & _ & Hmem & _); [reflexivity|simpl; lia|].
  split; [exact Hsame|]. split.
  - apply Hmem. split; [|reflexivity]. right. right. left.
  - intros [_ Hf]%Hmem. discriminate.
Defined.

(** X8: [createVehicle] for a fleet of the store that has not expired, under an
    id the store does not hold: the new vehicle is not live, has no position,
    carries the given fleet, name and share secret, and the given color when
    one is given; it is what [getVehicle] answers for its id, it is listed
    last by [getVehiclesByFleet], after the vehicles listed before, and the
    other vehicles, the fleets and the locations are as before. *)
Theorem createVehicle_appends (s : MemStorage) (id shareCode : string)
    (now : Z) (insertVehicle : InsertVehicle.t) (fleet : Fleet.t) :
  omap_get (InsertVehicle.fleetId insertVehicle) (fleets s) = Some fleet →
  (now ≤ Fleet.expiresAt fleet)%Z →
  omap_get id (vehicles s) = None →
  let fleetId := InsertVehicle.fleetId insertVehicle in
  let created := createVehicle id shareCode now insertVehicle s in
  Vehicle.id created.1 = id
  ∧ Vehicle.fleetId created.1 = fleetId
  ∧ Vehicle.name created.1 = InsertVehicle.name insertVehicle
  ∧ Vehicle.shareCode created.1 = shareCode
  ∧ Vehicle.isLive created.1 = false
  ∧ Vehicle.latitude created.1 = None
  ∧ Vehicle.longitude created.1 = None
  ∧ Vehicle.lastUpdated created.1 = None
  ∧ (∀ color, truthy (InsertVehicle.color insertVehicle) = Some color →
              Vehicle.color created.1 = color)
  ∧ getVehicle id created.2 = Some created.1
  ∧ (getVehiclesByFleet fleetId now created.2).1
    = (getVehiclesByFleet fleetId now s).1 ++ [created.1]
  ∧ (∀ id', id ≠ id' → getVehicle id' created.2 = getVehicle id' s)
  ∧ fleets created.2 = fleets s
  ∧ locations created.2 = locations s.
Proof.
  intros Hget Hle Hfresh fleetId created. subst created fleetId.
  unfold createVehicle. rewrite (getVehiclesByFleet_live _ _ _ _ Hget Hle).
  cbn [fst snd].
  set (vehicle := Vehicle.mk _ _ _ _ _ _ _ _ _).
  set (s' := set_vehicles _ s).
  assert (Hget' : omap_get (InsertVehicle.fleetId insertVehicle) (fleets s')
                  = Some fleet) by done.
  rewrite (getVehiclesByFleet_live _ _ _ _ Hget' Hle). cbn [fst].
  repeat split; try done.
  - intros color Hc. subst vehicle. simpl. by rewrite Hc.
  - apply omap_get_set_eq.
  - subst s'. rewrite (vehiclesOf_set_fresh _ _ _ _ Hfresh).
    by rewrite decide_True.
  - intros id' Hne. unfold getVehicle. by apply omap_get_set_ne.
Qed.

Lemma createVehicle_appends_witness :
  let s := Storage.mk [] [("flt", sample_fleet "flt" 900000)]
             [("v1", sample_vehicle "v1" "flt")] in
  let created := createVehicle "v2" "c2" 5
                   (InsertVehicle.mk "flt" "Buggy 2" (Some "#000000")) s in
  Vehicle.color created.1 = "#000000"
  ∧ (getVehiclesByFleet "flt" 5 created.2).1
    = [sample_vehicle "v1" "flt"; created.1].
Proof.
  intros s created.
  destruct (createVehicle_appends s "v2" "c2" 5
              (InsertVehicle.mk "flt" "Buggy 2" (Some "#000000"))
              (sample_fleet "flt" 900000))
    as (_ & _ & _ & _ & _ & _ & _ & _ & Hcolor & _ & Hlist & _);
    [reflexivity|simpl; lia|reflexivity|].
  split; [by apply Hcolor|]. exact Hlist.
Defined.

Lemma omap_delete_values_by_id (m : omap Vehicle.t) id :
  (∀ k v, (k, v) ∈ m → Vehicle.id v = k) →
  omap_values (omap_delete id m) = filter (λ v, Vehicle.id v ≠ id) (omap_values m).
Proof.
  unfold omap_values, omap_delete. induction m as [|[k v] m IH]; intros Hid; [done|].
  rewrite fmap_cons, !filter_cons. simpl.
  rewrite (Hid k v) by left.
  rewrite <- IH by (intros k' v' Hin; apply Hid; by right).
  by case_decide.
Qed.

(** X9: [DELETE /api/vehicles/:id] answers 204 exactly when the store holds a
    vehicle under the id and 404 otherwise; afterwards the id is not-found for
    [getVehicle] and for a further delete, the other vehicles are as before,
    and in a store that holds its records under their ids every fleet lists
    the vehicles it listed before, in the same order, without that one. *)
Theorem delete_vehicle_forgets (s : MemStorage) (id : string) (now : Z) :
  let deleted := handle (DeleteVehicle id) now s in
  (status deleted.1 = 204 ↔ id ∈ (vehicles s).*1)
  ∧ (status deleted.1 = 404 ↔ id ∉ (vehicles s).*1)
  ∧ getVehicle id deleted.2 = None
  ∧ (∀ t, handle (DeleteVehicle id) t deleted.2
          = (error 404 "Vehicle not found", deleted.2))
  ∧ (∀ id', id' ≠ id → getVehicle id' deleted.2 = getVehicle id' s)
  ∧ (store_wf s →
     ∀ fleetId, vehiclesOf fleetId deleted.2
                = filter (λ v, Vehicle.id v ≠ id) (vehiclesOf fleetId s))
  ∧ fleets deleted.2 = fleets s ∧ locations deleted.2 = locations s.
Proof.
  intros deleted. subst deleted. unfold handle, deleteVehicle, getVehicle.
  pose proof (omap_has_true id (vehicles s)) as Hhas.
  assert (Hno : omap_has id (omap_delete id (vehicles s)) = false).
  { apply not_true_is_false. intros E. apply omap_has_true in E.
    by apply (proj1 (omap_get_None_keys id _)
                    (omap_get_delete_eq id (vehicles s))) in E. }
  split; [|split; [|split; [|split; [|split; [|split]]]]].
  - destruct (omap_has id (vehicles s)); simpl.
    + split; [intros _; by apply Hhas|done].
    + split; [done|]. intros Hin. apply Hhas in Hin. done.
  - destruct (omap_has id (vehicles s)); simpl.
    + split; [done|]. intros Hn. destruct Hn. by apply Hhas.
    + split; [intros _ Hin; by apply Hhas in Hin|done].
  - destruct (omap_has id (vehicles s)); simpl; apply omap_get_delete_eq.
  - intros t. destruct (omap_has id (vehicles s)); simpl; rewrite Hno; simpl;
      by rewrite (omap_get_None_delete id (omap_delete id (vehicles s)))
        by apply omap_get_delete_eq.
  - intros id' Hne. destruct (omap_has id (vehicles s)); simpl;
      by apply omap_get_delete_ne.
  - intros (_ & _ & _ & _ & _ & Hid) fleetId.
    assert (Hlist : vehiclesOf fleetId (set_vehicles (omap_delete id (vehicles s)) s)
                    = filter (λ v, Vehicle.id v ≠ id) (vehiclesOf fleetId s)).
    { unfold vehiclesOf. simpl. rewrite (omap_delete_values_by_id _ _ Hid).
      rewrite !list_filter_filter. apply list_filter_iff. tauto. }
    by destruct (omap_has id (vehicles s)).
  - by destruct (omap_has id (vehicles s)).
Qed.

Lemma delete_vehicle_forgets_witness :
  let s := (createVehicle "v2" "c2" 2 (InsertVehicle.mk "flt" "Buggy 2" None)
              (createVehicle "v1" "c1" 1 (InsertVehicle.mk "flt" "Buggy 1" None)
                 (createFleet "flt" "adm" 0 (InsertFleet.mk "Buggies")
                    Storage.empty).2).2).2 in
  status (handle (DeleteVehicle "v1") 3 s).1 = 204
  ∧ Vehicle.name <$> vehiclesOf "flt" (handle (DeleteVehicle "v1") 3 s).2
    = ["Buggy 2"].
Proof.
  intros s.
  destruct (delete_vehicle_forgets s "v1" 3) as (Hok & _ & _ & _ & _ & Hlist & _).
  split; [apply Hok; left|].
  rewrite Hlist; [reflexivity|].
  apply createVehicle_wf, createVehicle_wf, createFleet_wf, store_wf_empty.
Defined.

(** ** The expiry purge of a fleet *)

Lemma filter_iff_elem {A} (P Q : A → Prop) `{!∀ x, Decision (P x)}
    `{!∀ x, Decision (Q x)} (l : list A) :
  (∀ x, x ∈ l → (P x ↔ Q x)) → filter P l = filter Q l.
Proof.
  induction l as [|a l IH]; intros Hiff; [done|].
  rewrite !filter_cons.
  assert (Hrest : filter P l = filter Q l)
    by (apply IH; intros x Hx; apply Hiff; by right).
  destruct (decide (P a)) as [Ha|Ha].
  - rewrite decide_True by (apply Hiff; [left|done]). by rewrite Hrest.
  - rewrite decide_False; [done|]. intros Hq. apply Ha. apply Hiff; [left|done].
Qed.

Lemma cascade_is_filter id (entries acc : omap Vehicle.t) :
  foldl (cascade_step id) acc entries
  = filter (λ kv, kv.1 ∉ (filter (λ e, Vehicle.fleetId e.2 = id) entries).*1) acc.
Proof.
  revert acc. induction entries as [|[k v] entries IH]; intros acc.
  - simpl. induction acc as [|a acc IHa]; [done|].
    rewrite filter_cons, decide_True by (simpl; apply not_elem_of_nil).
    by rewrite <- IHa.
  - simpl. rewrite IH. unfold cascade_step. simpl. rewrite filter_cons. simpl.
    case_bool_decide as Hf.
    + rewrite decide_True by done. unfold omap_delete.
      rewrite list_filter_filter. apply list_filter_iff. intros [k' v']. simpl.
      rewrite not_elem_of_cons. tauto.
    + by rewrite decide_False by done.
Qed.

Lemma deleteVehiclesOf_is_filter id (vs : omap Vehicle.t) :
  NoDup vs.*1 →
  deleteVehiclesOf id vs = filter (λ kv, Vehicle.fleetId kv.2 ≠ id) vs.
Proof.
  intros Hnd. unfold deleteVehiclesOf, omap_entries. rewrite cascade_is_filter.
  apply filter_iff_elem. intros [k' v'] Hin. simpl. split.
  - intros Hnot Hf. apply Hnot. apply list_elem_of_fmap. exists (k', v').
    split; [done|]. by apply list_elem_of_filter.
  - intros Hf ([k0 v0] & Hk & [Hf0 Hin0]%list_elem_of_filter)%list_elem_of_fmap.
    simpl in *. subst k0.
    assert (v0 = v') as ->; [|done].
    pose proof (omap_elem_get _ _ _ Hnd Hin) as H1.
    pose proof (omap_elem_get _ _ _ Hnd Hin0) as H2. congruence.
Qed.

Lemma vehiclesOf_other_fleet (vs : omap Vehicle.t) id fleetId :
  fleetId ≠ id →
  filter (λ v, Vehicle.fleetId v = fleetId)
         (filter (λ kv : string * Vehicle.t, Vehicle.fleetId kv.2 ≠ id) vs).*2
  = filter (λ v, Vehicle.fleetId v = fleetId) vs.*2.
Proof.
  intros Hne. induction vs as [|[k v] vs IH]; [done|].
  rewrite filter_cons. cbn [snd]. case_decide as Hf.
  - rewrite !fmap_cons, !filter_cons. cbn [snd]. by rewrite IH.
  - rewrite fmap_cons, filter_cons. cbn [snd].
    rewrite decide_False; [done|]. intros Hv. congruence.
Qed.

(** X10: In a store that holds its records under their ids, the read that finds a
    fleet expired removes the fleet and exactly the vehicles that name it:
    the vehicles of the other fleets stay, in their order, the other fleets
    and the locations are as before, and the store still holds its records
    under their ids. *)
Theorem expiry_purge_frame (s : MemStorage) (id : string) (now : Z)
    (fleet : Fleet.t) :
  store_wf s →
  omap_get id (fleets s) = Some fleet →
  (Fleet.expiresAt fleet < now)%Z →
  let s' := (getFleet id now s).2 in
  locations s' = locations s
  ∧ vehicles s' = filter (λ kv, Vehicle.fleetId kv.2 ≠ id) (vehicles s)
  ∧ (∀ id', id' ≠ id → omap_get id' (fleets s') = omap_get id' (fleets s))
  ∧ (∀ k vehicle, getVehicle k s = Some vehicle →
                  Vehicle.fleetId vehicle ≠ id →
                  getVehicle k s' = Some vehicle)
  ∧ (∀ fleetId, fleetId ≠ id → vehiclesOf fleetId s' = vehiclesOf fleetId s)
  ∧ store_wf s'.
Proof.
  intros Hwf Hget Hlt s'.
  assert (Hwf' : store_wf s') by apply getFleet_wf, Hwf.
  subst s'. rewrite (getFleet_expired _ _ _ _ Hget Hlt) in *. cbn [snd] in *.
  pose proof Hwf as (_ & _ & Hnd & _).
  cbn [locations vehicles fleets].
  rewrite (deleteVehiclesOf_is_filter _ _ Hnd) in Hwf' |- *.
  split; [done|]. split; [done|].
  split; [intros id' Hne; by apply omap_get_delete_ne|].
  split; [|split; [|done]].
  - intros k vehicle Hv Hf. unfold getVehicle in *. cbn [vehicles].
    destruct Hwf' as (_ & _ & Hnd' & _). cbn [vehicles] in Hnd'.
    apply omap_elem_get; [done|]. apply list_elem_of_filter. split; [done|].
    by apply omap_get_Some_elem.
  - intros fleetId Hne. unfold vehiclesOf, omap_values. cbn [vehicles].
    by apply vehiclesOf_other_fleet.
Qed.

Lemma expiry_purge_frame_witness :
  let s := (createVehicle "v2" "c2" 3 (InsertVehicle.mk "two" "Cart" None)
              (createVehicle "v1" "c1" 2 (InsertVehicle.mk "one" "Buggy" None)
                 (createFleet "two" "adm2" 1000 (InsertFleet.mk "Carts")
                    (createFleet "one" "adm1" 0 (InsertFleet.mk "Buggies")
                       Storage.empty).2).2).2).2 in
  (vehicles (getFleet "one" 86400001 s).2).*1 = ["v2"]
  ∧ Vehicle.name <$> vehiclesOf "two" (getFleet "one" 86400001 s).2 = ["Cart"].
Proof.
  intros s.
  assert (Hwf : store_wf s)
    by (apply createVehicle_wf, createVehicle_wf, createFleet_wf,
          createFleet_wf, store_wf_empty).
  destruct (expiry_purge_frame s "one" 86400001
              (Fleet.mk "one" "Buggies" 0 86400000 "adm1") Hwf)
    as (_ & Hvs & _ & _ & Hother & _); [reflexivity|simpl; lia|].
  split; [by rewrite Hvs|]. rewrite Hother; [reflexivity|done].
Defined.

(** X11: [GET /api/vehicles/share/:shareCode] for a share secret the store finds:
    with the fleet of the vehicle in the store and unexpired it answers 200
    and changes nothing; with the fleet not in the store it answers 404 and
    changes nothing, so the vehicle stays; with the fleet expired it answers
    404 and the purge removes the vehicle, so that neither its id nor its
    share secret finds it again. *)
Theorem share_link_follows_the_fleet (s : MemStorage) (shareCode : string)
    (now : Z) (vehicle : Vehicle.t) :
  getVehicleByShareCode shareCode s = Some vehicle →
  let answer := handle (GetVehicleShare shareCode) now s in
  (∀ fleet,
     omap_get (Vehicle.fleetId vehicle) (fleets s) = Some fleet →
     (now ≤ Fleet.expiresAt fleet)%Z →
     answer
     = ({| status := 200;
           body := JObj [ ("vehicle", JObj (Vehicle_fields vehicle));
                          ("fleetName", JStr (Fleet.name fleet));
                          ("fleetId", JStr (Fleet.id fleet)) ] |}, s))
  ∧ (omap_get (Vehicle.fleetId vehicle) (fleets s) = None →
     answer = (error 404 "Fleet expired", s))
  ∧ (∀ fleet,
       omap_get (Vehicle.fleetId vehicle) (fleets s) = Some fleet →
       (Fleet.expiresAt fleet < now)%Z →
       answer.1 = error 404 "Fleet expired"
       ∧ getVehicleByShareCode shareCode answer.2 ≠ Some vehicle
       ∧ (store_wf s → getVehicle (Vehicle.id vehicle) answer.2 = None)).
Proof.
  intros Hfind answer. subst answer. unfold handle. rewrite Hfind.
  split; [|split].
  - intros fleet Hget Hle. by rewrite (getFleet_live _ _ _ _ Hget Hle).
  - intros Hget. by rewrite (getFleet_absent _ _ _ Hget).
  - intros fleet Hget Hlt. rewrite (getFleet_expired _ _ _ _ Hget Hlt).
    cbn [fst snd]. split; [done|]. split.
    + unfold getVehicleByShareCode. cbn [vehicles].
      intros [Hin _]%find_Some_elem. apply omap_value_get in Hin as [k Hin].
      apply cascade_survivors in Hin as [Hin Hall].
      by destruct (Hall vehicle Hin).
    + intros Hwf. unfold getVehicleByShareCode in Hfind.
      apply find_Some_elem in Hfind as [Hin _].
      apply omap_value_get in Hin as [k Hin].
      destruct (store_wf_vehicle_get s k vehicle Hwf Hin) as [Hv ->].
      unfold getVehicle. cbn [vehicles]. by eapply deleteVehiclesOf_member.
Qed.

Lemma share_link_follows_the_fleet_witness :
  let s := (createVehicle "v1" "c1" 2 (InsertVehicle.mk "one" "Buggy" None)
              (createFleet "one" "adm1" 0 (InsertFleet.mk "Buggies")
                 Storage.empty).2).2 in
  status (handle (GetVehicleShare "c1") 5 s).1 = 200
  ∧ (handle (GetVehicleShare "c1") 86400001 s).1 = error 404 "Fleet expired"
  ∧ getVehicle "v1" (handle (GetVehicleShare "c1") 86400001 s).2 = None.
Proof.
  intros s.
  assert (Hwf : store_wf s)
    by (apply createVehicle_wf, createFleet_wf, store_wf_empty).
  destruct (share_link_follows_the_fleet s "c1" 5
              (createVehicle "v1" "c1" 2 (InsertVehicle.mk "one" "Buggy" None)
                 (createFleet "one" "adm1" 0 (InsertFleet.mk "Buggies")
                    Storage.empty).2).1) as (Hlive & _); [reflexivity|].
  destruct (share_link_follows_the_fleet s "c1" 86400001
              (createVehicle "v1" "c1" 2 (InsertVehicle.mk "one" "Buggy" None)
                 (createFleet "one" "adm1" 0 (InsertFleet.mk "Buggies")
                    Storage.empty).2).1) as (_ & _ & Hdead); [reflexivity|].
  destruct (Hdead (Fleet.mk "one" "Buggies" 0 86400000 "adm1"))
    as (Hanswer & _ & Hgone); [reflexivity|simpl; lia|].
  split; [|split; [exact Hanswer|by apply Hgone]].
  rewrite (Hlive (Fleet.mk "one" "Buggies" 0 86400000 "adm1"));
    [reflexivity|reflexivity|simpl; lia].
Defined.

(** * The branches of the message handler *)

(** The equations of [on_message], one for each branch of its chain. *)

Lemma on_message_subscribe ws message now vars st locId :
  type message = "subscribe" → truthy (locationId message) = Some locId →
  on_message ws message now vars st
  = let vars' := Build_Vars (Some locId) (sharingLocationId vars)
                   (subscribedFleetId vars) (sharingVehicleId vars) in
    let st1 := emit [Log ("Viewer subscribed to location " +:+ locId) "websocket"]
                 (with_locationSubscribers
                    (subscribe_to locId ws (locationSubscribers st)) st) in
    match getLocation locId now (storage st) with
    | (Some location, s) =>
        (vars', emit [Send ws (MsgLocation location)] (with_storage s st1))
    | (None, s) => (vars', with_storage s st1)
    end.
Proof. intros Htype Hid. unfold on_message. rewrite Htype, Hid. reflexivity. Qed.

Lemma on_message_share ws message now vars st locId :
  type message = "share" → truthy (locationId message) = Some locId →
  on_message ws message now vars st
  = (Build_Vars (subscribedLocationId vars) (Some locId)
       (subscribedFleetId vars) (sharingVehicleId vars),
     emit [Log ("Sharer started broadcasting location " +:+ locId) "websocket"]
       (with_sharerConnections (<[locId := ws]> (sharerConnections st)) st)).
Proof. intros Htype Hid. unfold on_message. rewrite Htype, Hid. reflexivity. Qed.

Lemma on_message_update ws message now vars st sharing :
  type message = "update" → truthy (sharingLocationId vars) = Some sharing →
  on_message ws message now vars st
  = match Schema.locationUpdateSchema (data message) with
    | None => (vars, st)
    | Some parsed =>
        match updateLocation sharing parsed now (storage st) with
        | (Some updated, s) =>
            (vars, notify (locationSubscribers st !! sharing)
                     (MsgLocation updated) (with_storage s st))
        | (None, s) => (vars, with_storage s st)
        end
    end.
Proof.
  intros Htype Hid. unfold on_message. rewrite Htype, Hid. reflexivity.
Qed.

Lemma on_message_stop ws message now vars st sharing :
  type message = "stop" → truthy (sharingLocationId vars) = Some sharing →
  on_message ws message now vars st
  = let s :=
      match getLocation sharing now (storage st) with
      | (Some location, s) =>
          (updateLocation sharing
             (LocationUpdate.mk (Location.latitude location)
                                (Location.longitude location)) now s).2
      | (None, s) => s
      end in
    let st1 := notify (locationSubscribers st !! sharing) MsgStopped
                 (with_storage s st) in
    (Build_Vars (subscribedLocationId vars) None
       (subscribedFleetId vars) (sharingVehicleId vars),
     with_sharerConnections (delete sharing (sharerConnections st1)) st1).
Proof.
  intros Htype Hid. unfold on_message. rewrite Htype, Hid.
  cbv beta iota zeta.
  by destruct (getLocation sharing now (storage st)) as [[?|] ?].
Qed.

Lemma on_message_subscribeFleet ws message now vars st fleetId :
  type message = "subscribeFleet" → truthy (Routes.fleetId message) = Some fleetId →
  on_message ws message now vars st
  = let st1 := emit [Log ("Viewer subscribed to fleet " +:+ fleetId) "websocket"]
                 (with_fleetSubscribers
                    (subscribe_to fleetId ws (fleetSubscribers st)) st) in
    (Build_Vars (subscribedLocationId vars) (sharingLocationId vars)
       (Some fleetId) (sharingVehicleId vars),
     emit [Send ws (MsgVehicles (getVehiclesByFleet fleetId now (storage st)).1)]
       (with_storage (getVehiclesByFleet fleetId now (storage st)).2 st1)).
Proof.
  intros Htype Hid. unfold on_message. rewrite Htype, Hid.
  cbn [storage emit with_fleetSubscribers].
  by destruct (getVehiclesByFleet fleetId now (storage st)).
Qed.

Lemma on_message_shareVehicle ws message now vars st vehicleId :
  type message = "shareVehicle" → truthy (Routes.vehicleId message) = Some vehicleId →
  on_message ws message now vars st
  = (Build_Vars (subscribedLocationId vars) (sharingLocationId vars)
       (subscribedFleetId vars) (Some vehicleId),
     emit [Log ("Vehicle " +:+ vehicleId +:+ " started sharing") "websocket"]
       (with_storage (updateVehicleLiveStatus vehicleId true now (storage st)).2
          (with_vehicleSharerConnections
             (<[vehicleId := ws]> (vehicleSharerConnections st)) st))).
Proof.
  intros Htype Hid. unfold on_message. rewrite Htype, Hid.
  reflexivity.
Qed.

Lemma on_message_updateVehicle ws message now vars st sharing :
  type message = "updateVehicle" → truthy (sharingVehicleId vars) = Some sharing →
  on_message ws message now vars st
  = match Schema.vehicleUpdateSchema (data message) with
    | None => (vars, st)
    | Some parsed =>
        match updateVehicle sharing parsed now (storage st) with
        | (Some updated, s) =>
            (vars, notify (fleetSubscribers st !! Vehicle.fleetId updated)
                     (MsgVehicleUpdate updated) (with_storage s st))
        | (None, s) => (vars, with_storage s st)
        end
    end.
Proof.
  intros Htype Hid. unfold on_message. rewrite Htype, Hid.
  reflexivity.
Qed.

Lemma on_message_stopVehicle ws message now vars st sharing :
  type message = "stopVehicle" → truthy (sharingVehicleId vars) = Some sharing →
  on_message ws message now vars st
  = let st1 :=
      match getVehicle sharing (storage st) with
      | Some vehicle =>
          notify (fleetSubscribers st !! Vehicle.fleetId vehicle)
            (MsgVehicleStopped sharing)
            (with_storage
               (updateVehicleLiveStatus sharing false now (storage st)).2 st)
      | None => st
      end in
    (Build_Vars (subscribedLocationId vars) (sharingLocationId vars)
       (subscribedFleetId vars) None,
     with_vehicleSharerConnections
       (delete sharing (vehicleSharerConnections st1)) st1).
Proof.
  intros Htype Hid. unfold on_message. rewrite Htype, Hid.
  reflexivity.
Qed.

Ltac fall_through message vars :=
  unfold on_message;
  repeat match goal with H : _ = _ |- _ => rewrite H end;
  reflexivity.

Lemma on_message_ignored ws message now vars st :
  unusable message vars → on_message ws message now vars st = (vars, st).
Proof.
  unfold unusable. intros [Hnone|[[[Ht|Ht] Hid]|[[[Ht|Ht] Hid]|[[Ht Hid]|[[Ht Hid]|[[Ht|Ht] Hid]]]]]].
  - destruct Hnone as (? & ? & ? & ? & ? & ? & ? & ?).
    unfold on_message.
    rewrite !bool_decide_eq_false_2 by done. reflexivity.
  - fall_through message vars.
  - fall_through message vars.
  - fall_through message vars.
  - fall_through message vars.
  - fall_through message vars.
  - fall_through message vars.
  - fall_through message vars.
  - fall_through message vars.
Qed.

Lemma on_message_cases message vars :
  (∃ k, type message = "subscribe" ∧ truthy (locationId message) = Some k)
  ∨ (∃ k, type message = "share" ∧ truthy (locationId message) = Some k)
  ∨ (∃ k, type message = "update" ∧ truthy (sharingLocationId vars) = Some k)
  ∨ (∃ k, type message = "stop" ∧ truthy (sharingLocationId vars) = Some k)
  ∨ (∃ k, type message = "subscribeFleet"
          ∧ truthy (Routes.fleetId message) = Some k)
  ∨ (∃ k, type message = "shareVehicle"
          ∧ truthy (Routes.vehicleId message) = Some k)
  ∨ (∃ k, type message = "updateVehicle"
          ∧ truthy (sharingVehicleId vars) = Some k)
  ∨ (∃ k, type message = "stopVehicle"
          ∧ truthy (sharingVehicleId vars) = Some k)
  ∨ unusable message vars.
Proof.
  destruct (decide (type message = "subscribe")) as [Ht|?].
  { destruct (truthy (locationId message)) eqn:E; [left; eauto|].
    do 8 right. right. left. auto. }
  destruct (decide (type message = "share")) as [Ht|?].
  { destruct (truthy (locationId message)) eqn:E; [right; left; eauto|].
    do 8 right. right. left. auto. }
  destruct (decide (type message = "update")) as [Ht|?].
  { destruct (truthy (sharingLocationId vars)) eqn:E; [do 2 right; left; eauto|].
    do 8 right. do 2 right. left. auto. }
  destruct (decide (type message = "stop")) as [Ht|?].
  { destruct (truthy (sharingLocationId vars)) eqn:E; [do 3 right; left; eauto|].
    do 8 right. do 2 right. left. auto. }
  destruct (decide (type message = "subscribeFleet")) as [Ht|?].
  { destruct (truthy (Routes.fleetId message)) eqn:E; [do 4 right; left; eauto|].
    do 8 right. do 3 right. left. auto. }
  destruct (decide (type message = "shareVehicle")) as [Ht|?].
  { destruct (truthy (Routes.vehicleId message)) eqn:E; [do 5 right; left; eauto|].
    do 8 right. do 4 right. left. auto. }
  destruct (decide (type message = "updateVehicle")) as [Ht|?].
  { destruct (truthy (sharingVehicleId vars)) eqn:E; [do 6 right; left; eauto|].
    do 8 right. do 5 right. auto. }
  destruct (decide (type message = "stopVehicle")) as [Ht|?].
  { destruct (truthy (sharingVehicleId vars)) eqn:E; [do 7 right; left; eauto|].
    do 8 right. do 5 right. auto. }
  do 8 right. left. by repeat split.
Qed.

(** * Further properties of the handlers *)

(** Splits a goal about [on_message] into the branches of its chain and
    rewrites with the equation of each. *)
Ltac on_message_cases ws message now vars st :=
  let k := fresh "k" in
  let Ht := fresh "Htype" in
  let Hk := fresh "Hkey" in
  let He := fresh "Hignored" in
  destruct (on_message_cases message vars)
    as [(k & Ht & Hk)|[(k & Ht & Hk)|[(k & Ht & Hk)|[(k & Ht & Hk)
       |[(k & Ht & Hk)|[(k & Ht & Hk)|[(k & Ht & Hk)|[(k & Ht & Hk)|He]]]]]]]];
  [ rewrite ?(on_message_subscribe _ _ _ _ _ _ Ht Hk)
  | rewrite ?(on_message_share _ _ _ _ _ _ Ht Hk)
  | rewrite ?(on_message_update _ _ _ _ _ _ Ht Hk)
  | rewrite ?(on_message_stop _ _ _ _ _ _ Ht Hk)
  | rewrite ?(on_message_subscribeFleet _ _ _ _ _ _ Ht Hk)
  | rewrite ?(on_message_shareVehicle _ _ _ _ _ _ Ht Hk)
  | rewrite ?(on_message_updateVehicle _ _ _ _ _ _ Ht Hk)
  | rewrite ?(on_message_stopVehicle _ _ _ _ _ _ Ht Hk)
  | rewrite ?(on_message_ignored _ _ _ _ _ He) ];
  cbv zeta.

Lemma forEach_send_inv ready subscribers m c m' :
  Send c m' ∈ forEach_send ready subscribers m →
  c ∈ subscribers ∧ ready c = OPEN ∧ m' = m.
Proof.
  induction subscribers as [|s subscribers IH]; simpl.
  - by intros ?%elem_of_nil.
  - intros [Hin|Hin]%elem_of_app.
    + case_decide; [|by apply elem_of_nil in Hin].
      apply list_elem_of_singleton in Hin. injection Hin as -> ->.
      split; [by left|done].
    + destruct (IH Hin) as (? & ? & ?). split; [by right|done].
Qed.

(** A handler sends only to the socket it serves or to sockets that are
    open. *)
Lemma on_message_frame ws message now vars st :
  readyState (on_message ws message now vars st).2 = readyState st
  ∧ ∃ es, output (on_message ws message now vars st).2 = output st ++ es
          ∧ ∀ c m, Send c m ∈ es → c = ws ∨ readyState st c = OPEN.
Proof.
  on_message_cases ws message now vars st.
  all: unfold notify; repeat case_match; simpl.
  all: split; [done|].
  all: rewrite <- ?app_assoc.
  all: try (eexists; split; [reflexivity|]).
  all: try (exists []; split; [by rewrite app_nil_r|]).
  all: intros c0 m0 Hin.
  all: repeat match goal with
       | H : _ ∈ _ ++ _ |- _ => apply elem_of_app in H as [H|H]
       | H : _ ∈ [_] |- _ => apply list_elem_of_singleton in H
       | H : _ ∈ [] |- _ => by apply elem_of_nil in H
       | H : Send _ _ ∈ forEach_send _ _ _ |- _ =>
           apply forEach_send_inv in H as (_ & H & _)
       end.
  all: try done.
  all: try (injection Hin as -> _; by left).
  all: try by right.
Qed.

Lemma getVehiclesByFleet_wf fleetId now s :
  store_wf s → store_wf (getVehiclesByFleet fleetId now s).2.
Proof. rewrite getVehiclesByFleet_store. apply getFleet_wf. Qed.

(** Carries [store_wf] along the equations that name the results of the
    operations of the store. *)
Ltac wf_from H lemma :=
  let Hn := fresh "Hwf" in
  pose proof lemma as Hn; rewrite H in Hn; simpl in Hn;
  specialize (Hn ltac:(assumption)); clear H.

Ltac wf_chain :=
  repeat match goal with
         | H : getLocation ?id ?now ?s = _ |- _ =>
             wf_from H (getLocation_wf id now s)
         | H : updateLocation ?id ?u ?now ?s = _ |- _ =>
             wf_from H (updateLocation_wf id u now s)
         | H : getVehiclesByFleet ?id ?now ?s = _ |- _ =>
             wf_from H (getVehiclesByFleet_wf id now s)
         | H : updateVehicle ?id ?u ?now ?s = _ |- _ =>
             wf_from H (updateVehicle_wf id u now s)
         end.

Lemma on_message_wf ws message now vars st :
  store_wf (storage st) → store_wf (storage (on_message ws message now vars st).2).
Proof.
  intros Hwf. on_message_cases ws message now vars st.
  all: unfold notify; repeat case_match; simpl in *; wf_chain.
  all: eauto using updateLocation_wf, updateVehicleLiveStatus_wf,
         getVehiclesByFleet_wf.
Qed.

Lemma on_close_wf ws now vars st :
  store_wf (storage st) → store_wf (storage (on_close ws now vars st)).
Proof.
  intros Hwf. unfold on_close.
  destruct (close_subscriber_frame ws vars st) as (Hs1 & _).
  destruct (close_sharer_frame ws vars (close_subscriber ws vars st)) as (Hs2 & _).
  destruct (close_fleet_subscriber_frame ws vars
              (close_sharer ws vars (close_subscriber ws vars st))) as (Hs3 & _).
  set (st3 := close_fleet_subscriber _ _ _) in *.
  assert (Hwf3 : store_wf (storage st3)) by (by rewrite Hs3, Hs2, Hs1).
  clearbody st3. unfold close_vehicle_sharer, notify.
  repeat case_match; simpl; eauto using updateVehicleLiveStatus_wf.
Qed.

(** X12: The store of every reachable state holds each record under its own id,
    once. *)
Theorem reachable_store_wf (sys : System) :
  reachable sys → store_wf (storage (server sys)).
Proof.
  induction 1 as [|sys sys' _ IH Hstep]; [apply store_wf_empty|].
  destruct Hstep as [sys ws _|sys ws vars message now _|sys ws vars _
                    |sys ws vars now _|sys req now]; simpl.
  - done.
  - unfold deliver.
    pose proof (on_message_wf ws message now vars (server sys) IH) as Hwf.
    by destruct (on_message ws message now vars (server sys)).
  - done.
  - by apply on_close_wf.
  - by apply handle_wf.
Qed.

(** ** The subscriber registries *)

Lemma set_add_wf ws subscribers :
  NoDup subscribers → set_add ws subscribers ≠ [] ∧ NoDup (set_add ws subscribers).
Proof.
  intros Hnd. unfold set_add. case_decide as Hin.
  - split; [|done]. intros ->. by apply elem_of_nil in Hin.
  - split; [by destruct subscribers|].
    apply NoDup_app. split; [done|]. split; [|apply NoDup_singleton].
    by intros x Hx ->%list_elem_of_singleton.
Qed.

Lemma subscribe_to_wf key ws registry :
  sets_wf registry → sets_wf (subscribe_to key ws registry).
Proof.
  intros Hwf key' subscribers. unfold subscribe_to.
  destruct (decide (key = key')) as [->|Hne].
  - rewrite lookup_insert_eq. intros [= <-]. apply set_add_wf.
    destruct (registry !! key') as [subs|] eqn:E; simpl; [|apply NoDup_nil_2].
    by apply (Hwf key').
  - rewrite lookup_insert_ne by done. apply Hwf.
Qed.

Lemma unsubscribe_from_wf key ws registry :
  sets_wf registry → sets_wf (unsubscribe_from key ws registry).
Proof.
  intros Hwf key' subscribers. unfold unsubscribe_from.
  destruct (registry !! key) as [subs|] eqn:E; [|apply Hwf].
  case_decide as Hlen.
  - destruct (decide (key = key')) as [->|Hne].
    + by rewrite lookup_delete_eq.
    + rewrite lookup_delete_ne by done. apply Hwf.
  - destruct (decide (key = key')) as [->|Hne].
    + rewrite lookup_insert_eq. intros [= <-]. split.
      * intros Hnil. by rewrite Hnil in Hlen.
      * apply NoDup_filter. by apply (Hwf key').
    + rewrite lookup_insert_ne by done. apply Hwf.
Qed.

Lemma on_message_sets_wf ws message now vars st :
  sets_wf (locationSubscribers st) ∧ sets_wf (fleetSubscribers st) →
  sets_wf (locationSubscribers (on_message ws message now vars st).2)
  ∧ sets_wf (fleetSubscribers (on_message ws message now vars st).2).
Proof.
  intros [Hl Hf]. on_message_cases ws message now vars st.
  all: unfold notify; repeat case_match; simpl.
  all: split; auto using subscribe_to_wf.
Qed.

Lemma on_close_sets_wf ws now vars st :
  sets_wf (locationSubscribers st) ∧ sets_wf (fleetSubscribers st) →
  sets_wf (locationSubscribers (on_close ws now vars st))
  ∧ sets_wf (fleetSubscribers (on_close ws now vars st)).
Proof.
  intros [Hl Hf].
  unfold on_close, close_vehicle_sharer, close_fleet_subscriber, close_sharer,
    close_subscriber, notify.
  repeat case_match; simpl; split; auto using unsubscribe_from_wf.
Qed.

(** X13: In every reachable state no subscriber set of a registry is empty and no
    socket is twice in one. *)
Theorem reachable_sets_wf (sys : System) :
  reachable sys →
  sets_wf (locationSubscribers (server sys))
  ∧ sets_wf (fleetSubscribers (server sys)).
Proof.
  induction 1 as [|sys sys' _ IH Hstep]; [by split; intros ? ? ?|].
  destruct Hstep as [sys ws _|sys ws vars message now _|sys ws vars _
                    |sys ws vars now _|sys req now]; simpl.
  - done.
  - unfold deliver.
    pose proof (on_message_sets_wf ws message now vars (server sys) IH) as Hwf.
    by destruct (on_message ws message now vars (server sys)).
  - done.
  - by apply on_close_sets_wf.
  - done.
Qed.


(** ** The publisher registries are write-only *)

Lemma agree_refl_publishers st sharers vehicleSharers :
  agree_but_publishers
    (with_sharerConnections sharers
       (with_vehicleSharerConnections vehicleSharers st)) st.
Proof. by repeat split. Qed.

Lemma on_message_agree ws message now vars a b :
  agree_but_publishers a b →
  (on_message ws message now vars a).1 = (on_message ws message now vars b).1
  ∧ agree_but_publishers (on_message ws message now vars a).2
      (on_message ws message now vars b).2.
Proof.
  destruct a, b. unfold agree_but_publishers. simpl.
  intros (-> & -> & -> & -> & ->).
  on_message_cases ws message now vars st.
  all: unfold notify; simpl; repeat case_match; simplify_eq/=; done.
Qed.

(** * Further properties of the handlers: what they send *)

Lemma forEach_send_map ready subscribers m :
  forEach_send ready subscribers m
  = (λ c, Send c m) <$> filter (λ c, ready c = OPEN) subscribers.
Proof.
  induction subscribers as [|c subscribers IH]; [done|].
  simpl. rewrite filter_cons, IH. by case_decide.
Qed.

Lemma on_close_frame ws now vars st :
  readyState (on_close ws now vars st) = readyState st
  ∧ ∃ es, output (on_close ws now vars st) = output st ++ es
          ∧ ∀ c m, Send c m ∈ es → readyState st c = OPEN.
Proof.
  unfold on_close, close_vehicle_sharer, close_fleet_subscriber, close_sharer,
    close_subscriber, notify.
  repeat case_match; simpl; (split; [done|]); rewrite <- ?app_assoc;
    first [ eexists; split; [reflexivity|]
          | exists []; split; [by rewrite app_nil_r|] ];
    intros c0 m0 Hin;
    repeat match goal with
           | H : _ ∈ _ ++ _ |- _ => apply elem_of_app in H as [H|H]
           | H : _ ∈ [_] |- _ => apply list_elem_of_singleton in H
           | H : _ ∈ [] |- _ => by apply elem_of_nil in H
           | H : Send _ _ ∈ forEach_send _ _ _ |- _ =>
               apply forEach_send_inv in H as (_ & H & _)
           end; done.
Qed.

(** X14: The handlers only add to the output and never change the state of a
    socket.  What the message handler sends goes to the socket it serves or
    to a socket that is open; what the close handler sends goes to sockets
    that are open. *)
Theorem handlers_send_to_open_sockets (ws : conn) (message : Message)
    (now : Z) (vars : Vars) (st : Server) :
  let st1 := (on_message ws message now vars st).2 in
  let st2 := on_close ws now vars st in
  readyState st1 = readyState st
  ∧ output st1 = output st ++ emitted st st1
  ∧ (∀ c m, Send c m ∈ emitted st st1 → c = ws ∨ readyState st c = OPEN)
  ∧ readyState st2 = readyState st
  ∧ output st2 = output st ++ emitted st st2
  ∧ (∀ c m, Send c m ∈ emitted st st2 → readyState st c = OPEN).
Proof.
  intros st1 st2. subst st1 st2. unfold emitted.
  destruct (on_message_frame ws message now vars st) as (Hr1 & es1 & Ho1 & Hs1).
  destruct (on_close_frame ws now vars st) as (Hr2 & es2 & Ho2 & Hs2).
  rewrite Ho1, Ho2, !drop_app_length. by repeat split.
Qed.

Lemma handlers_send_to_open_sockets_witness :
  let vars := Build_Vars None (Some "loc") None None in
  let message := update_message (JNum (Finite 41 0)) (JNum (Finite (-74) 0)) in
  Forall (λ e, match e with
               | Send c _ => c = 1 ∨ readyState (server live_share) c = OPEN
               | _ => True
               end)
    (emitted (server live_share) (on_message 1 message 4 vars (server live_share)).2).
Proof.
  intros vars message.
  destruct (handlers_send_to_open_sockets 1 message 4 vars (server live_share))
    as (_ & _ & Hsend & _).
  apply Forall_forall. intros e Hin. destruct e; [|done]. by eapply Hsend.
Defined.

Ltac agree_parts part :=
  let a := fresh "a" in let b := fresh "b" in
  intros a b; destruct a, b; unfold agree_but_publishers; simpl;
  intros (-> & -> & -> & -> & ->); unfold part, notify; simpl;
  repeat case_match; simplify_eq/=; done.

Lemma close_subscriber_agree ws vars :
  ∀ a b, agree_but_publishers a b →
         agree_but_publishers (close_subscriber ws vars a) (close_subscriber ws vars b).
Proof. agree_parts close_subscriber. Qed.

Lemma close_sharer_agree ws vars :
  ∀ a b, agree_but_publishers a b →
         agree_but_publishers (close_sharer ws vars a) (close_sharer ws vars b).
Proof. agree_parts close_sharer. Qed.

Lemma close_fleet_subscriber_agree ws vars :
  ∀ a b, agree_but_publishers a b →
         agree_but_publishers (close_fleet_subscriber ws vars a)
           (close_fleet_subscriber ws vars b).
Proof. agree_parts close_fleet_subscriber. Qed.

Lemma close_vehicle_sharer_agree ws now vars :
  ∀ a b, agree_but_publishers a b →
         agree_but_publishers (close_vehicle_sharer ws now vars a)
           (close_vehicle_sharer ws now vars b).
Proof. agree_parts close_vehicle_sharer. Qed.

Lemma on_close_ignores_publishers ws now vars st sharers vehicleSharers :
  agree_but_publishers
    (on_close ws now vars
       (with_sharerConnections sharers
          (with_vehicleSharerConnections vehicleSharers st)))
    (on_close ws now vars st).
Proof.
  unfold on_close.
  apply close_vehicle_sharer_agree, close_fleet_subscriber_agree,
    close_sharer_agree, close_subscriber_agree, agree_refl_publishers.
Qed.

(** X15: The two publisher registries are never read: whatever they hold, a
    message and a close have the same effect on the closure variables, the
    store, the subscriber registries and the output.  In particular a
    connection whose registration was replaced by a later [share] still
    publishes. *)
Theorem publisher_registries_are_never_read (ws : conn) (message : Message)
    (now : Z) (vars : Vars) (st : Server)
    (sharers vehicleSharers : gmap string conn) :
  let st' := with_sharerConnections sharers
               (with_vehicleSharerConnections vehicleSharers st) in
  let r := on_message ws message now vars st in
  let r' := on_message ws message now vars st' in
  let c := on_close ws now vars st in
  let c' := on_close ws now vars st' in
  r'.1 = r.1
  ∧ storage r'.2 = storage r.2
  ∧ output r'.2 = output r.2
  ∧ locationSubscribers r'.2 = locationSubscribers r.2
  ∧ fleetSubscribers r'.2 = fleetSubscribers r.2
  ∧ storage c' = storage c
  ∧ output c' = output c
  ∧ locationSubscribers c' = locationSubscribers c
  ∧ fleetSubscribers c' = fleetSubscribers c.
Proof.
  intros st' r r' c c'. subst st' r r' c c'.
  destruct (on_message_agree ws message now vars _ _
              (agree_refl_publishers st sharers vehicleSharers))
    as (? & ? & ? & ? & ? & ?).
  destruct (on_close_ignores_publishers ws now vars st sharers vehicleSharers)
    as (? & ? & ? & ? & ?).
  by repeat split.
Qed.

Lemma publisher_registries_are_never_read_witness :
  let vars := Build_Vars None (Some "loc") None None in
  let message := update_message (JNum (Finite 41 0)) (JNum (Finite (-74) 0)) in
  let superseded := with_sharerConnections {["loc" := 7]} (server live_share) in
  output (on_message 1 message 4 vars superseded).2
  = output (on_message 1 message 4 vars (server live_share)).2.
Proof.
  intros vars message superseded.
  destruct (publisher_registries_are_never_read 1 message 4 vars
              (server live_share) {["loc" := 7]}
              (vehicleSharerConnections (server live_share)))
    as (_ & _ & Hout & _).
  exact Hout.
Defined.

Lemma reachable_store_wf_witness :
  store_wf (storage (server live_share))
  ∧ omap_get "loc" (locations (storage (server live_share)))
    ≠ None.
Proof.
  split; [apply (reachable_store_wf live_share live_share_reachable)|].
  discriminate.
Defined.

Lemma reachable_sets_wf_witness :
  sets_wf (locationSubscribers (server live_share))
  ∧ locationSubscribers (server live_share) !! "loc" = Some [2].
Proof.
  destruct (reachable_sets_wf live_share live_share_reachable) as [Hl _].
  split; [exact Hl|reflexivity].
Defined.

(** * Further properties of the handlers: the branches *)

Lemma notify_emit subscribers m st :
  notify subscribers m st
  = emit ((λ c, Send c m) <$> filter (λ c, readyState st c = OPEN)
                                (default [] subscribers)) st.
Proof.
  destruct subscribers as [subs|]; simpl.
  - by rewrite forEach_send_map.
  - destruct st. unfold emit. simpl. by rewrite app_nil_r.
Qed.

Lemma emitted_emit es st : emitted st (emit es st) = es.
Proof. unfold emitted, emit. simpl. by rewrite drop_app_length. Qed.

Lemma emitted_same st st' : output st' = output st → emitted st st' = [].
Proof. unfold emitted. intros ->. by rewrite drop_all. Qed.

(** X16: An [update] of a sharing connection whose payload passes the schema is
    written with [updateLocation]; when that answers a record, the record is
    sent once to each subscriber of the location whose socket is open, in the
    order of subscription, the others are skipped, and nothing else is sent
    or logged; when it answers not-found (the location is gone or expired)
    nothing is sent.  The closure variables and the registries stay as they
    were. *)
Theorem update_is_fanned_out (ws : conn) (message : Message) (now : Z)
    (vars : Vars) (st : Server) (sharing : string) (parsed : LocationUpdate.t) :
  type message = "update" →
  truthy (sharingLocationId vars) = Some sharing →
  Schema.locationUpdateSchema (data message) = Some parsed →
  let r := on_message ws message now vars st in
  let written := updateLocation sharing parsed now (storage st) in
  let audience := filter (λ c, readyState st c = OPEN)
                    (default [] (locationSubscribers st !! sharing)) in
  r.1 = vars
  ∧ storage r.2 = written.2
  ∧ locationSubscribers r.2 = locationSubscribers st
  ∧ sharerConnections r.2 = sharerConnections st
  ∧ emitted st r.2
    = match written.1 with
      | Some updated => (λ c, Send c (MsgLocation updated)) <$> audience
      | None => []
      end.
Proof.
  intros Htype Hkey Hparsed r written audience. subst r written audience.
  rewrite (on_message_update _ _ _ _ _ _ Htype Hkey), Hparsed.
  destruct (updateLocation sharing parsed now (storage st)) as [[updated|] s].
  - rewrite notify_emit. cbn [fst snd]. split_and!; try done.
    unfold emitted, emit. simpl. by rewrite drop_app_length.
  - cbn [fst snd]. split_and!; try done. by apply emitted_same.
Qed.

Lemma update_is_fanned_out_witness :
  let vars := Build_Vars None (Some "loc") None None in
  let message := update_message (JNum (Finite 41 0)) (JNum (Finite (-74) 0)) in
  ∃ updated,
    emitted (server live_share) (on_message 1 message 4 vars (server live_share)).2
    = [Send 2 (MsgLocation updated)]
    ∧ Location.latitude updated = Finite 41 0.
Proof.
  intros vars message.
  destruct (update_is_fanned_out 1 message 4 vars (server live_share) "loc"
              (LocationUpdate.mk (Finite 41 0) (Finite (-74) 0)))
    as (_ & _ & _ & _ & Hsent); [reflexivity..|].
  eexists. split; [exact Hsent|reflexivity].
Defined.

(** X17: An [updateVehicle] of a connection that shares a vehicle, with a payload
    that passes the schema, is written with [updateVehicle], whatever the
    state of the fleet; when the store holds the vehicle the updated record is
    sent once to each subscriber of the vehicle's fleet whose socket is open,
    in the order of subscription, and nothing else is sent or logged; when
    the store does not hold the vehicle nothing is sent and the store is
    unchanged. *)
Theorem updateVehicle_is_fanned_out (ws : conn) (message : Message) (now : Z)
    (vars : Vars) (st : Server) (sharing : string) (parsed : VehicleUpdate.t) :
  type message = "updateVehicle" →
  truthy (sharingVehicleId vars) = Some sharing →
  Schema.vehicleUpdateSchema (data message) = Some parsed →
  let r := on_message ws message now vars st in
  let written := updateVehicle sharing parsed now (storage st) in
  r.1 = vars
  ∧ storage r.2 = written.2
  ∧ fleetSubscribers r.2 = fleetSubscribers st
  ∧ vehicleSharerConnections r.2 = vehicleSharerConnections st
  ∧ emitted st r.2
    = match written.1 with
      | Some updated =>
          (λ c, Send c (MsgVehicleUpdate updated))
          <$> filter (λ c, readyState st c = OPEN)
                (default [] (fleetSubscribers st !! Vehicle.fleetId updated))
      | None => []
      end
  ∧ (getVehicle sharing (storage st) = None →
     written.1 = None ∧ storage r.2 = storage st).
Proof.
  intros Htype Hkey Hparsed r written. subst r written.
  rewrite (on_message_updateVehicle _ _ _ _ _ _ Htype Hkey), Hparsed.
  assert (Habsent : getVehicle sharing (storage st) = None →
                    updateVehicle sharing parsed now (storage st) = (None, storage st)).
  { unfold getVehicle, updateVehicle. by intros ->. }
  destruct (updateVehicle sharing parsed now (storage st)) as [[updated|] s].
  - rewrite notify_emit. cbn [fst snd]. split_and!; try done.
    + unfold emitted, emit. simpl. by rewrite drop_app_length.
    + intros Hno. by specialize (Habsent Hno).
  - cbn [fst snd]. split_and!; try done.
    + by apply emitted_same.
    + intros Hno. specialize (Habsent Hno). by injection Habsent as ->.
Qed.

Lemma updateVehicle_is_fanned_out_witness :
  let message := Build_Message "updateVehicle" None None None
                   (JObj [("latitude", JNum (Finite 41 0));
                          ("longitude", JNum (Finite (-74) 0))]) in
  ∃ updated,
    emitted vehicle_state (on_message 4 message 5 vehicle_vars vehicle_state).2
    = [Send 3 (MsgVehicleUpdate updated)]
    ∧ Vehicle.latitude updated = Some (Finite 41 0).
Proof.
  intros message.
  destruct (updateVehicle_is_fanned_out 4 message 5 vehicle_vars vehicle_state
              "v1" (VehicleUpdate.mk (Finite 41 0) (Finite (-74) 0)))
    as (_ & _ & _ & _ & Hsent & _); [reflexivity..|].
  eexists. split; [exact Hsent|reflexivity].
Defined.

Lemma elem_of_set_add c ws subscribers :
  c ∈ set_add ws subscribers ↔ c = ws ∨ c ∈ subscribers.
Proof.
  unfold set_add. case_decide as Hin.
  - split; [by right|]. by intros [->|?].
  - rewrite elem_of_app, list_elem_of_singleton. tauto.
Qed.

Lemma subscribe_to_spec key ws registry :
  (∃ subscribers,
      subscribe_to key ws registry !! key = Some subscribers
      ∧ ∀ c, c ∈ subscribers ↔ c = ws ∨ c ∈ default [] (registry !! key))
  ∧ (∀ key', key' ≠ key → subscribe_to key ws registry !! key' = registry !! key')
  ∧ (ws ∈ default [] (registry !! key) → subscribe_to key ws registry = registry).
Proof.
  unfold subscribe_to. split_and!.
  - eexists. split; [apply lookup_insert_eq|]. intros c. apply elem_of_set_add.
  - intros key' Hne. by apply lookup_insert_ne.
  - intros Hin. unfold set_add. rewrite decide_True by done.
    destruct (registry !! key) as [subscribers|] eqn:E; simpl in *.
    + by apply insert_id.
    + by apply elem_of_nil in Hin.
Qed.

(** X18: A [subscribe] with a usable location id records the id as the
    connection's subscription, puts the socket in the subscriber set of that
    id (creating the set when there is none, changing nothing when the socket
    is already in it) and touches the set of no other id, so an earlier
    subscription of the same connection stays registered; it logs one line
    and then sends the socket the record [getLocation] answers, or nothing
    when the location is unknown or expired. *)
Theorem subscribe_registers_and_sends_snapshot (ws : conn) (message : Message)
    (now : Z) (vars : Vars) (st : Server) (locId : string) :
  type message = "subscribe" →
  truthy (locationId message) = Some locId →
  let r := on_message ws message now vars st in
  let read := getLocation locId now (storage st) in
  r.1 = Build_Vars (Some locId) (sharingLocationId vars)
          (subscribedFleetId vars) (sharingVehicleId vars)
  ∧ storage r.2 = read.2
  ∧ (∃ subscribers,
        locationSubscribers r.2 !! locId = Some subscribers
        ∧ ∀ c, c ∈ subscribers
               ↔ c = ws ∨ c ∈ default [] (locationSubscribers st !! locId))
  ∧ (∀ other, other ≠ locId →
       locationSubscribers r.2 !! other = locationSubscribers st !! other)
  ∧ (ws ∈ default [] (locationSubscribers st !! locId) →
     locationSubscribers r.2 = locationSubscribers st)
  ∧ emitted st r.2
    = Log ("Viewer subscribed to location " +:+ locId) "websocket"
      :: match read.1 with
         | Some location => [Send ws (MsgLocation location)]
         | None => []
         end.
Proof.
  intros Htype Hid r read. subst r read.
  rewrite (on_message_subscribe _ _ _ _ _ _ Htype Hid). cbv zeta.
  destruct (subscribe_to_spec locId ws (locationSubscribers st))
    as (Hkey & Hother & Hsame).
  destruct (getLocation locId now (storage st)) as [[location|] s];
    cbn [fst snd]; (split_and!; [done|done|exact Hkey|exact Hother|exact Hsame|]);
    unfold emitted, emit; simpl.
  - by rewrite <- app_assoc, drop_app_length.
  - by rewrite drop_app_length.
Qed.

Lemma subscribe_registers_and_sends_snapshot_witness :
  emitted sharing_state (on_message 7 (subscribe_message "loc") 4
                           (Build_Vars None None None None) sharing_state).2
  = [Log "Viewer subscribed to location loc" "websocket";
     Send 7 (MsgLocation (sample_location 900000))].
Proof.
  by destruct (subscribe_registers_and_sends_snapshot 7 (subscribe_message "loc") 4
                 (Build_Vars None None None None) sharing_state "loc"
                 eq_refl eq_refl) as (_ & _ & _ & _ & _ & Hsent).
Defined.

(** X19: A [subscribeFleet] with a usable fleet id records the id, puts the socket
    in the subscriber set of that fleet and touches no other set; it logs one
    line and always sends the socket exactly one [vehicles] message, which
    carries what [getVehiclesByFleet] answers: the empty list when the fleet
    is unknown or expired. *)
Theorem subscribeFleet_registers_and_sends_vehicles (ws : conn)
    (message : Message) (now : Z) (vars : Vars) (st : Server) (fleetId : string) :
  type message = "subscribeFleet" →
  truthy (Routes.fleetId message) = Some fleetId →
  let r := on_message ws message now vars st in
  let listed := getVehiclesByFleet fleetId now (storage st) in
  r.1 = Build_Vars (subscribedLocationId vars) (sharingLocationId vars)
          (Some fleetId) (sharingVehicleId vars)
  ∧ storage r.2 = listed.2
  ∧ (∃ subscribers,
        fleetSubscribers r.2 !! fleetId = Some subscribers
        ∧ ∀ c, c ∈ subscribers
               ↔ c = ws ∨ c ∈ default [] (fleetSubscribers st !! fleetId))
  ∧ (∀ other, other ≠ fleetId →
       fleetSubscribers r.2 !! other = fleetSubscribers st !! other)
  ∧ emitted st r.2
    = [Log ("Viewer subscribed to fleet " +:+ fleetId) "websocket";
       Send ws (MsgVehicles listed.1)]
  ∧ ((getFleet fleetId now (storage st)).1 = None → listed.1 = []).
Proof.
  intros Htype Hid r listed. subst r listed.
  rewrite (on_message_subscribeFleet _ _ _ _ _ _ Htype Hid). cbv zeta.
  destruct (subscribe_to_spec fleetId ws (fleetSubscribers st))
    as (Hkey & Hother & _).
  cbn [fst snd]. split_and!; [done|done|exact Hkey|exact Hother| |].
  - unfold emitted, emit. simpl. by rewrite <- app_assoc, drop_app_length.
  - unfold getVehiclesByFleet.
    by destruct (getFleet fleetId now (storage st)) as [[fleet|] s]; simpl.
Qed.

Lemma subscribeFleet_registers_and_sends_vehicles_witness :
  let message := Build_Message "subscribeFleet" None (Some "flt") None JUndefined in
  emitted vehicle_state (on_message 9 message 5 (Build_Vars None None None None)
                           vehicle_state).2
  = [Log "Viewer subscribed to fleet flt" "websocket";
     Send 9 (MsgVehicles [sample_vehicle "v1" "flt"])].
Proof.
  intros message.
  by destruct (subscribeFleet_registers_and_sends_vehicles 9 message 5
                 (Build_Vars None None None None) vehicle_state "flt"
                 eq_refl eq_refl) as (_ & _ & _ & _ & Hsent & _).
Defined.

(** X20: A [stop] of a sharing connection ends the share on the server side: the
    connection no longer shares, the publisher entry of the location is
    removed, and one [stopped] message goes to each subscriber of the
    location whose socket is open, in the order of subscription, whether or
    not the location still exists.  A location that is still readable is
    rewritten with its own coordinates, so only [lastUpdated] changes and
    [isLive] is left as it was. *)
Theorem stop_ends_the_share (ws : conn) (message : Message) (now : Z)
    (vars : Vars) (st : Server) (sharing : string) :
  type message = "stop" →
  truthy (sharingLocationId vars) = Some sharing →
  let r := on_message ws message now vars st in
  r.1 = Build_Vars (subscribedLocationId vars) None
          (subscribedFleetId vars) (sharingVehicleId vars)
  ∧ sharerConnections r.2 = delete sharing (sharerConnections st)
  ∧ locationSubscribers r.2 = locationSubscribers st
  ∧ emitted st r.2
    = (λ c, Send c MsgStopped)
      <$> filter (λ c, readyState st c = OPEN)
            (default [] (locationSubscribers st !! sharing))
  ∧ (∀ location,
       (getLocation sharing now (storage st)).1 = Some location →
       omap_get sharing (locations (storage r.2))
       = Some (Location.mk (Location.id location) (Location.latitude location)
                 (Location.longitude location) (Location.name location)
                 (Location.createdAt location) (Location.expiresAt location)
                 (Location.isLive location) (Some now))).
Proof.
  intros Htype Hid r. subst r.
  rewrite (on_message_stop _ _ _ _ _ _ Htype Hid). cbv zeta.
  rewrite notify_emit. cbn [fst snd]. split_and!; try done.
  - unfold emitted, emit. simpl. by rewrite drop_app_length.
  - intros location Hread.
    destruct (getLocation sharing now (storage st)) as [[l|] s] eqn:Hget;
      [|done].
    simpl in Hread. injection Hread as ->.
    destruct (getLocation_Some _ _ _ _ _ Hget) as (Hstored & -> & Hlive).
    unfold updateLocation. rewrite Hget. simpl. apply omap_get_set_eq.
Qed.

Lemma stop_ends_the_share_witness :
  let message := Build_Message "stop" None None None JUndefined in
  emitted (server live_share) (on_message 1 message 4 sharing_vars (server live_share)).2
  = [Send 2 MsgStopped].
Proof.
  intros message.
  by destruct (stop_ends_the_share 1 message 4 sharing_vars (server live_share)
                 "loc" eq_refl eq_refl) as (_ & _ & _ & Hsent & _).
Defined.

(** X21: A [shareVehicle] with a usable vehicle id makes the connection the
    publisher of that id, replacing whoever was registered and whether or not
    such a vehicle exists, and tells nobody: one log line is all it emits.
    A vehicle the store holds is marked live and stamped with the time, with
    every other field and every other vehicle left as it was; when the store
    holds no such vehicle the store is unchanged. *)
Theorem shareVehicle_marks_the_vehicle_live (ws : conn) (message : Message)
    (now : Z) (vars : Vars) (st : Server) (vehicleId : string) :
  type message = "shareVehicle" →
  truthy (Routes.vehicleId message) = Some vehicleId →
  let r := on_message ws message now vars st in
  r.1 = Build_Vars (subscribedLocationId vars) (sharingLocationId vars)
          (subscribedFleetId vars) (Some vehicleId)
  ∧ vehicleSharerConnections r.2 !! vehicleId = Some ws
  ∧ (∀ other, other ≠ vehicleId →
       vehicleSharerConnections r.2 !! other = vehicleSharerConnections st !! other
       ∧ getVehicle other (storage r.2) = getVehicle other (storage st))
  ∧ fleetSubscribers r.2 = fleetSubscribers st
  ∧ emitted st r.2
    = [Log ("Vehicle " +:+ vehicleId +:+ " started sharing") "websocket"]
  ∧ match getVehicle vehicleId (storage st) with
    | Some vehicle =>
        getVehicle vehicleId (storage r.2)
        = Some (Vehicle.mk (Vehicle.id vehicle) (Vehicle.fleetId vehicle)
                  (Vehicle.name vehicle) (Vehicle.color vehicle)
                  (Vehicle.shareCode vehicle) (Vehicle.latitude vehicle)
                  (Vehicle.longitude vehicle) true (Some now))
    | None => storage r.2 = storage st
    end.
Proof.
  intros Htype Hid r. subst r.
  rewrite (on_message_shareVehicle _ _ _ _ _ _ Htype Hid).
  cbn [fst snd]. split_and!; try done.
  - simpl. apply lookup_insert_eq.
  - intros other Hne. split.
    + simpl. by apply lookup_insert_ne.
    + simpl. unfold getVehicle, updateVehicleLiveStatus.
      destruct (omap_get vehicleId (vehicles (storage st))); [|done].
      simpl. by apply omap_get_set_ne.
  - unfold emitted, emit. simpl. by rewrite drop_app_length.
  - simpl. unfold getVehicle, updateVehicleLiveStatus.
    destruct (omap_get vehicleId (vehicles (storage st))) as [vehicle|]; [|done].
    simpl. apply omap_get_set_eq.
Qed.

Lemma shareVehicle_marks_the_vehicle_live_witness :
  let message := Build_Message "shareVehicle" None None (Some "v1") JUndefined in
  getVehicle "v1" (storage (on_message 8 message 5 (Build_Vars None None None None)
                              vehicle_state).2)
  = Some (Vehicle.mk "v1" "flt" "Buggy" "#ef4444" "share-v1" None None true (Some 5%Z)).
Proof.
  intros message.
  destruct (shareVehicle_marks_the_vehicle_live 8 message 5
              (Build_Vars None None None None) vehicle_state "v1"
              eq_refl eq_refl) as (_ & _ & _ & _ & _ & Hlive).
  exact Hlive.
Defined.

(** X22: A [stopVehicle] of a connection that shares a vehicle ends the share: the
    connection no longer shares, and the publisher entry of the vehicle is
    removed.  A vehicle the store holds is marked not live and stamped with
    the time, and one [vehicleStopped] message naming it goes to each
    subscriber of its fleet whose socket is open; when the store holds no
    such vehicle nothing is written and nothing is sent. *)
Theorem stopVehicle_ends_the_share (ws : conn) (message : Message) (now : Z)
    (vars : Vars) (st : Server) (sharing : string) :
  type message = "stopVehicle" →
  truthy (sharingVehicleId vars) = Some sharing →
  let r := on_message ws message now vars st in
  r.1 = Build_Vars (subscribedLocationId vars) (sharingLocationId vars)
          (subscribedFleetId vars) None
  ∧ vehicleSharerConnections r.2 = delete sharing (vehicleSharerConnections st)
  ∧ fleetSubscribers r.2 = fleetSubscribers st
  ∧ match getVehicle sharing (storage st) with
    | Some vehicle =>
        getVehicle sharing (storage r.2)
        = Some (Vehicle.mk (Vehicle.id vehicle) (Vehicle.fleetId vehicle)
                  (Vehicle.name vehicle) (Vehicle.color vehicle)
                  (Vehicle.shareCode vehicle) (Vehicle.latitude vehicle)
                  (Vehicle.longitude vehicle) false (Some now))
        ∧ emitted st r.2
          = (λ c, Send c (MsgVehicleStopped sharing))
            <$> filter (λ c, readyState st c = OPEN)
                  (default [] (fleetSubscribers st !! Vehicle.fleetId vehicle))
    | None => storage r.2 = storage st ∧ emitted st r.2 = []
    end.
Proof.
  intros Htype Hid r. subst r.
  rewrite (on_message_stopVehicle _ _ _ _ _ _ Htype Hid). cbv zeta.
  cbn [fst snd].
  destruct (getVehicle sharing (storage st)) as [vehicle|] eqn:Hget.
  - rewrite notify_emit. split_and!; try done.
    + simpl. unfold getVehicle, updateVehicleLiveStatus in *.
      rewrite Hget. simpl. apply omap_get_set_eq.
    + unfold emitted, emit. simpl. by rewrite drop_app_length.
  - split_and!; try done. by apply emitted_same.
Qed.

Lemma stopVehicle_ends_the_share_witness :
  let message := Build_Message "stopVehicle" None None None JUndefined in
  emitted vehicle_state (on_message 4 message 5 vehicle_vars vehicle_state).2
  = [Send 3 (MsgVehicleStopped "v1")].
Proof.
  intros message.
  destruct (stopVehicle_ends_the_share 4 message 5 vehicle_vars vehicle_state
              "v1" eq_refl eq_refl) as (_ & _ & _ & Hvehicle).
  simpl in Hvehicle. by destruct Hvehicle as [_ Hsent].
Defined.

Lemma emit_grows e es st st' :
  output st' = output st → emit (e :: es) st' ≠ st.
Proof.
  intros Hout Heq. apply (f_equal (λ s, length (output s))) in Heq.
  simpl in Heq. rewrite length_app, Hout in Heq. simpl in Heq. lia.
Qed.

(** X23: The handler leaves the closure variables and the whole server state
    untouched, sending and logging nothing, when the message is one it has no
    use for: a type outside the eight of the chain, or a missing or empty id
    for the branch of its type.  For the six types other than [update] and
    [updateVehicle] the converse holds as well: a usable message always
    leaves a trace, in the output or in the closure variables. *)
Theorem unusable_messages_are_ignored (ws : conn) (message : Message) (now : Z)
    (vars : Vars) (st : Server) :
  (unusable message vars → on_message ws message now vars st = (vars, st))
  ∧ (type message ≠ "update" → type message ≠ "updateVehicle" →
     on_message ws message now vars st = (vars, st) → unusable message vars).
Proof.
  split; [apply on_message_ignored|].
  intros Hnu Hnv Heq.
  destruct (on_message_cases message vars)
    as [(k & Ht & Hk)|[(k & Ht & Hk)|[(k & Ht & Hk)|[(k & Ht & Hk)|
        [(k & Ht & Hk)|[(k & Ht & Hk)|[(k & Ht & Hk)|[(k & Ht & Hk)|He]]]]]]]];
    [exfalso..|done]; try done.
  - rewrite (on_message_subscribe _ _ _ _ _ _ Ht Hk) in Heq. cbv zeta in Heq.
    destruct (getLocation k now (storage st)) as [[l|] s];
      injection Heq as _ Heq;
      apply (f_equal (λ s, length (output s))) in Heq; simpl in Heq;
      rewrite !length_app in Heq; simpl in Heq; lia.
  - rewrite (on_message_share _ _ _ _ _ _ Ht Hk) in Heq.
    injection Heq as _ Heq. by apply emit_grows in Heq.
  - rewrite (on_message_stop _ _ _ _ _ _ Ht Hk) in Heq. cbv zeta in Heq.
    injection Heq as Heq _. destruct vars as [a [b|] c d]; [|done].
    by injection Heq.
  - rewrite (on_message_subscribeFleet _ _ _ _ _ _ Ht Hk) in Heq. cbv zeta in Heq.
    injection Heq as _ Heq.
    apply (f_equal (λ s, length (output s))) in Heq; simpl in Heq;
      rewrite !length_app in Heq; simpl in Heq; lia.
  - rewrite (on_message_shareVehicle _ _ _ _ _ _ Ht Hk) in Heq.
    injection Heq as _ Heq. by apply emit_grows in Heq.
  - rewrite (on_message_stopVehicle _ _ _ _ _ _ Ht Hk) in Heq. cbv zeta in Heq.
    injection Heq as Heq _. destruct vars as [a b c [d|]]; [|done].
    by injection Heq.
Qed.

Lemma unusable_messages_are_ignored_witness :
  let message := Build_Message "subscribe" (Some EmptyString) None None JUndefined in
  on_message 7 message 4 sharing_vars sharing_state = (sharing_vars, sharing_state).
Proof.
  intros message.
  apply (proj1 (unusable_messages_are_ignored 7 message 4 sharing_vars sharing_state)).
  unfold unusable. right. left. split; [by left|reflexivity].
Defined.

Lemma unsubscribe_from_spec key ws registry :
  (∀ c, (∃ subscribers', unsubscribe_from key ws registry !! key = Some subscribers'
                         ∧ c ∈ subscribers')
        ↔ c ≠ ws ∧ ∃ subscribers, registry !! key = Some subscribers
                                  ∧ c ∈ subscribers)
  ∧ (∀ key', key' ≠ key → unsubscribe_from key ws registry !! key' = registry !! key').
Proof.
  unfold unsubscribe_from.
  destruct (registry !! key) as [subscribers|] eqn:E.
  - case_decide as Hlen.
    + apply length_zero_iff_nil in Hlen. split.
      * intros c. rewrite lookup_delete_eq. split.
        { by intros (? & ? & _). }
        intros (Hne & subs & [= <-] & Hin).
        assert (Hc : c ∈ set_delete ws subscribers) by by apply set_delete_elem.
        rewrite Hlen in Hc. by apply elem_of_nil in Hc.
      * intros key' Hne. by apply lookup_delete_ne.
    + split.
      * intros c. rewrite lookup_insert_eq. split.
        { intros (subs' & [= <-] & [Hin Hne]%set_delete_elem). eauto. }
        intros (Hne & subs & [= <-] & Hin).
        eexists. split; [done|]. by apply set_delete_elem.
      * intros key' Hne. by apply lookup_insert_ne.
  - split; [|done]. intros c. rewrite E. split.
    + by intros (? & ? & _).
    + by intros (_ & ? & ? & _).
Qed.

Lemma on_close_subscriber_registries ws now vars st :
  locationSubscribers (on_close ws now vars st)
  = match truthy (subscribedLocationId vars) with
    | Some subscribed => unsubscribe_from subscribed ws (locationSubscribers st)
    | None => locationSubscribers st
    end
  ∧ fleetSubscribers (on_close ws now vars st)
    = match truthy (subscribedFleetId vars) with
      | Some subscribed => unsubscribe_from subscribed ws (fleetSubscribers st)
      | None => fleetSubscribers st
      end.
Proof.
  unfold on_close, close_vehicle_sharer, close_fleet_subscriber, close_sharer,
    close_subscriber.
  destruct (truthy (subscribedLocationId vars)),
    (truthy (sharingLocationId vars)), (truthy (subscribedFleetId vars)),
    (truthy (sharingVehicleId vars)); cbn -[unsubscribe_from];
    rewrite ?notify_emit; cbn -[unsubscribe_from];
    try (destruct (getVehicle _ _)); rewrite ?notify_emit; by cbn -[unsubscribe_from].
Qed.

(** X24: Closing a connection removes its socket from the subscriber set of the
    location it subscribed to last, and from the set of the fleet it
    subscribed to last; every other socket stays in those sets, and the sets
    of all other ids are left exactly as they were, so a socket that had
    subscribed to an earlier id stays registered there. *)
Theorem close_unsubscribes_the_last_subscription (ws : conn) (now : Z)
    (vars : Vars) (st : Server) :
  let st' := on_close ws now vars st in
  (∀ subscribed c,
      truthy (subscribedLocationId vars) = Some subscribed →
      (∃ subscribers', locationSubscribers st' !! subscribed = Some subscribers'
                       ∧ c ∈ subscribers')
      ↔ c ≠ ws ∧ ∃ subscribers, locationSubscribers st !! subscribed = Some subscribers
                                ∧ c ∈ subscribers)
  ∧ (∀ other, truthy (subscribedLocationId vars) ≠ Some other →
       locationSubscribers st' !! other = locationSubscribers st !! other)
  ∧ (∀ subscribed c,
      truthy (subscribedFleetId vars) = Some subscribed →
      (∃ subscribers', fleetSubscribers st' !! subscribed = Some subscribers'
                       ∧ c ∈ subscribers')
      ↔ c ≠ ws ∧ ∃ subscribers, fleetSubscribers st !! subscribed = Some subscribers
                                ∧ c ∈ subscribers)
  ∧ (∀ other, truthy (subscribedFleetId vars) ≠ Some other →
       fleetSubscribers st' !! other = fleetSubscribers st !! other).
Proof.
  intros st'. subst st'.
  destruct (on_close_subscriber_registries ws now vars st) as [-> ->].
  split_and!.
  - intros subscribed c ->. apply unsubscribe_from_spec.
  - intros other Hne. destruct (truthy (subscribedLocationId vars)) as [k|]; [|done].
    apply unsubscribe_from_spec. congruence.
  - intros subscribed c ->. apply unsubscribe_from_spec.
  - intros other Hne. destruct (truthy (subscribedFleetId vars)) as [k|]; [|done].
    apply unsubscribe_from_spec. congruence.
Qed.

Lemma close_unsubscribes_the_last_subscription_witness :
  let vars := Build_Vars (Some "loc") None None None in
  let subscribed := (on_message 7 (subscribe_message "loc") 4
                       (Build_Vars None None None None) sharing_state).2 in
  ∃ subscribers',
    locationSubscribers (on_close 2 5 vars subscribed) !! "loc" = Some subscribers'
    ∧ 7 ∈ subscribers'.
Proof.
  intros vars subscribed.
  destruct (close_unsubscribes_the_last_subscription 2 5 vars subscribed)
    as (Hkept & _).
  apply (Hkept "loc" 7 eq_refl). split; [done|].
  exists [2; 7]. split; [reflexivity|]. right. by left.
Defined.

(** * Further properties of the routes: vehicles *)

Lemma find_fresh_last {A} (f : A → bool) (l : list A) (y : A) :
  (∀ x, x ∈ l → f x = false) → f y = true → List.find f (l ++ [y]) = Some y.
Proof.
  intros Hall Hy. induction l as [|x l IH]; simpl.
  - by rewrite Hy.
  - rewrite (Hall x) by left. apply IH. intros x' Hin. apply Hall. by right.
Qed.

Lemma getFleet_None_vehicles id now s k v :
  (getFleet id now s).1 = None →
  getVehicle k (getFleet id now s).2 = Some v → getVehicle k s = Some v.
Proof.
  unfold getFleet, getVehicle.
  destruct (omap_get id (fleets s)) as [fleet|]; [|done].
  case_bool_decide; [|done]. simpl. intros _.
  unfold deleteVehiclesOf. apply cascade_only_deletes.
Qed.

(** X25: [POST /api/vehicles] answers 201 exactly when the body passes the schema
    and the store holds the named fleet unexpired.  A body the schema rejects
    is answered 400 with the store untouched; a fleet that is unknown or
    expired is answered 404, the store being what the read of the fleet left.
    Whenever the answer is not 201 no vehicle has been added: every vehicle
    of the store afterwards was there before. *)
Theorem post_vehicle_needs_a_live_fleet (s : MemStorage) (insert : InsertVehicle.t)
    (id shareCode : string) (now : Z) :
  let r := handle (PostVehicle insert id shareCode) now s in
  let checked := getFleet (InsertVehicle.fleetId insert) now s in
  (status r.1 = 201
   ↔ Schema.insertVehicleSchema insert = true
     ∧ ∃ fleet, omap_get (InsertVehicle.fleetId insert) (fleets s) = Some fleet
                ∧ (now ≤ Fleet.expiresAt fleet)%Z)
  ∧ (Schema.insertVehicleSchema insert = false →
     r = (error 400 "Invalid vehicle data", s))
  ∧ (Schema.insertVehicleSchema insert = true → checked.1 = None →
     r = (error 404 "Fleet not found", checked.2))
  ∧ (status r.1 ≠ 201 →
     ∀ k vehicle, getVehicle k r.2 = Some vehicle → getVehicle k s = Some vehicle).
Proof.
  intros r checked. subst r checked. unfold handle, post_vehicle.
  destruct (Schema.insertVehicleSchema insert).
  - destruct (getFleet (InsertVehicle.fleetId insert) now s) as [[fleet|] s1] eqn:Hget.
    + destruct (getFleet_Some _ _ _ _ _ Hget) as (Hin & Hle & ->).
      destruct (createVehicle id shareCode now insert s) as [vehicle s2].
      cbn [fst snd status]. split_and!; try done.
      split; [eauto|done].
    + cbn [fst snd status error]. split_and!; try done.
      * split; [done|]. intros (_ & fleet & Hin & Hle).
        by rewrite (getFleet_live _ _ _ _ Hin Hle) in Hget.
      * intros _ k vehicle Hk.
        apply (getFleet_None_vehicles (InsertVehicle.fleetId insert) now).
        { by rewrite Hget. }
        by rewrite Hget.
  - cbn [fst snd status error]. split_and!; try done.
    split; [done|]. by intros [? _].
Qed.

Lemma post_vehicle_needs_a_live_fleet_witness :
  let s := Storage.mk [] [("flt", sample_fleet "flt" 900000)]
             [("v1", sample_vehicle "v1" "flt")] in
  status (handle (PostVehicle (InsertVehicle.mk "flt" "Buggy 2" None) "v2" "c2") 5 s).1
  = 201
  ∧ status (handle (PostVehicle (InsertVehicle.mk "flt" "Buggy 2" None) "v2" "c2")
              900001 s).1 ≠ 201.
Proof.
  intros s. split.
  - apply (post_vehicle_needs_a_live_fleet s (InsertVehicle.mk "flt" "Buggy 2" None)
             "v2" "c2" 5).
    split; [reflexivity|]. eexists. split; [reflexivity|]. simpl. lia.
  - intros Hcreated.
    apply (post_vehicle_needs_a_live_fleet s (InsertVehicle.mk "flt" "Buggy 2" None)
             "v2" "c2" 900001) in Hcreated.
    destruct Hcreated as (_ & fleet & [= <-] & Hle). simpl in Hle. lia.
Defined.

(** X26: A vehicle created through [POST /api/vehicles] for an unexpired fleet,
    under an id and a share secret no vehicle of the store has, is served
    back until the fleet expires: by [GET /api/vehicles/:id] with the body of
    the creation, by [GET /api/vehicles/share/:shareCode] with the same
    record and the name and id of the fleet, and by
    [GET /api/fleets/:fleetId/vehicles] as the last element, after the
    vehicles the fleet listed before.  None of these reads changes the
    store. *)
Theorem created_vehicle_is_served (s : MemStorage) (insert : InsertVehicle.t)
    (id shareCode : string) (now : Z) (fleet : Fleet.t) :
  Schema.insertVehicleSchema insert = true →
  omap_get (InsertVehicle.fleetId insert) (fleets s) = Some fleet →
  (now ≤ Fleet.expiresAt fleet)%Z →
  omap_get id (vehicles s) = None →
  (∀ vehicle, vehicle ∈ omap_values (vehicles s) →
              Vehicle.shareCode vehicle ≠ shareCode) →
  let fleetId := InsertVehicle.fleetId insert in
  let created := handle (PostVehicle insert id shareCode) now s in
  status created.1 = 201
  ∧ ∀ t, (t ≤ Fleet.expiresAt fleet)%Z →
      handle (GetVehicle id) t created.2
      = ({| status := 200; body := body created.1 |}, created.2)
      ∧ handle (GetVehicleShare shareCode) t created.2
        = ({| status := 200;
              body := JObj [ ("vehicle", body created.1);
                             ("fleetName", JStr (Fleet.name fleet));
                             ("fleetId", JStr (Fleet.id fleet)) ] |}, created.2)
      ∧ handle (GetFleetVehicles fleetId) t created.2
        = ({| status := 200;
              body := JArr (map (λ v, JObj (Vehicle_fields v)) (vehiclesOf fleetId s)
                            ++ [body created.1]) |}, created.2).
Proof.
  intros Hok Hget Hle Hfresh Hcode fleetId created. subst created fleetId.
  destruct (handle (PostVehicle insert id shareCode) now s) as [response s1] eqn:Hrun.
  unfold handle, post_vehicle in Hrun.
  rewrite Hok, (getFleet_live _ _ _ _ Hget Hle) in Hrun.
  unfold createVehicle in Hrun.
  rewrite (getVehiclesByFleet_live _ _ _ _ Hget Hle) in Hrun.
  injection Hrun as <- <-. cbn [fst snd status body].
  set (vehicle := Vehicle.mk _ _ _ _ _ _ _ _ _).
  set (s' := set_vehicles _ s).
  split; [done|]. intros t Ht.
  assert (Hget' : omap_get (InsertVehicle.fleetId insert) (fleets s') = Some fleet)
    by done.
  assert (Hlive : getFleet (InsertVehicle.fleetId insert) t s' = (Some fleet, s'))
    by by apply getFleet_live.
  split_and!.
  - unfold handle, getVehicle. subst s'. cbn [vehicles set_vehicles].
    by rewrite omap_get_set_eq.
  - unfold handle.
    assert (Hfind : getVehicleByShareCode shareCode s' = Some vehicle).
    { unfold getVehicleByShareCode, omap_values. subst s'. cbn [vehicles set_vehicles].
      rewrite (omap_set_fresh _ _ _ Hfresh), fmap_app. apply find_fresh_last.
      - intros x Hx. apply bool_decide_eq_false_2. by apply Hcode.
      - by apply bool_decide_eq_true_2. }
    rewrite Hfind. change (Vehicle.fleetId vehicle) with (InsertVehicle.fleetId insert).
    by rewrite Hlive.
  - unfold handle. rewrite Hlive.
    rewrite (getVehiclesByFleet_live _ _ _ _ Hget' Ht).
    subst s'. rewrite (vehiclesOf_set_fresh _ _ _ _ Hfresh).
    rewrite decide_True by done. by rewrite map_app.
Qed.

Lemma created_vehicle_is_served_witness :
  let s := Storage.mk [] [("flt", sample_fleet "flt" 900000)]
             [("v1", sample_vehicle "v1" "flt")] in
  let created := handle (PostVehicle (InsertVehicle.mk "flt" "Buggy 2" None) "v2" "c2")
                   5 s in
  status (handle (GetVehicleShare "c2") 900000 created.2).1 = 200.
Proof.
  intros s created.
  destruct (created_vehicle_is_served s (InsertVehicle.mk "flt" "Buggy 2" None)
              "v2" "c2" 5 (sample_fleet "flt" 900000)) as [_ Hserved].
  - reflexivity.
  - reflexivity.
  - simpl. lia.
  - reflexivity.
  - intros vehicle ->%list_elem_of_singleton. done.
  - destruct (Hserved 900000%Z) as (_ & Hshare & _); [simpl; lia|].
    fold s created in Hshare. by rewrite Hshare.
Defined.

(** * Further properties: the saved shares of the client *)

Section SavedSharesFacts.
Import SavedShares.

Lemma filter_length_eq {A} (P : A → Prop) `{!∀ x, Decision (P x)} (l : list A) :
  length (filter P l) = length l → filter P l = l.
Proof.
  induction l as [|x l IH]; [done|].
  rewrite filter_cons. case_decide; simpl.
  - intros [= Hlen]. by rewrite IH.
  - intros Hlen. pose proof (length_filter P l). lia.
Qed.

Lemma filter_all {A} (P : A → Prop) `{!∀ x, Decision (P x)} (l : list A) :
  Forall P l → filter P l = l.
Proof.
  induction 1 as [|x l Hx Hl IH]; [done|].
  rewrite filter_cons, decide_True by done. by rewrite IH.
Qed.

Lemma getSavedShares_held now item :
  (getSavedShares now item).1 = filter (unexpired now) (held item)
  ∧ held (getSavedShares now item).2 = filter (unexpired now) (held item).
Proof.
  destruct item as [| |shares]; [done..|]. simpl. split; [done|].
  case_decide as Hlen; [done|]. simpl. symmetry. apply filter_length_eq.
  destruct (decide (length (filter (unexpired now) shares) = length shares)); done.
Qed.

Lemma getSavedShares_Shares now shares :
  (getSavedShares now (Shares shares)).2 = Shares (filter (unexpired now) shares).
Proof.
  simpl. case_decide as Hlen; [done|]. f_equal. symmetry. apply filter_length_eq.
  destruct (decide (length (filter (unexpired now) shares) = length shares)); done.
Qed.

Lemma unexpired_later now t share : (now ≤ t)%Z → unexpired t share → unexpired now share.
Proof. unfold unexpired. destruct (expiresAt share); [lia|done]. Qed.

Lemma filter_unexpired_later now t (shares : list SavedShare) :
  (now ≤ t)%Z →
  filter (unexpired t) (filter (unexpired now) shares) = filter (unexpired t) shares.
Proof.
  intros Hle. rewrite list_filter_filter. apply list_filter_iff.
  intros share. split; [by intros [? _]|]. intros Ht. split; [done|].
  by eapply unexpired_later.
Qed.

Lemma ids_unique_filter (P : SavedShare → Prop) `{!∀ x, Decision (P x)}
    (shares : list SavedShare) :
  NoDup (id <$> shares) → NoDup (id <$> filter P shares).
Proof.
  intros Hnd. eapply sublist_NoDup; [exact Hnd|].
  apply fmap_sublist, sublist_filter.
Qed.

(** X27: [getSavedShares] answers the shares of the stored array that expire
    strictly after the current instant, in their order, and nothing for an
    item that is absent or unreadable; afterwards the item holds exactly the
    shares answered, and it is left as it was when no share had expired.
    Reading early changes no later read: a read at a later instant answers
    and leaves the same after it as without it.  Shares with pairwise
    distinct ids stay so. *)
Theorem getSavedShares_keeps_exactly_the_unexpired (now : Z) (item : Item) :
  let r := getSavedShares now item in
  r.1 = filter (unexpired now) (held item)
  ∧ held r.2 = r.1
  ∧ (Forall (unexpired now) (held item) → r.2 = item)
  ∧ (∀ t, (now ≤ t)%Z → getSavedShares t r.2 = getSavedShares t item)
  ∧ (NoDup (id <$> held item) → NoDup (id <$> held r.2)).
Proof.
  intros r. subst r. destruct (getSavedShares_held now item) as [Hanswer Hheld].
  split_and!.
  - done.
  - by rewrite Hheld.
  - intros Hall. destruct item as [| |shares]; [done..|]. simpl in *.
    rewrite decide_False; [done|]. intros Hlen. apply Hlen.
    by rewrite filter_all.
  - intros t Hle. destruct item as [| |shares]; [done..|].
    rewrite getSavedShares_Shares.
    apply injective_projections.
    + rewrite !(proj1 (getSavedShares_held _ _)). simpl.
      by apply filter_unexpired_later.
    + rewrite !getSavedShares_Shares. f_equal. by apply filter_unexpired_later.
  - intros Hnd. rewrite Hheld. by apply ids_unique_filter.
Qed.

Lemma getSavedShares_keeps_exactly_the_unexpired_witness :
  (getSavedShares 50 sample_item).1 = [sample_share "b" 100]
  ∧ getSavedShares 60 (getSavedShares 50 sample_item).2 = getSavedShares 60 sample_item.
Proof.
  destruct (getSavedShares_keeps_exactly_the_unexpired 50 sample_item)
    as (Hanswer & _ & _ & Hlater & _).
  split; [by rewrite Hanswer|]. apply Hlater. lia.
Defined.


(** X28: [saveShare] writes an array in every case.  A share whose id no unexpired
    stored share has is appended; otherwise it takes the place of the first
    share with its id, the ids keeping their order.  Shares with other ids
    are neither added nor lost, expired shares are dropped, and a saved share
    that has not expired is answered by the next read.  When the stored ids
    are pairwise distinct they stay so, and the saved share is then the only
    one with its id. *)
Theorem saveShare_upserts (share : SavedShare) (now : Z) (item : Item) :
  let before := (getSavedShares now item).1 in
  let after := held (saveShare share now item) in
  saveShare share now item = Shares after
  ∧ share ∈ after
  ∧ (id share ∉ id <$> before → after = before ++ [share])
  ∧ (id share ∈ id <$> before →
     id <$> after = id <$> before ∧ length after = length before)
  ∧ (∀ s, id s ≠ id share → s ∈ after ↔ s ∈ before)
  ∧ (unexpired now share →
     share ∈ (getSavedShares now (saveShare share now item)).1)
  ∧ (NoDup (id <$> held item) →
     NoDup (id <$> after) ∧ ∀ s, s ∈ after → id s = id share → s = share).
Proof.
  intros before after.
  assert (Hnd : NoDup (id <$> held item) → NoDup (id <$> before)).
  { intros Hnd. subst before. rewrite (proj1 (getSavedShares_held _ _)).
    by apply ids_unique_filter. }
  assert (Hread : share ∈ after → unexpired now share →
                  share ∈ (getSavedShares now (saveShare share now item)).1).
  { intros Hin Hlive. rewrite (proj1 (getSavedShares_held _ _)).
    apply list_elem_of_filter. by split. }
  subst after. unfold saveShare in *. fold before in Hread |- *.
  destruct (list_find (λ s, id s = id share) before) as [[i x]|] eqn:Hfind.
  - apply list_find_Some in Hfind as (Hi & Hx & Hfirst). simpl in *.
    assert (Hlt : i < length before) by by eapply lookup_lt_Some.
    assert (Hin : share ∈ <[i:=share]> before) by by apply list_elem_of_insert.
    assert (Hids : id <$> <[i:=share]> before = id <$> before).
    { rewrite list_fmap_insert. apply list_insert_id.
      by rewrite list_lookup_fmap, Hi, <- Hx. }
    split_and!; try done.
    + intros Hnot. destruct Hnot. apply list_elem_of_fmap. exists x.
      split; [done|]. by eapply list_elem_of_lookup_2.
    + intros _. split; [done|]. apply length_insert.
    + intros s Hs. rewrite !list_elem_of_lookup. split.
      * intros [j Hj]. apply list_lookup_insert_Some in Hj
          as [(_ & <- & _)|[_ Hj]]; [done|eauto].
      * intros [j Hj]. exists j. rewrite list_lookup_insert_ne; [done|].
        intros <-. rewrite Hi in Hj. by injection Hj as <-.
    + by apply Hread.
    + intros Hunique. specialize (Hnd Hunique). split; [by rewrite Hids|].
      intros s [j Hj]%list_elem_of_lookup Hs.
      apply list_lookup_insert_Some in Hj as [(_ & <- & _)|[Hne Hj]]; [done|].
      destruct Hne.
      apply (NoDup_lookup (id <$> before) i j (id share) Hnd).
      * by rewrite list_lookup_fmap, Hi, <- Hx.
      * by rewrite list_lookup_fmap, Hj, <- Hs.
  - apply list_find_None in Hfind. simpl in *.
    assert (Hin : share ∈ before ++ [share]).
    { apply elem_of_app. right. by left. }
    assert (Hfresh : id share ∉ id <$> before).
    { intros (x & Hx & Hin')%list_elem_of_fmap.
      by apply (proj1 (Forall_forall _ _) Hfind x Hin'). }
    split_and!; try done.
    + intros s Hs. rewrite elem_of_app, list_elem_of_singleton. split; [|by left].
      intros [?| ->]; done.
    + by apply Hread.
    + intros Hunique. specialize (Hnd Hunique). split.
      * rewrite fmap_app. apply NoDup_app. split; [done|]. split.
        { intros k Hk ->%list_elem_of_singleton. done. }
        apply NoDup_singleton.
      * intros s [Hs| ->%list_elem_of_singleton]%elem_of_app Hid; [|done].
        destruct Hfresh. rewrite <- Hid. apply list_elem_of_fmap. by exists s.
Qed.

Lemma saveShare_upserts_witness :
  held (saveShare (sample_share "c" 200) 50 sample_item)
  = [sample_share "b" 100; sample_share "c" 200].
Proof.
  destruct (saveShare_upserts (sample_share "c" 200) 50 sample_item)
    as (_ & _ & Hfresh & _).
  apply Hfresh. intros Hin. simpl in Hin.
  apply list_elem_of_singleton in Hin. discriminate.
Defined.


(** X29: [removeShare] writes an array in every case: the unexpired stored shares
    without every share that has the given id, in their order.  From then on
    no read answers a share with that id, the shares with other ids are
    answered as they would have been, and removing the id once more changes
    nothing.  Pairwise distinct ids stay so. *)
Theorem removeShare_forgets (id' : string) (now : Z) (item : Item) :
  let after := removeShare id' now item in
  after = Shares (filter (λ s, id s ≠ id') (filter (unexpired now) (held item)))
  ∧ (∀ t s, (now ≤ t)%Z →
       s ∈ (getSavedShares t after).1
       ↔ s ∈ (getSavedShares t item).1 ∧ id s ≠ id')
  ∧ removeShare id' now after = after
  ∧ (NoDup (id <$> held item) → NoDup (id <$> held after)).
Proof.
  intros after. subst after. unfold removeShare.
  rewrite (proj1 (getSavedShares_held now item)).
  split_and!.
  - done.
  - intros t s Hle. rewrite !(proj1 (getSavedShares_held _ _)). simpl.
    rewrite !list_elem_of_filter. split.
    + intros (Ht & Hid & _ & Hin). done.
    + intros [[Ht Hin] Hid]. split_and!; try done. by eapply unexpired_later.
  - rewrite (proj1 (getSavedShares_held now _)). simpl. f_equal.
    rewrite !list_filter_filter. apply list_filter_iff. intros s. tauto.
  - intros Hnd. simpl. by do 2 apply ids_unique_filter.
Qed.

Lemma removeShare_forgets_witness :
  sample_share "b" 100 ∈ (getSavedShares 60 (removeShare "a" 50 sample_item)).1
  ∧ removeShare "b" 50 (removeShare "b" 50 sample_item)
    = removeShare "b" 50 sample_item.
Proof.
  destruct (removeShare_forgets "a" 50 sample_item) as (_ & Hkept & _).
  destruct (removeShare_forgets "b" 50 sample_item) as (_ & _ & Hagain & _).
  split; [|exact Hagain].
  apply (Hkept 60%Z); [lia|]. split; [|done]. simpl. by left.
Defined.


(** X30: [updateShareLiveStatus] changes nothing but live flags: position by
    position the shares held afterwards are the unexpired stored shares, up
    to the flag.  When no unexpired share has the id, nothing is written
    beyond what the read itself writes.  When the stored ids are pairwise
    distinct the share with the id gets the given flag and every other share
    keeps its own. *)
Theorem updateShareLiveStatus_sets_the_flag (id' : string) (isLive' : bool)
    (now : Z) (item : Item) :
  let before := (getSavedShares now item).1 in
  let after := updateShareLiveStatus id' isLive' now item in
  Forall2 same_but_live (held after) before
  ∧ (id' ∉ id <$> before → after = (getSavedShares now item).2)
  ∧ (∀ i a b, held after !! i = Some a → before !! i = Some b →
              id b ≠ id' → a = b)
  ∧ (id' ∈ id <$> before →
     ∃ s, s ∈ held after ∧ id s = id' ∧ isLive s = isLive')
  ∧ (NoDup (id <$> held item) →
     ∀ i a b, held after !! i = Some a → before !! i = Some b →
              isLive a = if decide (id b = id') then isLive' else isLive b).
Proof.
  intros before after.
  assert (Hrefl : Forall2 same_but_live before before).
  { apply Forall_Forall2_diag, Forall_forall. by intros s _. }
  assert (Hnd : NoDup (id <$> held item) → NoDup (id <$> before)).
  { intros Hnd. subst before. rewrite (proj1 (getSavedShares_held _ _)).
    by apply ids_unique_filter. }
  assert (Hheld : held (getSavedShares now item).2 = before).
  { subst before. by destruct (getSavedShares_held now item) as [-> ->]. }
  subst after. unfold updateShareLiveStatus.
  destruct (getSavedShares now item) as [shares item1] eqn:Hget.
  simpl in before, Hheld. subst before.
  destruct (list_find (λ s, id s = id') shares) as [[i x]|] eqn:Hfind.
  - apply list_find_Some in Hfind as (Hi & Hx & Hfirst). simpl.
    assert (Hlt : i < length shares) by by eapply lookup_lt_Some.
    split_and!.
    + rewrite <- (list_insert_id shares i x Hi) at 2.
      by apply Forall2_insert.
    + intros Hnot. destruct Hnot. apply list_elem_of_fmap. exists x.
      split; [done|]. by eapply list_elem_of_lookup_2.
    + intros j a b Ha Hb Hne.
      apply list_lookup_insert_Some in Ha as [(<- & _ & _)|[_ Ha]]; [|congruence].
      rewrite Hi in Hb. by injection Hb as <-.
    + intros _. eexists. split; [by apply list_elem_of_insert|]. done.
    + intros Hunique j a b Ha Hb. specialize (Hnd Hunique).
      apply list_lookup_insert_Some in Ha as [(<- & <- & _)|[Hne Ha]].
      * rewrite Hi in Hb. injection Hb as <-. by rewrite decide_True.
      * rewrite Ha in Hb. injection Hb as <-. rewrite decide_False; [done|].
        intros Hid. destruct Hne.
        apply (NoDup_lookup (id <$> shares) i j id' Hnd).
        -- by rewrite list_lookup_fmap, Hi, <- Hx.
        -- by rewrite list_lookup_fmap, Ha, <- Hid.
  - apply list_find_None in Hfind. simpl. rewrite Hheld.
    split_and!; try done.
    + intros i a b Ha Hb _. congruence.
    + intros (x & Hx & Hin)%list_elem_of_fmap.
      by destruct (proj1 (Forall_forall _ _) Hfind x Hin).
    + intros _ i a b Ha Hb. rewrite Ha in Hb. injection Hb as <-.
      rewrite decide_False; [done|].
      apply (proj1 (Forall_forall _ _) Hfind a). by eapply list_elem_of_lookup_2.
Qed.

Lemma updateShareLiveStatus_sets_the_flag_witness :
  ∃ s, s ∈ held (updateShareLiveStatus "b" true 50 sample_item)
       ∧ id s = "b" ∧ isLive s = true.
Proof.
  destruct (updateShareLiveStatus_sets_the_flag "b" true 50 sample_item)
    as (_ & _ & _ & Hflag & _).
  apply Hflag. simpl. by left.
Defined.


End SavedSharesFacts.
